(** * pystav/gmmmap.py: GMM-based frame-wise and trajectory-wise mapping

    A shallow embedding of [GMMMap] and [TrajectoryGMMMap] and the
    properties of their constructors, of [convert] and of
    [convert_with_gv].

    Conventions of the embedding.
    - numpy's float64 arithmetic is idealised as exact arithmetic in an
      ordered field [R]; rounding, infinities and NaN are not values of
      the model.
    - An n-dimensional array is a nested [seq]: [vec] for one axis, [mat]
      for two (a list of rows), [ten] for three.  scipy's sparse matrices
      are storage formats of two-axis arrays and are modelled as [mat].
      An array with no row has no recorded width ([ncols] gives 0).
    - Python exceptions are the constructors of [exn]; a call returns
      [Ok v] or [Raise e].
    - Instance attributes live in a record; methods that assign to
      [self] are computations in a state-and-exception monad, so that
      the attributes assigned before an exception stay assigned.
    - [src[t]] is read before [conditional_mean] is entered; the source
      reads it after [self.covarXX[m]], and it cannot fail there.
    - The [print] statement of [convert_with_gv] writes to the standard
      output only and is left out.
    - The normal density that scikit-learn evaluates is a parameter
      [pdf] of the development; of the Cholesky factorisation that the
      evaluation starts with, the model has whether it succeeds and the
      covariance that is factored. *)

From HB Require Import structures.
From mathcomp Require Import ssreflect ssrfun ssrbool eqtype ssrnat seq div.
From mathcomp Require Import choice fintype bigop order ssralg ssrnum ssrint.
From mathcomp Require Import rat matrix.
From Stdlib Require Import Lia.

Set Implicit Arguments.
Unset Strict Implicit.
Unset Printing Implicit Defensive.

Import GRing.Theory Num.Theory Order.Theory.
Local Open Scope ring_scope.

(** ** Exceptions and results *)

Inductive exn : Type :=
  | ValueError          (* shapes that do not fit, empty argmax *)
  | LinAlgError         (* numpy.linalg: not square, or singular;
                           scipy.linalg: not positive definite *)
  | AttributeError      (* an attribute that was never assigned *)
  | IndexError          (* a subscript out of range *)
  | AssertionError      (* a failed assert statement *)
  | MatrixRankWarning.  (* scipy's spsolve on a singular system: it warns
                           and returns an array of NaN, which R lacks *)

Inductive res (A : Type) : Type :=
  | Ok of A
  | Raise of exn.

Arguments Raise {A} e.

Definition rbind {A B : Type} (c : res A) (k : A -> res B) : res B :=
  match c with
  | Ok a => k a
  | Raise e => Raise e
  end.

Notation "x <-- c ;; k" := (rbind c (fun x => k))
  (at level 100, c at next level, right associativity).

(** A loop over [rng] that updates a local variable and may raise. *)
Fixpoint foldM {A I : Type} (body : I -> A -> res A) (rng : seq I) (acc : A)
  : res A :=
  match rng with
  | [::] => Ok acc
  | i :: rng' => acc' <-- body i acc ;; foldM body rng' acc'
  end.

(** [s[i]] for a Python sequence. *)
Definition getitem {A : Type} (s : seq A) (i : nat) : res A :=
  match drop i s with
  | x :: _ => Ok x
  | [::] => Raise IndexError
  end.

(** Reading an attribute that may not have been assigned yet. *)
Definition getattr {A : Type} (a : option A) : res A :=
  match a with
  | Some x => Ok x
  | None => Raise AttributeError
  end.

(** ** Computations on an instance: state and exceptions *)

Definition M (S A : Type) : Type := S -> res A * S.

Definition ret {S A : Type} (a : A) : M S A := fun s => (Ok a, s).

Definition bind {S A B : Type} (c : M S A) (k : A -> M S B) : M S B :=
  fun s =>
    match c s with
    | (Ok a, s') => k a s'
    | (Raise e, s') => (Raise e, s')
    end.

Definition lift {S A : Type} (r : res A) : M S A := fun s => (r, s).

Definition gets {S A : Type} (f : S -> A) : M S A := fun s => (Ok (f s), s).

Definition modify {S : Type} (f : S -> S) : M S unit := fun s => (Ok tt, f s).

Notation "x <~ c ;; k" := (bind c (fun x => k))
  (at level 100, c at next level, right associativity).
Notation "c ;;; k" := (bind c (fun _ => k))
  (at level 100, right associativity).

(** [for i in rng: body]. *)
Fixpoint for_ {S I : Type} (rng : seq I) (body : I -> M S unit) : M S unit :=
  match rng with
  | [::] => ret tt
  | i :: rng' => body i ;;; for_ rng' body
  end.

(** ** numpy, scipy and scikit-learn

    The operations of the libraries that the program calls, with their
    shape checks.  Elementwise operations broadcast as numpy does: two
    axes fit when they have the same length or one of them has length 1. *)

Section Model.

Variable R : realFieldType.

Definition vec : Type := seq R.
Definition mat : Type := seq (seq R).
Definition ten : Type := seq (seq (seq R)).

(** The value of an attribute that holds arrays of different rank over
    time ([self.D], [self.E]). *)
Inductive ndarray : Type :=
  | Arr1 of vec
  | Arr2 of mat
  | Arr3 of ten.

Definition ncols (a : mat) : nat := size (head [::] a).

Definition shape (a : mat) : nat * nat := (size a, ncols a).

Definition rect (m n : nat) (a : mat) : bool :=
  (size a == m) && all (fun r : vec => size r == n) a.

Definition zeros1 (n : nat) : vec := nseq n 0.
Definition zeros2 (m n : nat) : mat := nseq m (zeros1 n).
Definition zeros3 (k m n : nat) : ten := nseq k (zeros2 m n).

(** Broadcasting of one axis. *)
Definition bdim (m n : nat) : option nat :=
  if m == n then Some m
  else if m == 1%N then Some n
  else if n == 1%N then Some m
  else None.

Definition bnth (v : vec) (i : nat) : R :=
  nth 0 v (if size v == 1%N then 0%N else i).

Definition brow (a : mat) (i : nat) : vec :=
  nth [::] a (if size a == 1%N then 0%N else i).

(** [u op v] on one-axis arrays. *)
Definition bcast1 (op : R -> R -> R) (u v : vec) : res vec :=
  if bdim (size u) (size v) is Some n
  then Ok (mkseq (fun i => op (bnth u i) (bnth v i)) n)
  else Raise ValueError.

(** [a op b] on two-axis arrays. *)
Definition bcast2 (op : R -> R -> R) (a b : mat) : res mat :=
  match bdim (size a) (size b), bdim (ncols a) (ncols b) with
  | Some m, Some n =>
      Ok (mkseq (fun i =>
            mkseq (fun j => op (bnth (brow a i) j) (bnth (brow b i) j)) n) m)
  | _, _ => Raise ValueError
  end.

Definition vadd : vec -> vec -> res vec := bcast1 +%R.
Definition vsub : vec -> vec -> res vec := bcast1 (fun x y => x - y).
Definition vmul : vec -> vec -> res vec := bcast1 *%R.
Definition msub : mat -> mat -> res mat := bcast2 (fun x y => x - y).
Definition madd : mat -> mat -> res mat := bcast2 +%R.

(** [c * v] and [c * a] for a Python float [c]. *)
Definition vscale (c : R) (v : vec) : vec := [seq c * x | x <- v].
Definition mscale (c : R) (a : mat) : mat := [seq vscale c r | r <- a].

(** [E[m] = v]: assignment to a row, the value broadcast to the row. *)
Definition setrow (E : mat) (m : nat) (v : vec) : res mat :=
  row <-- getitem E m ;;
  if (size v == size row) || (size v == 1%N)
  then Ok (set_nth [::] E m (mkseq (bnth v) (size row)))
  else Raise ValueError.

(** [D[m] = a]: assignment to a slice of a three-axis array. *)
Definition setslice (D : ten) (m : nat) (a : mat) : res ten :=
  slot <-- getitem D m ;;
  if ((size a == size slot) || (size a == 1%N))
     && ((ncols a == ncols slot) || (ncols a == 1%N))
  then Ok (set_nth [::] D m
             (mkseq (fun i => mkseq (bnth (brow a i)) (ncols slot))
                    (size slot)))
  else Raise ValueError.

(** The sum of the products of two rows of the same length. *)
Definition dot_vv (u v : vec) : R := \sum_(p <- zip u v) p.1 * p.2.

(** [a.T] for an array of [n] columns. *)
Definition transpose (a : mat) : mat :=
  mkseq (fun j => [seq nth 0 r j | r <- a]) (ncols a).

(** [numpy.dot] and the sparse [dot]: matrix by vector, matrix by matrix. *)
Definition dot21 (a : mat) (v : vec) : res vec :=
  if all (fun r : vec => size r == size v) a
  then Ok [seq dot_vv r v | r <- a]
  else Raise ValueError.

Definition dot22 (a b : mat) : res mat :=
  if all (fun r : vec => size r == size b) a
  then Ok [seq [seq dot_vv r c | c <- transpose b] | r <- a]
  else Raise ValueError.

(** Arrays and MathComp matrices. *)
Definition mx_of (m n : nat) (a : mat) : 'M[R]_(m, n) :=
  \matrix_(i, j) nth 0 (nth [::] a i) j.

Definition of_mx (m n : nat) (A : 'M[R]_(m, n)) : mat :=
  [seq [seq A i j | j <- enum 'I_n] | i <- enum 'I_m].

Definition cv_of (n : nat) (v : vec) : 'cV[R]_n := \col_i nth 0 v i.

Definition of_cv (n : nat) (x : 'cV[R]_n) : vec :=
  [seq x i ord0 | i <- enum 'I_n].

(** [numpy.linalg.solve a b]: the [x] with [a x = b].  [a] has to be
    square and regular; [b] has one axis or two. *)
Definition linalg_solve1 (a : mat) (b : vec) : res vec :=
  let n := size a in
  if ~~ rect n n a then Raise LinAlgError
  else if size b != n then Raise ValueError
  else if mx_of n n a \in unitmx
  then Ok (of_cv (invmx (mx_of n n a) *m cv_of n b))
  else Raise LinAlgError.

Definition linalg_solve2 (a b : mat) : res mat :=
  let n := size a in
  if ~~ rect n n a then Raise LinAlgError
  else if ~~ rect n (ncols b) b then Raise ValueError
  else if mx_of n n a \in unitmx
  then Ok (of_mx (invmx (mx_of n n a) *m mx_of n (ncols b) b))
  else Raise LinAlgError.

(** [numpy.linalg.inv a]. *)
Definition linalg_inv (a : mat) : res mat :=
  let n := size a in
  if ~~ rect n n a then Raise LinAlgError
  else if mx_of n n a \in unitmx then Ok (of_mx (invmx (mx_of n n a)))
  else Raise LinAlgError.

(** [scipy.sparse.linalg.spsolve A b] with SuperLU: on a singular [A] it
    warns and returns NaN in every entry. *)
Definition spsolve (A : mat) (b : vec) : res vec :=
  let n := size A in
  if ~~ rect n n A then Raise ValueError
  else if size b != n then Raise ValueError
  else if mx_of n n A \in unitmx
  then Ok (of_cv (invmx (mx_of n n A) *m cv_of n b))
  else Raise MatrixRankWarning.

(** [scipy.sparse.diags(v, 0)]: the diagonal matrix of [v]. *)
Definition diags (v : vec) : mat :=
  mkseq (fun i => mkseq (fun j => if i == j then nth 0 v i else 0) (size v))
        (size v).

(** [numpy.eye(n)]. *)
Definition eye (n : nat) : mat := diags (nseq n 1).

(** [scipy.sparse.vstack([a, b])]. *)
Definition vstack (a b : mat) : res mat :=
  if ncols a == ncols b then Ok (a ++ b) else Raise ValueError.

(** [w[0:, c0:c1] = b] on a matrix [w]: the columns from [c0] to [c1] of
    every row are replaced by the rows of [b]. *)
Definition setcols (w : mat) (c0 c1 : nat) (b : mat) : res mat :=
  if (size b == size w) && rect (size b) (minn c1 (ncols w) - c0) b
  then Ok [seq take c0 p.1 ++ p.2 ++ drop (c0 + size p.2) p.1 | p <- zip w b]
  else Raise ValueError.

(** [scipy.sparse.block_diag(blocks)]. *)
Fixpoint block_diag (blocks : seq mat) : mat :=
  match blocks with
  | [::] => [::]
  | b :: blocks' =>
      let rest := block_diag blocks' in
      [seq r ++ zeros1 (ncols rest) | r <- b]
      ++ [seq zeros1 (ncols b) ++ r | r <- rest]
  end.

(** [v.reshape((m, n))]. *)
Definition reshape (m n : nat) (v : vec) : res mat :=
  if size v == (m * n)%N
  then Ok (mkseq (fun i => take n (drop (i * n) v)) m)
  else Raise ValueError.

(** [numpy.mean(y, axis=0)] and [numpy.var(y, axis=0)]. *)
Definition mean0 (y : mat) : vec :=
  mkseq (fun j => (\sum_(r <- y) nth 0 r j) / (size y)%:R) (ncols y).

Definition var0 (y : mat) : vec :=
  mkseq (fun j => (\sum_(r <- y) (nth 0 r j - nth 0 (mean0 y) j) ^+ 2)
                  / (size y)%:R) (ncols y).

(** [scipy.linalg.cholesky(a, lower=True)].  It raises [ValueError] on an
    array that is not square.  LAPACK's [potrf] then reads the lower
    triangle of [a] only and stops at the first leading minor, of the
    symmetric matrix with that triangle, that is not positive: scipy
    raises [LinAlgError].  The factor has square roots, which a field
    does not have: the model returns the array that has been factored. *)
Definition lower_triangle (a : mat) : mat :=
  mkseq (fun i =>
           mkseq (fun j => nth 0 (nth [::] a (maxn i j)) (minn i j)) (size a))
        (size a).

Definition positive_definite (a : mat) : bool :=
  all (fun k => 0 < \det (mx_of k.+1 k.+1 (lower_triangle a)))
      (iota 0 (size a)).

Definition cholesky (a : mat) : res mat :=
  if ~~ rect (size a) (size a) a then Raise ValueError
  else if positive_definite a then Ok a
  else Raise LinAlgError.

(** [numpy.argmax] of one row: the first index of the greatest entry. *)
Fixpoint argmax_from (best : R) (ibest i : nat) (s : vec) : nat :=
  match s with
  | [::] => ibest
  | x :: s' =>
      if best < x then argmax_from x i i.+1 s'
      else argmax_from best ibest i.+1 s'
  end.

Definition argmax (s : vec) : res nat :=
  match s with
  | [::] => Raise ValueError
  | x :: s' => Ok (argmax_from x 0%N 1%N s')
  end.

(** *** sklearn.mixture.GMM

    The attributes of a mixture with full covariances that the program
    reads or assigns: one row of [means_], one matrix of [covars_] and one
    entry of [weights_] for each component.  The class is the one of the
    releases 0.17 to 0.19 of scikit-learn, the last that have it. *)

Record GMM : Type := mkGMM {
  means_ : mat;
  covars_ : ten;
  weights_ : vec
}.

(** The density of the normal law of mean [mu] and covariance [sigma] at
    [x].  It is an exponential, which a field does not have: it is a
    parameter of the development. *)
Variable pdf : vec -> mat -> vec -> R.

(** [w_k N(x; mu_k, sigma_k)] for each component [k]. *)
Definition weighted (g : GMM) (x : vec) : vec :=
  [seq nth 0 (weights_ g) k
       * pdf (nth [::] (means_ g) k) (nth [::] (covars_ g) k) x
  | k <- iota 0 (size (means_ g))].

(** The posterior probabilities of the components given [x]. *)
Definition responsibilities (g : GMM) (x : vec) : vec :=
  let l := weighted g x in [seq p / (\sum_(q <- l) q) | p <- l].

(** The default [min_covar = 1.e-7] of the density with full
    covariances. *)
Definition min_covar : R := (10%:R ^+ 7)^-1.

(** The covariance that the density of one component is computed from,
    for frames of width [n]: [cv] when [cholesky] accepts it; otherwise
    [cv + min_covar * np.eye(n_dim)], and [ValueError] when [cholesky]
    rejects that too.  [solve_triangular] then wants a factor of [n]
    rows. *)
Definition factored (n : nat) (cv : mat) : res mat :=
  c <-- match cholesky cv with
        | Raise LinAlgError =>
            cv' <-- madd cv (mscale min_covar (eye n)) ;;
            match cholesky cv' with
            | Raise LinAlgError => Raise ValueError
            | r => r
            end
        | r => r
        end ;;
  if size c == n then Ok c else Raise ValueError.

(** [GMM.predict_proba(X)]: one row of posteriors for each row of [X].
    [check_array] rejects an array with no row or no column; the width of
    [X] has to be that of the means; the loop over [zip(means, covars)]
    factors the covariance of each component. *)
Definition predict_proba (g : GMM) (X : mat) : res mat :=
  if (size X == 0%N) || (ncols X == 0%N) then Raise ValueError
  else if ~~ all (fun x : vec => size x == ncols (means_ g)) X
  then Raise ValueError
  else
    covs <-- foldM (fun (p : vec * mat) (cs : ten) =>
                      c <-- factored (ncols X) p.2 ;; Ok (rcons cs c))
                   (zip (means_ g) (covars_ g)) [::] ;;
    Ok [seq responsibilities (mkGMM (means_ g) covs (weights_ g)) x | x <- X].

(** [GMM.predict(X)]: [responsibilities.argmax(axis=1)]. *)
Definition predict (g : GMM) (X : mat) : res (seq nat) :=
  post <-- predict_proba g X ;;
  foldM (fun r ks => k <-- argmax r ;; Ok (rcons ks k)) post [::].

(** ** class GMMMap *)

Record GMMMap : Type := mkGMMMap {
  num_mixtures : nat;
  weights : vec;
  src_means : mat;
  tgt_means : mat;
  covarXX : ten;
  covarXY : ten;
  covarYX : ten;
  covarYY : ten;
  self_D : ndarray;          (* the attribute D *)
  px : GMM
}.

(** The right-hand side of eq. (12), and of eq. (23):
    [covarYY[m] - dot(covarYX[m], solve(covarXX[m], covarXY[m]))]. *)
Definition residual (covarXX covarXY covarYX covarYY : ten) (m : nat)
  : res mat :=
  xx <-- getitem covarXX m ;;
  xy <-- getitem covarXY m ;;
  xx_inv_xy <-- linalg_solve2 xx xy ;;
  yy <-- getitem covarYY m ;;
  yx <-- getitem covarYX m ;;
  prod <-- dot22 yx xx_inv_xy ;;
  msub yy prod.

(** [GMMMap.__init__(self, gmm, swap)].  The division of [shape[1]] by 2
    is Python 2's division of integers.  With [swap] the third tuple
    assignment reads [self.XY], an attribute that no statement assigns. *)
Definition GMMMap_init (gmm : GMM) (swap : bool) : res GMMMap :=
  let num_mixtures := size (means_ gmm) in
  let D := (ncols (means_ gmm) %/ 2)%N in
  let weights := weights_ gmm in
  let src_means := [seq take D r | r <- means_ gmm] in
  let tgt_means := [seq drop D r | r <- means_ gmm] in
  let covarXX := [seq [seq take D r | r <- take D c] | c <- covars_ gmm] in
  let covarXY := [seq [seq drop D r | r <- take D c] | c <- covars_ gmm] in
  let covarYX := [seq [seq take D r | r <- drop D c] | c <- covars_ gmm] in
  let covarYY := [seq [seq drop D r | r <- drop D c] | c <- covars_ gmm] in
  blocks <--
    (if swap then
       let '(tgt_means, src_means) := (src_means, tgt_means) in
       let '(covarYY, covarXX) := (covarXX, covarYY) in
       XY <-- getattr (@None ten) ;;
       let '(covarYX, covarXY) := (XY, covarYX) in
       Ok (src_means, tgt_means, covarXX, covarXY, covarYX, covarYY)
     else Ok (src_means, tgt_means, covarXX, covarXY, covarYX, covarYY)) ;;
  let '(src_means, tgt_means, covarXX, covarXY, covarYX, covarYY) := blocks in
  D_ <-- foldM (fun m (D_ : ten) =>
           d <-- residual covarXX covarXY covarYX covarYY m ;;
           setslice D_ m d)
         (iota 0 num_mixtures) (zeros3 num_mixtures D D) ;;
  Ok {| num_mixtures := num_mixtures; weights := weights;
        src_means := src_means; tgt_means := tgt_means;
        covarXX := covarXX; covarXY := covarXY;
        covarYX := covarYX; covarYY := covarYY;
        self_D := Arr3 D_;
        px := {| means_ := src_means; covars_ := covarXX;
                 weights_ := weights |} |}.

(** The right-hand side of eq. (11), and of eq. (22):
    [tgt_means[m] + covarYX[m].dot(solve(covarXX[m], x - src_means[m]))]. *)
Definition conditional_mean (self : GMMMap) (m : nat) (x : vec) : res vec :=
  xxm <-- getitem (covarXX self) m ;;
  mu <-- getitem (src_means self) m ;;
  d <-- vsub x mu ;;
  xx <-- linalg_solve1 xxm d ;;
  tm <-- getitem (tgt_means self) m ;;
  yx <-- getitem (covarYX self) m ;;
  p <-- dot21 yx xx ;;
  vadd tm p.

(** The rows [E[m]] of [GMMMap.convert]. *)
Definition conditional_means (self : GMMMap) (src : vec) : res mat :=
  foldM (fun m (E : mat) => e <-- conditional_mean self m src ;; setrow E m e)
        (iota 0 (num_mixtures self)) (zeros2 (num_mixtures self) (size src)).

(** [GMMMap.convert(self, src)]: it assigns local variables only. *)
Definition GMMMap_convert (src : vec) : M GMMMap mat :=
  self <~ gets id ;;
  E <~ lift (conditional_means self src) ;;
  posterior <~ lift (predict_proba (px self) [:: src]) ;;
  lift (dot22 posterior E).

(** ** class TrajectoryGMMMap(GMMMap)

    The attributes inherited from [GMMMap] are the record [base]; the
    attributes that [__init__] or a later call may leave unassigned are
    options. *)

Record TrajectoryGMMMap : Type := mkTrajectoryGMMMap {
  base : GMMMap;
  self_T : nat;                (* the attribute T *)
  self_W : option mat;         (* the attribute W *)
  self_E : option ndarray;     (* the attribute E *)
  gv_mean : option vec;
  gv_covar : option mat;
  Pv : option mat
}.

Definition set_W (W : mat) : M TrajectoryGMMMap unit :=
  modify (fun self =>
    mkTrajectoryGMMMap (base self) (self_T self) (Some W) (self_E self)
      (gv_mean self) (gv_covar self) (Pv self)).

Definition set_E (E : ndarray) : M TrajectoryGMMMap unit :=
  modify (fun self =>
    mkTrajectoryGMMMap (base self) (self_T self) (self_W self) (Some E)
      (gv_mean self) (gv_covar self) (Pv self)).

Definition set_D (D_ : ndarray) : M TrajectoryGMMMap unit :=
  modify (fun self =>
    let b := base self in
    mkTrajectoryGMMMap
      (mkGMMMap (num_mixtures b) (weights b) (src_means b) (tgt_means b)
         (covarXX b) (covarXY b) (covarYX b) (covarYY b) D_ (px b))
      (self_T self) (self_W self) (self_E self)
      (gv_mean self) (gv_covar self) (Pv self)).

Definition set_gv (m : vec) (c p : mat) : M TrajectoryGMMMap unit :=
  modify (fun self =>
    mkTrajectoryGMMMap (base self) (self_T self) (self_W self) (self_E self)
      (Some m) (Some c) (Some p)).

Definition get_W : M TrajectoryGMMMap mat :=
  fun self => (getattr (self_W self), self).

(** [self.E] read as a two-axis or as a one-axis array, [self.D] as a
    three-axis or as a two-axis array.  Every read follows an assignment
    of an array of that rank; the other ranks are there for totality. *)
Definition get_E2 : M TrajectoryGMMMap mat :=
  fun self =>
    (match self_E self with
     | Some (Arr2 E) => Ok E
     | Some _ => Raise ValueError
     | None => Raise AttributeError
     end, self).

Definition get_E1 : M TrajectoryGMMMap vec :=
  fun self =>
    (match self_E self with
     | Some (Arr1 E) => Ok E
     | Some _ => Raise ValueError
     | None => Raise AttributeError
     end, self).

Definition get_D3 : M TrajectoryGMMMap ten :=
  fun self =>
    (match self_D (base self) with
     | Arr3 D_ => Ok D_
     | _ => Raise ValueError
     end, self).

Definition get_D2 : M TrajectoryGMMMap mat :=
  fun self =>
    (match self_D (base self) with
     | Arr2 D_ => Ok D_
     | _ => Raise ValueError
     end, self).

(** [TrajectoryGMMMap.__construct_weight_matrix(self, T, D)], eq. (25) to
    (28).  [t - 1 >= 0] on Python integers is [1 <= t]. *)
Definition construct_weight_matrix (T D : nat) : M TrajectoryGMMMap unit :=
  for_ (iota 0 T) (fun t =>
    let w0 := zeros2 D (D * T) in
    let w1 := zeros2 D (D * T) in
    w0 <~ lift (setcols w0 (t * D) ((t + 1) * D) (diags (nseq D 1))) ;;
    w1 <~ lift (if (1 <= t)%N
                then setcols w1 ((t - 1) * D) (t * D) (diags (nseq D (- 2^-1)))
                else Ok w1) ;;
    w1 <~ lift (if (t + 1 < T)%N
                then setcols w1 ((t + 1) * D) ((t + 2) * D)
                       (diags (nseq D 2^-1))
                else Ok w1) ;;
    W_t <~ lift (vstack w0 w1) ;;
    if t == 0%N then set_W W_t
    else (W <~ get_W ;; W' <~ lift (vstack W W_t) ;; set_W W')) ;;;
  W <~ get_W ;;
  set_W W ;;;
  if shape W == ((2 * D * T)%N, (D * T)%N) then ret tt
  else lift (Raise AssertionError).

(** [TrajectoryGMMMap.__init__(self, gmm, T, gv, swap)]. *)
Definition TrajectoryGMMMap_init (gmm : GMM) (T : nat) (gv : option GMM)
    (swap : bool) : res TrajectoryGMMMap :=
  b <-- GMMMap_init gmm swap ;;
  let self := mkTrajectoryGMMMap b T None None None None None in
  let D := (ncols (means_ gmm) %/ 4)%N in
  let body :=
    construct_weight_matrix T D ;;;
    if gv is Some gv then
      m <~ lift (getitem (means_ gv) 0) ;;
      c <~ lift (getitem (covars_ gv) 0) ;;
      p <~ lift (linalg_inv c) ;;
      set_gv m c p
    else ret tt in
  match body self with
  | (Ok _, self') => Ok self'
  | (Raise e, _) => Raise e
  end.

(** [TrajectoryGMMMap.convert(self, src)], eq. (37) to (41). *)
Definition convert (src : mat) : M TrajectoryGMMMap mat :=
  let T := size src in
  let D := (ncols src %/ 2)%N in
  T0 <~ gets self_T ;;
  (if T != T0 then construct_weight_matrix T D else ret tt) ;;;
  b <~ gets base ;;
  optimum_mix <~ lift (predict (px b) src) ;;
  set_E (Arr2 (zeros2 T (2 * D))) ;;;
  for_ (iota 0 T) (fun t =>
    m <~ lift (getitem optimum_mix t) ;;
    x <~ lift (getitem src t) ;;
    e <~ lift (conditional_mean b m x) ;;
    E <~ get_E2 ;;
    E' <~ lift (setrow E t e) ;;
    set_E (Arr2 E')) ;;;
  E <~ get_E2 ;;
  set_E (Arr1 (flatten E)) ;;;
  set_D (Arr3 (zeros3 T (2 * D) (2 * D))) ;;;
  for_ (iota 0 T) (fun t =>
    m <~ lift (getitem optimum_mix t) ;;
    d <~ lift (residual (covarXX b) (covarXY b) (covarYX b) (covarYY b) m) ;;
    D_ <~ get_D3 ;;
    D_ <~ lift (setslice D_ t d) ;;
    set_D (Arr3 D_) ;;;
    D_ <~ get_D3 ;;
    slot <~ lift (getitem D_ t) ;;
    inv <~ lift (linalg_inv slot) ;;
    D_ <~ lift (setslice D_ t inv) ;;
    set_D (Arr3 D_)) ;;;
  D_ <~ get_D3 ;;
  set_D (Arr2 (block_diag D_)) ;;;
  W <~ get_W ;;
  P <~ get_D2 ;;
  PW <~ lift (dot22 P W) ;;
  covar <~ lift (dot22 (transpose W) PW) ;;
  E <~ get_E1 ;;
  PE <~ lift (dot21 P E) ;;
  rhs <~ lift (dot21 (transpose W) PE) ;;
  y <~ lift (spsolve covar rhs) ;;
  lift (reshape T D y).

(** [TrajectoryGMMMap.__gv_grad(self, y)], eq. (55). *)
Definition gv_grad (y : mat) : M TrajectoryGMMMap mat :=
  let T := size y in
  let D := ncols y in
  let gv := var0 y in
  let y_mean := mean0 y in
  fun self =>
    (foldM (fun t (v : mat) =>
              P <-- getattr (Pv self) ;;
              gm <-- getattr (gv_mean self) ;;
              d <-- vsub gv gm ;;
              pd <-- dot21 (transpose P) d ;;
              yt <-- getitem y t ;;
              dy <-- vsub yt y_mean ;;
              g <-- vmul (vscale (- 2 / T%:R) pd) dy ;;
              setrow v t g)
           (iota 0 T) (zeros2 T D), self).

(** One pass of the loop of [convert_with_gv], eq. (57). *)
Definition gv_step (T D : nat) (omega learning_rate : R) (y : mat)
  : M TrajectoryGMMMap mat :=
  W <~ get_W ;;
  P <~ get_D2 ;;
  Wy <~ lift (dot21 W (flatten y)) ;;
  PWy <~ lift (dot21 P Wy) ;;
  WtPWy <~ lift (dot21 (transpose W) PWy) ;;
  E <~ get_E1 ;;
  PE <~ lift (dot21 P E) ;;
  WtPE <~ lift (dot21 (transpose W) PE) ;;
  grad_y <~ lift (vadd [seq - x | x <- WtPWy] WtPE) ;;
  g <~ gv_grad y ;;
  grad <~ lift (vadd (vscale omega grad_y) (flatten g)) ;;
  grad2 <~ lift (reshape T D grad) ;;
  lift (madd y (mscale learning_rate grad2)).

Fixpoint iterate (n : nat) (step : mat -> M TrajectoryGMMMap mat) (y : mat)
  : M TrajectoryGMMMap mat :=
  match n with
  | 0%N => ret y
  | n'.+1 => y' <~ step y ;; iterate n' step y'
  end.

(** [TrajectoryGMMMap.convert_with_gv(self, src, epoches, learning_rate)]. *)
Definition convert_with_gv (src : mat) (epoches : nat) (learning_rate : R)
  : M TrajectoryGMMMap mat :=
  y <~ convert src ;;
  let T := size y in
  let D := ncols y in
  let omega := 1 / (2 * T%:R) in
  iterate epoches (gv_step T D omega learning_rate) y.

(** ** The statements of the specification

    Arrays are rectangular, which [seq] does not enforce: the inputs of
    the theorems are restricted to such values. *)

(** A mixture of [K] components over joint vectors of width [n]. *)
Definition fitted (K n : nat) (g : GMM) : bool :=
  [&& rect K n (means_ g), size (covars_ g) == K,
      all (rect n n) (covars_ g), size (weights_ g) == K,
      all (fun w : R => 0 <= w) (weights_ g) &
      \sum_(w <- weights_ g) w == 1].

(** A sequence of [T] frames of width [w]. *)
Definition frames (T w : nat) (src : mat) : bool := rect T w src.

(** The consistency operator as the specification describes it: in
    row-block [t] the static rows hold the identity at column-block [t],
    the delta rows hold [-1/2] times the identity at column-block [t - 1]
    when there is one and [1/2] times the identity at column-block
    [t + 1] when there is one. *)
Definition static_row (T D t r : nat) : vec :=
  mkseq (fun c => (c == t * D + r)%N%:R) (D * T).

Definition delta_row (T D t r : nat) : vec :=
  mkseq (fun c =>
           if (1 <= t)%N && (c == (t - 1) * D + r)%N then - 2^-1
           else if (t + 1 < T)%N && (c == (t + 1) * D + r)%N then 2^-1
           else 0)
        (D * T).

Definition weight_block (T D t : nat) : mat :=
  mkseq (static_row T D t) D ++ mkseq (delta_row T D t) D.

Definition weight_matrix (T D : nat) : mat :=
  flatten [seq weight_block T D t | t <- iota 0 T].

(** Component [k] of a stack of [D] by [D] matrices, and row [k] of a
    matrix of width [D], as a matrix and as a column. *)
Definition blk (D : nat) (c : ten) (k : nat) : 'M[R]_D :=
  mx_of D D (nth [::] c k).

Definition col (D : nat) (a : mat) (k : nat) : 'cV[R]_D :=
  cv_of D (nth [::] a k).

(** The blocks of component [k] of an instance split at width [D]. *)
Definition Sxx (D : nat) (b : GMMMap) := blk D (covarXX b).
Definition Sxy (D : nat) (b : GMMMap) := blk D (covarXY b).
Definition Syx (D : nat) (b : GMMMap) := blk D (covarYX b).
Definition Syy (D : nat) (b : GMMMap) := blk D (covarYY b).
Definition mu_x (D : nat) (b : GMMMap) := col D (src_means b).
Definition mu_y (D : nat) (b : GMMMap) := col D (tgt_means b).

(** The conditional mean [mu_y + Syx Sxx^-1 (x - mu_x)] of component [k]
    and its residual covariance [Syy - Syx Sxx^-1 Sxy]. *)
Definition regression (D : nat) (b : GMMMap) (k : nat) (x : vec) : 'cV[R]_D :=
  mu_y D b k + Syx D b k *m invmx (Sxx D b k) *m (cv_of D x - mu_x D b k).

Definition schur (D : nat) (b : GMMMap) (k : nat) : 'M[R]_D :=
  Syy D b k - Syx D b k *m invmx (Sxx D b k) *m Sxy D b k.

(** The shapes of the attributes that the constructor splits off a
    mixture of [K] components of joint width [D + D]. *)
Definition stack (K D : nat) (c : ten) : bool :=
  (size c == K) && all (rect D D) c.

Definition split_of (K D : nat) (b : GMMMap) : bool :=
  [&& num_mixtures b == K, size (weights b) == K,
      rect K D (src_means b), rect K D (tgt_means b),
      stack K D (covarXX b), stack K D (covarXY b),
      stack K D (covarYX b), stack K D (covarYY b) &
      (means_ (px b) == src_means b) && (covars_ (px b) == covarXX b)
      && (weights_ (px b) == weights b)].

(** [numpy.dot] on arrays whose shapes fit. *)
Definition vdot (a : mat) (v : vec) : vec := [seq dot_vv r v | r <- a].

Definition mdot (a b : mat) : mat :=
  [seq [seq dot_vv r c | c <- transpose b] | r <- a].

(** The mixture whose posteriors [predict_proba] computes for frames of
    the width of the means: the covariance of each component is the one
    that has been factored, which is the covariance itself when it is
    positive definite.  The mixtures for which [predict_proba] returns. *)
Definition density_model (g : GMM) : GMM :=
  {| means_ := means_ g;
     covars_ := [seq if factored (ncols (means_ g)) cv is Ok c then c else cv
                | cv <- covars_ g];
     weights_ := weights_ g |}.

Definition admissible (g : GMM) : bool :=
  all (fun cv => if factored (ncols (means_ g)) cv is Ok _ then true
                 else false)
      (covars_ g).

(** The component that [predict] selects for a row of posteriors. *)
Definition argmax_row (r : vec) : nat :=
  if r is x :: s then argmax_from x 0%N 1%N s else 0%N.

Definition mix (b : GMMMap) (src : mat) : seq nat :=
  [seq argmax_row (responsibilities (density_model (px b)) x) | x <- src].

(** The conditional mean of frame [t] under its selected component, and
    the inverse of the residual covariance of that component. *)
Definition conditional (n : nat) (b : GMMMap) (ks : seq nat) (src : mat)
    (t : nat) : vec :=
  of_cv (regression n b (nth 0%N ks t) (nth [::] src t)).

Definition precision (n : nat) (b : GMMMap) (ks : seq nat) (t : nat) : mat :=
  of_mx (invmx (schur n b (nth 0%N ks t))).

(** [E] and [P] of eq. (39) for [T] frames. *)
Definition stacked_means (n : nat) (b : GMMMap) (ks : seq nat) (src : mat)
    (T : nat) : vec :=
  flatten (mkseq (conditional n b ks src) T).

Definition stacked_precisions (n : nat) (b : GMMMap) (ks : seq nat) (T : nat)
  : mat :=
  block_diag (mkseq (precision n b ks) T).

(** The two sides of the linear system of eq. (39), and its solution. *)
Definition system_matrix (W P : mat) : mat := mdot (transpose W) (mdot P W).

Definition system_rhs (W P : mat) (E : vec) : vec :=
  vdot (transpose W) (vdot P E).

Definition solution (A : mat) (b : vec) : vec :=
  of_cv (invmx (mx_of (size A) (size A) A) *m cv_of (size A) b).

(** An instance of the trajectory class for [K] components and static
    width [D]: its attributes are split at width [2 D] and its attribute
    [W] holds a consistency operator of width [D]. *)
Definition ready (K D : nat) (self : TrajectoryGMMMap) : Prop :=
  split_of K (2 * D) (base self)
  /\ exists T1, self_W self = Some (weight_matrix T1 D).

(** The attributes that [GMMMap.__init__] splits off the mixture, the
    attribute [D] apart. *)
Definition split_params (b : GMMMap) :=
  (num_mixtures b, weights b, src_means b, tgt_means b,
   (covarXX b, covarXY b, covarYX b, covarYY b), px b).

(** A computation that keeps a property of the instance, whatever its
    outcome. *)
Definition preserves {S A : Type} (P : S -> Prop) (c : M S A) : Prop :=
  forall s, P s -> P (c s).2.

(** The shape of an array as numpy reports it. *)
Definition ndshape (a : ndarray) : seq nat :=
  match a with
  | Arr1 v => [:: size v]
  | Arr2 a => [:: size a; ncols a]
  | Arr3 a => [:: size a; size (head [::] a); ncols (head [::] a)]
  end.

(** The instance that [GMMMap.__init__] builds from a mixture of joint
    width [n + n] without [swap], with [D_] for the attribute [D]; the
    residual covariances of its [K] components; all its blocks [Sxx]
    being regular. *)
Definition split_at (n : nat) (gmm : GMM) (D_ : ndarray) : GMMMap :=
  let src := [seq take n r | r <- means_ gmm] in
  let xx := [seq [seq take n r | r <- take n c] | c <- covars_ gmm] in
  {| num_mixtures := size (means_ gmm); weights := weights_ gmm;
     src_means := src; tgt_means := [seq drop n r | r <- means_ gmm];
     covarXX := xx;
     covarXY := [seq [seq drop n r | r <- take n c] | c <- covars_ gmm];
     covarYX := [seq [seq take n r | r <- drop n c] | c <- covars_ gmm];
     covarYY := [seq [seq drop n r | r <- drop n c] | c <- covars_ gmm];
     self_D := D_;
     px := {| means_ := src; covars_ := xx; weights_ := weights_ gmm |} |}.

Definition residuals (K n : nat) (b : GMMMap) : ten :=
  mkseq (fun k => of_mx (schur n b k)) K.

Definition regular (K n : nat) (b : GMMMap) : bool :=
  all (fun k => Sxx n b k \in unitmx) (iota 0 K).

(** The mixture of one standard normal component of width [n]. *)
Definition standard (n : nat) : GMM :=
  {| means_ := [:: zeros1 n]; covars_ := [:: eye n]; weights_ := [:: 1] |}.

(** What [TrajectoryGMMMap.convert] does to an instance [self] on the
    frames [src] of static width [D]: the instance after the test of the
    cached length, the operator [W] that the call uses, the conditions
    under which it returns, its value and the instance that it leaves. *)
Definition rebuilt (T D : nat) (self : TrajectoryGMMMap) : TrajectoryGMMMap :=
  if T != self_T self then (set_W (weight_matrix T D) self).2 else self.

Definition operator_of (T D : nat) (self : TrajectoryGMMMap) : mat :=
  odflt [::] (self_W (rebuilt T D self)).

Definition sources_regular (D : nat) (b : GMMMap) (src : mat) : bool :=
  all (fun t => Sxx (2 * D) b (nth 0%N (mix b src) t) \in unitmx)
      (iota 0 (size src)).

Definition residuals_regular (D : nat) (b : GMMMap) (src : mat) : bool :=
  all (fun t => schur (2 * D) b (nth 0%N (mix b src) t) \in unitmx)
      (iota 0 (size src)).

Definition means_of (D : nat) (b : GMMMap) (src : mat) : vec :=
  stacked_means (2 * D) b (mix b src) src (size src).

Definition precisions_of (D : nat) (b : GMMMap) (src : mat) : mat :=
  stacked_precisions (2 * D) b (mix b src) (size src).

Definition system_of (D : nat) (self : TrajectoryGMMMap) (src : mat) : mat :=
  system_matrix (operator_of (size src) D self)
                (precisions_of D (base self) src).

Definition rhs_of (D : nat) (self : TrajectoryGMMMap) (src : mat) : vec :=
  system_rhs (operator_of (size src) D self) (precisions_of D (base self) src)
             (means_of D (base self) src).

Definition solvable (D : nat) (self : TrajectoryGMMMap) (src : mat) : bool :=
  let A := system_of D self src in
  [&& admissible (px (base self)), sources_regular D (base self) src,
      residuals_regular D (base self) src,
      size (operator_of (size src) D self) == (2 * D * size src)%N
    & mx_of (size A) (size A) A \in unitmx].

Definition trajectory (D : nat) (self : TrajectoryGMMMap) (src : mat) : mat :=
  let y := solution (system_of D self src) (rhs_of D self src) in
  mkseq (fun i => take D (drop (i * D) y)) (size src).

Definition converted (D : nat) (self : TrajectoryGMMMap) (src : mat)
  : TrajectoryGMMMap :=
  (set_D (Arr2 (precisions_of D (base self) src))
     (set_E (Arr1 (means_of D (base self) src))
        (rebuilt (size src) D self)).2).2.

(** A result that is not the exception [AttributeError], and a
    computation that, from an instance with [I], does not raise
    [AttributeError] and, when it returns, leaves an instance with [J]. *)
Definition noattr {A : Type} (r : res A) : bool :=
  if r is Raise AttributeError then false else true.

Definition safe {S A : Type} (I : S -> Prop) (c : M S A) (J : S -> Prop)
  : Prop :=
  forall s, I s -> noattr (c s).1 /\ (forall a, (c s).1 = Ok a -> J (c s).2).

(** The attributes that the gradient steps read are assigned. *)
Definition with_gv (s : TrajectoryGMMMap) : bool :=
  [&& self_W s, gv_mean s & Pv s].

Definition with_E (s : TrajectoryGMMMap) : bool := with_gv s && self_E s.

(** Two instances for the standard mixture: the frame-wise one of width 1
    and the trajectory-wise one of static width 1 for one frame, as the
    constructors build them; one frame for the latter. *)
Definition unit_map : GMMMap :=
  split_at 1 (standard 2)
    (Arr3 (residuals 1 1 (split_at 1 (standard 2) (Arr3 [::])))).

Definition unit_model : TrajectoryGMMMap :=
  mkTrajectoryGMMMap
    (split_at 2 (standard 4)
       (Arr3 (residuals 1 2 (split_at 2 (standard 4) (Arr3 [::])))))
    1 (Some (weight_matrix 1 1)) None None None None.

Definition unit_frames : mat := [:: [:: 0; 0]].

(** A density that is constant, in place of the normal density where the
    value of the density does not matter. *)
Definition flat (mu : vec) (sigma : mat) (x : vec) : R := 1.

Definition two_frames : mat := [:: [:: 0; 0]; [:: 0; 0]].

(** Further instances for the standard mixture of joint width 4: the one
    that the constructor builds for one frame and the standard model of
    the global variance of width 1, and the one that it builds for two
    frames.  A mixture of two standard components of joint width 2 with
    the weights 1/3 and 2/3. *)
Definition gv_model : TrajectoryGMMMap :=
  mkTrajectoryGMMMap (base unit_model) 1 (Some (weight_matrix 1 1)) None
    (Some (zeros1 1)) (Some (eye 1)) (Some (eye 1)).

Definition pair_model : TrajectoryGMMMap :=
  mkTrajectoryGMMMap (base unit_model) 2 (Some (weight_matrix 2 1)) None
    None None None.

Definition pair_mixture : GMM :=
  {| means_ := [:: zeros1 2; zeros1 2]; covars_ := [:: eye 2; eye 2];
     weights_ := [:: 3%:R^-1; 2%:R / 3%:R] |}.

(** [cv + min_covar * np.eye(n)] for a covariance of [n] rows and
    columns. *)
Definition jitter (n : nat) (cv : mat) : mat :=
  mkseq (fun i =>
           mkseq (fun j => nth 0 (nth [::] cv i) j
                           + (if i == j then min_covar else 0)) n) n.

(** A mixture of one component of joint width 4 whose first variance is
    negative, and the instance that the constructor builds from it for
    one frame.  The instance of the frame-wise class for the mixture of
    two components. *)
Definition indefinite : GMM :=
  {| means_ := [:: zeros1 4]; covars_ := [:: diags [:: -1; 1; 1; 1]];
     weights_ := [:: 1] |}.

Definition indefinite_model : TrajectoryGMMMap :=
  mkTrajectoryGMMMap
    (split_at 2 indefinite
       (Arr3 (residuals 1 2 (split_at 2 indefinite (Arr3 [::])))))
    1 (Some (weight_matrix 1 1)) None None None None.

Definition pair_map : GMMMap :=
  split_at 1 pair_mixture
    (Arr3 (residuals 2 1 (split_at 1 pair_mixture (Arr3 [::])))).

(** * Properties *)

(** ** Results and computations *)

Lemma rbind_ok (A B : Type) (c : res A) (k : A -> res B) b :
  rbind c k = Ok b -> exists2 a, c = Ok a & k a = Ok b.
Proof. by case: c => [a|e] //= H; exists a. Qed.

Lemma bind_ok (S A B : Type) (c : M S A) (k : A -> M S B) s b s' :
  bind c k s = (Ok b, s') ->
  exists a s1, c s = (Ok a, s1) /\ k a s1 = (Ok b, s').
Proof.
rewrite /bind; case: (c s) => [[a|e] s1] //= H.
by exists a, s1.
Qed.

Lemma bind_lift (S A B : Type) (r : res A) (k : A -> M S B) s :
  bind (lift r) k s = match r with Ok a => k a s | Raise e => (Raise e, s) end.
Proof. by rewrite /bind /lift; case: r. Qed.

Lemma getitem_nth (A : Type) (x0 : A) (s : seq A) i :
  (i < size s)%N -> getitem s i = Ok (nth x0 s i).
Proof. by move=> lt_i; rewrite /getitem (drop_nth x0 lt_i). Qed.

Lemma getitem_ok (A : Type) (x0 : A) (s : seq A) i x :
  getitem s i = Ok x -> (i < size s)%N /\ x = nth x0 s i.
Proof.
case: (ltnP i (size s)) => [lt_i|le_i].
  by rewrite (getitem_nth x0 lt_i) => -[<-].
by rewrite /getitem drop_oversize.
Qed.

Lemma getitem_over (A : Type) (s : seq A) i :
  (size s <= i)%N -> getitem s i = Raise IndexError.
Proof. by move=> le_i; rewrite /getitem drop_oversize. Qed.

(** ** Shapes *)

Lemma rectP m n (a : mat) :
  reflect (size a = m /\ forall i, (i < m)%N -> size (nth [::] a i) = n)
          (rect m n a).
Proof.
apply: (iffP andP) => [[/eqP sz_a /all_nthP row_a]|[sz_a row_a]].
  by split=> // i lt_i; apply/eqP/row_a; rewrite sz_a.
split; first exact/eqP.
by apply/(all_nthP [::]) => i; rewrite sz_a => /row_a ->.
Qed.

Lemma rect_ncols m n (a : mat) : rect m.+1 n a -> ncols a = n.
Proof. by case/rectP=> _ /(_ 0%N (ltn0Sn m)); rewrite /ncols -nth0. Qed.

Lemma rect0 n : rect 0 n [::].
Proof. by []. Qed.

Lemma rect_size m n (a : mat) : rect m n a -> size a = m.
Proof. by case/rectP. Qed.

Lemma rect_row m n (a : mat) i :
  rect m n a -> (i < m)%N -> size (nth [::] a i) = n.
Proof. by case/rectP=> _; apply. Qed.

Lemma rect_mkseq m n (f : nat -> vec) :
  (forall i, (i < m)%N -> size (f i) = n) -> rect m n (mkseq f m).
Proof.
move=> sz_f; apply/rectP; rewrite size_mkseq; split=> // i lt_i.
by rewrite nth_mkseq // sz_f.
Qed.

Lemma rect_zeros2 m n : rect m n (zeros2 m n).
Proof.
apply/rectP; rewrite size_nseq; split=> // i lt_i.
by rewrite nth_nseq lt_i size_nseq.
Qed.

Lemma rect_cat m1 m2 n (a b : mat) :
  rect m1 n a -> rect m2 n b -> rect (m1 + m2) n (a ++ b).
Proof.
case/andP=> /eqP sz_a all_a /andP[/eqP sz_b all_b].
by rewrite /rect size_cat sz_a sz_b eqxx all_cat all_a.
Qed.

(** Arithmetic on [nat]: from ssrnat's boolean comparisons to [lia]. *)
Ltac coq_nat_ops H := rewrite -?plusE -?multE -?minusE in H.

Ltac to_coq_nat :=
  repeat match goal with
  | H : is_true (leq _ _) |- _ => move/ssrnat.leP: H => H; coq_nat_ops H
  | H : is_true (@eq_op nat _ _) |- _ => move/eqP: H => H; coq_nat_ops H
  | H : is_true (~~ leq _ _) |- _ => move/ssrnat.leP: H => H; coq_nat_ops H
  | H : is_true (~~ (@eq_op nat _ _)) |- _ => move/eqP: H => H; coq_nat_ops H
  | H : leq _ _ = true |- _ => move/ssrnat.leP: H => H; coq_nat_ops H
  | H : leq _ _ = false |- _ => move/ssrnat.leP: H => H; coq_nat_ops H
  | H : @eq_op nat _ _ = true |- _ => move/eqP: H => H; coq_nat_ops H
  | H : @eq_op nat _ _ = false |- _ => move/eqP: H => H; coq_nat_ops H
  | H : @eq ?T ?a ?b |- _ =>
      first
        [ lazymatch T with
          | nat => fail
          | _ => unify T nat; change (@eq nat a b) in H
          end
        | match type of H with
          | context [addn] => rewrite -!plusE in H
          | context [muln] => rewrite -!multE in H
          | context [subn] => rewrite -!minusE in H
          end ]
  end.

Ltac nat_lia :=
  to_coq_nat;
  match goal with
  | |- is_true (leq _ _) => apply/ssrnat.leP
  | |- is_true (@eq_op nat _ _) => apply/eqP
  | |- is_true (~~ leq _ _) => apply/ssrnat.leP
  | |- is_true (~~ (@eq_op nat _ _)) => apply/eqP
  | |- leq _ _ = false => apply/ssrnat.leP
  | |- @eq_op nat _ _ = false => apply/eqP
  | |- @eq ?T ?a ?b => unify T nat; change (@eq nat a b)
  | |- _ => idtac
  end;
  rewrite -?plusE -?multE -?minusE;
  lia.

Lemma mkseq_ext (A : Type) (f g : nat -> A) n :
  (forall i, (i < n)%N -> f i = g i) -> mkseq f n = mkseq g n.
Proof.
move=> fg; apply/eq_in_map => i; rewrite mem_iota add0n => /andP[_ lt_i].
exact: fg.
Qed.

(** ** The consistency operator *)

Lemma size_diags (v : vec) : size (diags v) = size v.
Proof. by rewrite size_mkseq. Qed.

Lemma rect_diags (v : vec) : rect (size v) (size v) (diags v).
Proof. by apply: rect_mkseq => i _; rewrite size_mkseq. Qed.

Lemma nth_diags (v : vec) i j :
  (i < size v)%N -> (j < size v)%N ->
  nth 0 (nth [::] (diags v) i) j = if i == j then nth 0 v i else 0.
Proof. by move=> lt_i lt_j; rewrite /diags !nth_mkseq. Qed.

(** The assignment to a block of [D] columns of a matrix of [D] rows. *)
Lemma setcols_ok (w b : mat) D n c0 :
  rect D n w -> rect D D b -> (c0 + D <= n)%N ->
  setcols w c0 (c0 + D) b
  = Ok (mkseq (fun r => mkseq (fun c =>
          if (c0 <= c < c0 + D)%N then nth 0 (nth [::] b r) (c - c0)
          else nth 0 (nth [::] w r) c) n) D).
Proof.
move=> rect_w rect_b le_n; rewrite /setcols.
have sz_w := rect_size rect_w; have sz_b := rect_size rect_b.
rewrite sz_b sz_w eqxx /=.
case: D => [|D] in rect_w rect_b le_n sz_w sz_b *.
  by move/size0nil: sz_w => ->; move/size0nil: sz_b => ->.
rewrite (rect_ncols rect_w) (minn_idPl le_n) addKn rect_b.
congr Ok; apply: (@eq_from_nth _ [::]).
  by rewrite size_map size_zip sz_w sz_b minnn size_mkseq.
move=> r; rewrite size_map size_zip sz_w sz_b minnn => lt_r.
rewrite (nth_map ([::], [::])) ?size_zip ?sz_w ?sz_b ?minnn //.
rewrite nth_zip ?sz_w ?sz_b //= nth_mkseq //.
have sz_wr := rect_row rect_w lt_r; have sz_br := rect_row rect_b lt_r.
set wr := nth [::] w r in sz_wr *; set br := nth [::] b r in sz_br *.
have sz_tk : size (take c0 wr) = c0.
  by rewrite size_takel // sz_wr; nat_lia.
apply: (@eq_from_nth _ 0).
  rewrite !size_cat sz_tk sz_br size_drop sz_wr size_mkseq; nat_lia.
move=> c; rewrite !size_cat sz_tk sz_br size_drop sz_wr => lt_c.
have {}lt_c : (c < n)%N by nat_lia.
rewrite nth_mkseq // nth_cat sz_tk.
case: (ltnP c c0) => [lt_c0|le_c0] /=; first by rewrite nth_take.
rewrite nth_cat sz_br.
case: (ltnP (c - c0) D.+1) => [lt_cD|le_cD].
  by have -> : (c < c0 + D.+1)%N by nat_lia.
have -> : (c < c0 + D.+1)%N = false by apply/negbTE; rewrite -leqNgt; nat_lia.
by rewrite nth_drop; congr nth; nat_lia.
Qed.

Lemma nth_zeros2 m n i j : nth 0 (nth [::] (zeros2 m n) i) j = 0 :> R.
Proof.
rewrite /zeros2 nth_nseq; case: ifP => _; last by rewrite nth_nil.
by rewrite nth_nseq if_same.
Qed.

Lemma nth_mkseq2 (f : nat -> nat -> R) m n i j :
  (i < m)%N -> (j < n)%N ->
  nth 0 (nth [::] (mkseq (fun r => mkseq (f r) n) m) i) j = f i j.
Proof. by move=> lt_i lt_j; rewrite !nth_mkseq. Qed.

Lemma rect_ncols_pos m n (a : mat) : rect m n a -> (0 < m)%N -> ncols a = n.
Proof. by case: m => // m /rect_ncols. Qed.

Lemma rect_nil n (a : mat) : rect 0 n a -> a = [::].
Proof. by move/rect_size/size0nil. Qed.

Lemma rect_ncols_eq m n (a b : mat) : rect m n a -> rect m n b -> ncols a = ncols b.
Proof.
case: m => [|m] rect_a rect_b; first by rewrite (rect_nil rect_a) (rect_nil rect_b).
by rewrite (rect_ncols rect_a) (rect_ncols rect_b).
Qed.

(** A scaled identity written over a block of zeros. *)
Lemma setcols_scalar (w : mat) D n c0 c1 (a : R) :
  rect D n w -> c1 = (c0 + D)%N -> (c1 <= n)%N ->
  (forall r c, (r < D)%N -> (c0 <= c < c1)%N -> nth 0 (nth [::] w r) c = 0) ->
  setcols w c0 c1 (diags (nseq D a))
  = Ok (mkseq (fun r => mkseq (fun c =>
          if c == (c0 + r)%N then a else nth 0 (nth [::] w r) c) n) D).
Proof.
move=> rect_w -> le_n w0.
have rect_d : rect D D (diags (nseq D a)).
  by have := rect_diags (nseq D a); rewrite size_nseq.
rewrite (setcols_ok rect_w rect_d le_n); congr Ok.
apply: mkseq_ext => r lt_r; apply: mkseq_ext => c lt_c.
case: ifP => [/andP[le_c lt_cD]|out].
  have lt_cc : (c - c0 < D)%N by nat_lia.
  rewrite nth_diags; rewrite ?size_nseq //.
  rewrite nth_nseq lt_r.
  have -> : (r == c - c0)%N = (c == c0 + r)%N.
    by apply/eqP/eqP => E; nat_lia.
  by case: ifP => // _; rewrite w0 // le_c lt_cD.
case: ifP => // /eqP eq_c; move: out; rewrite eq_c leq_addr ltn_add2l lt_r.
by [].
Qed.

Lemma size_static_row T D t r : size (static_row T D t r) = (D * T)%N.
Proof. by rewrite size_mkseq. Qed.

Lemma size_delta_row T D t r : size (delta_row T D t r) = (D * T)%N.
Proof. by rewrite size_mkseq. Qed.

Lemma rect_weight_block T D t : rect (D + D) (D * T) (weight_block T D t).
Proof.
by apply: rect_cat; apply: rect_mkseq => r _; rewrite size_mkseq.
Qed.

Lemma block_le T D t : (t < T)%N -> (t * D + D <= D * T)%N.
Proof. by move=> lt_t; rewrite addnC -mulSn mulnC leq_mul2l lt_t orbT. Qed.

Lemma succ_block D t : ((t + 1) * D = t * D + D)%N.
Proof. by rewrite addn1 mulSn addnC. Qed.

Lemma succ2_block D t : ((t + 2) * D = (t + 1) * D + D)%N.
Proof. by rewrite addn2 addn1 mulSn addnC. Qed.

Lemma pred_block D t : (1 <= t)%N -> ((t - 1) * D + D = t * D)%N.
Proof. by case: t => // t _; rewrite subn1 /= mulSn addnC. Qed.

Lemma static_block T D t :
  (t < T)%N ->
  setcols (zeros2 D (D * T)) (t * D) ((t + 1) * D) (diags (nseq D 1))
  = Ok (mkseq (static_row T D t) D).
Proof.
move=> lt_t.
rewrite (@setcols_scalar _ D (D * T)) ?rect_zeros2 ?succ_block ?block_le //.
  by move=> r c _ _; rewrite nth_zeros2.
congr Ok; apply: mkseq_ext => r lt_r; apply: mkseq_ext => c lt_c.
by rewrite nth_zeros2; case: eqP.
Qed.

Lemma delta_block T D t :
  (t < T)%N ->
  (w1 <-- (if (1 <= t)%N
           then setcols (zeros2 D (D * T)) ((t - 1) * D) (t * D)
                  (diags (nseq D (- 2^-1)))
           else Ok (zeros2 D (D * T))) ;;
   if (t + 1 < T)%N
   then setcols w1 ((t + 1) * D) ((t + 2) * D) (diags (nseq D 2^-1))
   else Ok w1)
  = Ok (mkseq (delta_row T D t) D).
Proof.
move=> lt_t.
pose w1 : mat := mkseq (fun r => mkseq (fun c =>
  if (1 <= t)%N && (c == (t - 1) * D + r)%N then - 2^-1 else 0) (D * T)) D.
have rect_w1 : rect D (D * T) w1.
  by apply: rect_mkseq => r _; rewrite size_mkseq.
have -> : (if (1 <= t)%N
           then setcols (zeros2 D (D * T)) ((t - 1) * D) (t * D)
                  (diags (nseq D (- 2^-1)))
           else Ok (zeros2 D (D * T))) = Ok w1.
  case: ifP => [le_t|ge_t]; last first.
    congr Ok; apply: (@eq_from_nth _ [::]); rewrite ?size_nseq ?size_mkseq //.
    move=> r lt_r; rewrite nth_nseq lt_r nth_mkseq //.
    apply: (@eq_from_nth _ 0); rewrite ?size_nseq ?size_mkseq //.
    by move=> c lt_c; rewrite /zeros1 nth_nseq lt_c nth_mkseq // ge_t.
  rewrite (@setcols_scalar _ D (D * T)) ?rect_zeros2 ?pred_block //.
  - by rewrite mulnC leq_mul2l (ltnW lt_t) orbT.
  - by move=> *; rewrite nth_zeros2.
  - congr Ok; apply: mkseq_ext => r lt_r; apply: mkseq_ext => c lt_c.
    by rewrite nth_zeros2 le_t.
have le_tD : (t * D <= (t + 1) * D)%N by rewrite leq_mul2r leq_addr orbT.
rewrite /=; case: ifP => [lt_t1|ge_t1]; last first.
  congr Ok; apply: mkseq_ext => r lt_r; apply: mkseq_ext => c lt_c.
  by rewrite ge_t1.
have le_n : ((t + 1) * D + D <= D * T)%N by apply: block_le.
rewrite (@setcols_scalar _ D (D * T)) ?succ2_block //.
  move=> r c lt_r /andP[le_c lt_c].
  have lt_cn : (c < D * T)%N by apply: leq_trans lt_c le_n.
  rewrite /w1 nth_mkseq2 //; case: ifP => // /andP[le_t /eqP eq_c].
  by have := pred_block D le_t => E; nat_lia.
congr Ok; apply: mkseq_ext => r lt_r; apply: mkseq_ext => c lt_c.
rewrite /w1 nth_mkseq2 // lt_t1 /=.
case: (c =P ((t + 1) * D + r)%N) => [eq_c2|_]; case: ifP => //.
case/andP=> le_t /eqP eq_c.
by have := pred_block D le_t => E; nat_lia.
Qed.

Lemma bind_lift_rbind (S A B C : Type) (r : res A) (f : A -> res B)
    (k : B -> M S C) (s : S) :
  bind (lift r) (fun a => bind (lift (f a)) k) s = bind (lift (rbind r f)) k s.
Proof. by rewrite /bind /lift; case: r. Qed.

Lemma weight_prefixS T D t :
  flatten [seq weight_block T D k | k <- iota 0 t.+1]
  = flatten [seq weight_block T D k | k <- iota 0 t] ++ weight_block T D t.
Proof. by rewrite -addn1 iotaD add0n map_cat flatten_cat /= cats0. Qed.

Lemma rect_weight_prefix T D t :
  rect (t * (D + D)) (D * T) (flatten [seq weight_block T D k | k <- iota 0 t]).
Proof.
elim: t => [|t IH] //; rewrite weight_prefixS mulSn addnC.
exact: rect_cat IH (rect_weight_block T D t).
Qed.

Lemma size_weight_matrix T D : size (weight_matrix T D) = (2 * D * T)%N.
Proof.
by rewrite (rect_size (rect_weight_prefix T D T)) addnn -mul2n mulnC.
Qed.

Lemma rect_weight_matrix T D : rect (2 * D * T) (D * T) (weight_matrix T D).
Proof.
by have := rect_weight_prefix T D T; rewrite addnn -mul2n mulnC.
Qed.

Lemma ncols_weight_prefix T D t t' :
  (0 < t)%N ->
  ncols (flatten [seq weight_block T D k | k <- iota 0 t])
  = ncols (weight_block T D t').
Proof.
case: D => [|D] t_gt0.
  rewrite (rect_nil (rect_weight_block T 0 t')).
  by have := rect_weight_prefix T 0 t; rewrite muln0 => /rect_nil ->.
have pos1 : (0 < t * (D.+1 + D.+1))%N by rewrite muln_gt0 t_gt0 addnS.
have pos2 : (0 < D.+1 + D.+1)%N by rewrite addnS.
rewrite (rect_ncols_pos (rect_weight_prefix T D.+1 t) pos1).
by rewrite (rect_ncols_pos (rect_weight_block T D.+1 t') pos2).
Qed.

Lemma ncols_weight_matrix T D :
  (0 < T)%N -> ncols (weight_matrix T D) = (D * T)%N.
Proof.
case: D => [|D] T_gt0.
  by have := rect_weight_matrix T 0; rewrite muln0 mul0n => /rect_nil ->.
have pos : (0 < 2 * D.+1 * T)%N by rewrite !muln_gt0 T_gt0.
by rewrite (rect_ncols_pos (rect_weight_matrix T D.+1) pos).
Qed.

(** The builder stores the operator of the specification. *)
Lemma construct_weight_matrix_ok T D self :
  (0 < T)%N ->
  construct_weight_matrix T D self
  = (Ok tt, (set_W (weight_matrix T D) self).2).
Proof.
move=> T_gt0; rewrite /construct_weight_matrix.
set body := (fun t : nat => _).
pose Wpre t := flatten [seq weight_block T D k | k <- iota 0 t].
have body_ok t s :
    (t < T)%N -> t = 0%N \/ self_W s = Some (Wpre t) ->
    body t s = (Ok tt, (set_W (Wpre t.+1) s).2).
  move=> lt_t pre; rewrite /body bind_lift static_block //.
  rewrite bind_lift_rbind delta_block // bind_lift /vstack.
  have -> : ncols (mkseq (static_row T D t) D)
            = ncols (mkseq (delta_row T D t) D).
    by apply: (@rect_ncols_eq D (D * T)); apply: rect_mkseq => r _;
       rewrite size_mkseq.
  rewrite eqxx -/(weight_block T D t).
  case: pre => [t0|W_s].
    by rewrite t0 /= /Wpre /= cats0.
  case: eqP => [t0|/eqP t_neq0]; first by rewrite t0 /= /Wpre /= cats0.
  rewrite bind_lift /bind /get_W W_s /= /lift.
  rewrite (@ncols_weight_prefix T D t t) ?lt0n //.
  by rewrite eqxx /Wpre weight_prefixS.
have loop n : forall a s,
    (a + n = T)%N -> a = 0%N \/ self_W s = Some (Wpre a) ->
    for_ (iota a n) body s
    = (Ok tt, if (0 < n)%N then (set_W (Wpre (a + n)%N) s).2 else s).
  elim: n => [|n IH] a s a_n pre //=.
  have lt_a : (a < T)%N by nat_lia.
  rewrite /bind (body_ok _ _ lt_a pre).
  have a_n' : (a.+1 + n = T)%N by rewrite addSnnS.
  have pre' : a.+1 = 0%N \/
      self_W (set_W (Wpre a.+1) s).2 = Some (Wpre a.+1) by right.
  rewrite (IH a.+1 (set_W (Wpre a.+1) s).2 a_n' pre').
  by case: n {IH a_n a_n'} => [|n]; rewrite ?addn1 ?addSnnS.
rewrite /bind (loop T 0%N self (add0n T) (or_introl (erefl 0%N))).
rewrite T_gt0 add0n /get_W /= /lift /ret /shape /Wpre -/(weight_matrix T D).
by rewrite size_weight_matrix ncols_weight_matrix // eqxx.
Qed.

Lemma nth_flatten_blocks (A : Type) (x0 : A) m (ss : seq (seq A)) t i :
  all (fun b => size b == m) ss -> (i < m)%N ->
  nth x0 (flatten ss) (t * m + i) = nth x0 (nth [::] ss t) i.
Proof.
elim: ss t => [|b ss IH] t /=; first by rewrite !nth_nil.
case/andP=> /eqP sz_b all_ss lt_i; rewrite nth_cat sz_b.
case: t => [|t]; first by rewrite mul0n add0n lt_i.
rewrite mulSn -addnA ltnNge leq_addr /= addKn.
exact: IH.
Qed.

Lemma nth_weight_matrix T D t i :
  (t < T)%N -> (i < D + D)%N ->
  nth [::] (weight_matrix T D) (2 * D * t + i) = nth [::] (weight_block T D t) i.
Proof.
move=> lt_t lt_i.
have -> : (2 * D * t = t * (D + D))%N by rewrite addnn -mul2n mulnC.
rewrite (@nth_flatten_blocks _ _ (D + D)) //.
  apply/allP => b /mapP[k _ ->].
  by rewrite (rect_size (rect_weight_block T D k)).
by rewrite (nth_map 0%N) ?size_iota // nth_iota.
Qed.

(** The operator of three frames of two coefficients. *)
Lemma weight_matrix_3_2 :
  weight_matrix 3 2 =
  [:: [:: 1; 0; 0; 0; 0; 0];
      [:: 0; 1; 0; 0; 0; 0];
      [:: 0; 0; 2^-1; 0; 0; 0];
      [:: 0; 0; 0; 2^-1; 0; 0];
      [:: 0; 0; 1; 0; 0; 0];
      [:: 0; 0; 0; 1; 0; 0];
      [:: - 2^-1; 0; 0; 0; 2^-1; 0];
      [:: 0; - 2^-1; 0; 0; 0; 2^-1];
      [:: 0; 0; 0; 0; 1; 0];
      [:: 0; 0; 0; 0; 0; 1];
      [:: 0; 0; - 2^-1; 0; 0; 0];
      [:: 0; 0; 0; - 2^-1; 0; 0]] :> mat.
Proof. by []. Qed.

(** C3.  For [T >= 1] and [D >= 1] the builder succeeds and stores a
    matrix [W] of shape [(2 D T, D T)]; in row-block [t] the static row
    [r] is the row [t D + r] of the identity, and the delta row [r] holds
    [-1/2] in column [(t - 1) D + r] when [t >= 1], [1/2] in column
    [(t + 1) D + r] when [t + 1 < T], and zero elsewhere.  For [T = 3] and
    [D = 2] the matrix is the 12 by 6 matrix whose delta part has only
    [1/2] in row-block 0 and only [-1/2] in row-block 2. *)
Theorem consistency_operator_structure T D self :
  (1 <= T)%N -> (1 <= D)%N ->
  exists W : mat,
    [/\ construct_weight_matrix T D self = (Ok tt, (set_W W self).2),
        shape W = ((2 * D * T)%N, (D * T)%N),
        forall t r c, (t < T)%N -> (r < D)%N -> (c < D * T)%N ->
          nth 0 (nth [::] W (2 * D * t + r)) c = (c == t * D + r)%N%:R
          /\ nth 0 (nth [::] W (2 * D * t + D + r)) c
             = (if (1 <= t)%N && (c == (t - 1) * D + r)%N then - 2^-1
                else if (t + 1 < T)%N && (c == (t + 1) * D + r)%N then 2^-1
                else 0)
      & (T = 3%N -> D = 2%N ->
         shape W = (12%N, 6%N) /\
         W = [:: [:: 1; 0; 0; 0; 0; 0];
                 [:: 0; 1; 0; 0; 0; 0];
                 [:: 0; 0; 2^-1; 0; 0; 0];
                 [:: 0; 0; 0; 2^-1; 0; 0];
                 [:: 0; 0; 1; 0; 0; 0];
                 [:: 0; 0; 0; 1; 0; 0];
                 [:: - 2^-1; 0; 0; 0; 2^-1; 0];
                 [:: 0; - 2^-1; 0; 0; 0; 2^-1];
                 [:: 0; 0; 0; 0; 1; 0];
                 [:: 0; 0; 0; 0; 0; 1];
                 [:: 0; 0; - 2^-1; 0; 0; 0];
                 [:: 0; 0; 0; - 2^-1; 0; 0]])].
Proof.
move=> T_gt0 D_gt0; exists (weight_matrix T D); split.
- exact: construct_weight_matrix_ok.
- by rewrite /shape size_weight_matrix ncols_weight_matrix.
- move=> t r c lt_t lt_r lt_c; split.
    have lt_r2 : (r < D + D)%N by rewrite ltn_addr.
    rewrite (nth_weight_matrix lt_t lt_r2).
    by rewrite /weight_block nth_cat size_mkseq lt_r nth_mkseq // nth_mkseq.
  have lt_Dr : (D + r < D + D)%N by rewrite ltn_add2l.
  rewrite -addnA (nth_weight_matrix lt_t lt_Dr).
  rewrite /weight_block nth_cat size_mkseq ltnNge leq_addr /= addKn.
  by rewrite nth_mkseq // nth_mkseq.
- by move=> -> ->; rewrite weight_matrix_3_2.
Qed.

(** ** Arrays and matrices *)

Lemma size_of_cv n (x : 'cV[R]_n) : size (of_cv x) = n.
Proof. by rewrite size_map size_enum_ord. Qed.

Lemma nth_of_cv n (x : 'cV[R]_n) (i : 'I_n) : nth 0 (of_cv x) i = x i ord0.
Proof. by rewrite (nth_map i) ?size_enum_ord // nth_ord_enum. Qed.

Lemma of_cvK n (x : 'cV[R]_n) : cv_of n (of_cv x) = x.
Proof. by apply/colP => i; rewrite mxE nth_of_cv. Qed.


Lemma size_of_mx m n (A : 'M[R]_(m, n)) : size (of_mx A) = m.
Proof. by rewrite size_map size_enum_ord. Qed.

Lemma nth_of_mx m n (A : 'M[R]_(m, n)) (i : 'I_m) :
  nth [::] (of_mx A) i = [seq A i j | j <- enum 'I_n].
Proof. by rewrite (nth_map i) ?size_enum_ord // nth_ord_enum. Qed.

Lemma nth2_of_mx m n (A : 'M[R]_(m, n)) (i : 'I_m) (j : 'I_n) :
  nth 0 (nth [::] (of_mx A) i) j = A i j.
Proof. by rewrite nth_of_mx (nth_map j) ?size_enum_ord // nth_ord_enum. Qed.

Lemma rect_of_mx m n (A : 'M[R]_(m, n)) : rect m n (of_mx A).
Proof.
apply/rectP; rewrite size_of_mx; split=> // i lt_i.
by rewrite -[i]/(val (Ordinal lt_i)) nth_of_mx size_map size_enum_ord.
Qed.

Lemma of_mxK m n (A : 'M[R]_(m, n)) : mx_of m n (of_mx A) = A.
Proof. by apply/matrixP => i j; rewrite mxE nth2_of_mx. Qed.

Lemma mx_ofK m n (a : mat) : rect m n a -> of_mx (mx_of m n a) = a.
Proof.
move=> rect_a; apply: (@eq_from_nth _ [::]).
  by rewrite size_of_mx (rect_size rect_a).
move=> i; rewrite size_of_mx => lt_i.
apply: (@eq_from_nth _ 0).
  by rewrite (rect_row (rect_of_mx _)) // (rect_row rect_a).
move=> j; rewrite (rect_row (rect_of_mx _)) // => lt_j.
by rewrite -[i]/(val (Ordinal lt_i)) -[j]/(val (Ordinal lt_j)) nth2_of_mx mxE.
Qed.

Lemma dot_vvE n (u v : vec) :
  size u = n -> size v = n ->
  dot_vv u v = \sum_(j < n) nth 0 u j * nth 0 v j.
Proof.
move=> sz_u sz_v; rewrite /dot_vv (big_nth (0, 0)) size_zip sz_u sz_v minnn.
rewrite big_mkord; apply: eq_bigr => j _.
by rewrite nth_zip ?sz_u ?sz_v.
Qed.

(** [dot] is the product of matrices. *)
Lemma dot21_mx m n (a : mat) (v : vec) :
  rect m n a -> size v = n ->
  dot21 a v = Ok (of_cv (mx_of m n a *m cv_of n v)).
Proof.
move=> rect_a sz_v; rewrite /dot21.
have -> : all (fun r : vec => size r == size v) a.
  by case/andP: rect_a => _; rewrite sz_v.
congr Ok; apply: (@eq_from_nth _ 0).
  by rewrite size_map size_of_cv (rect_size rect_a).
move=> i; rewrite size_map (rect_size rect_a) => lt_i.
rewrite (nth_map [::]) ?(rect_size rect_a) //.
rewrite (@dot_vvE n) ?(rect_row rect_a) //.
rewrite -[i in RHS]/(val (Ordinal lt_i)) nth_of_cv mxE.
by apply: eq_bigr => j _; rewrite !mxE.
Qed.

Lemma dot21_ok (a : mat) (v u : vec) :
  dot21 a v = Ok u -> rect (size a) (size v) a /\ size u = size a.
Proof.
rewrite /dot21; case: ifP => // all_a [<-].
by rewrite /rect eqxx all_a size_map.
Qed.

Lemma size_transpose (a : mat) : size (transpose a) = ncols a.
Proof. by rewrite size_mkseq. Qed.

Lemma rect_transpose (a : mat) : rect (ncols a) (size a) (transpose a).
Proof. by apply: rect_mkseq => j _; rewrite size_map. Qed.

Lemma mx_of_transpose m n (a : mat) :
  rect m n a -> (0 < m)%N -> mx_of n m (transpose a) = (mx_of m n a)^T.
Proof.
move=> rect_a m_gt0; apply/matrixP => j i; rewrite !mxE.
rewrite /transpose (rect_ncols_pos rect_a m_gt0) nth_mkseq //.
by rewrite (nth_map [::]) // (rect_size rect_a).
Qed.

Lemma dot22_mx m n (a b : mat) :
  rect m n a -> rect n (ncols b) b ->
  dot22 a b = Ok (of_mx (mx_of m n a *m mx_of n (ncols b) b)).
Proof.
move=> rect_a rect_b; rewrite /dot22.
have -> : all (fun r : vec => size r == size b) a.
  by case/andP: rect_a => _; rewrite (rect_size rect_b).
congr Ok; apply: (@eq_from_nth _ [::]).
  by rewrite size_map size_of_mx (rect_size rect_a).
move=> i; rewrite size_map (rect_size rect_a) => lt_i.
rewrite (nth_map [::]) ?(rect_size rect_a) //.
apply: (@eq_from_nth _ 0).
  by rewrite size_map size_transpose (rect_row (rect_of_mx _)).
move=> j; rewrite size_map size_transpose => lt_j.
rewrite (nth_map [::]) ?size_transpose //.
rewrite -[i in RHS]/(val (Ordinal lt_i)) -[j in RHS]/(val (Ordinal lt_j)).
rewrite nth2_of_mx mxE /transpose nth_mkseq //.
rewrite (@dot_vvE n) ?(rect_row rect_a) ?size_map ?(rect_size rect_b) //.
apply: eq_bigr => k _; rewrite !mxE /=; congr (_ * _).
by rewrite (nth_map [::]) // (rect_size rect_b).
Qed.

Lemma dot22_ok (a b c : mat) :
  dot22 a b = Ok c ->
  rect (size a) (size b) a /\ rect (size a) (ncols b) c.
Proof.
rewrite /dot22; case: ifP => // all_a [<-].
rewrite {1}/rect eqxx all_a; split=> //.
apply/rectP; rewrite size_map; split=> // i lt_i.
by rewrite (nth_map [::]) // size_map size_transpose.
Qed.

(** ** Loops and frames *)

Lemma bind_eval (S A B : Type) (c : M S A) (k : A -> M S B) s a s1 :
  c s = (Ok a, s1) -> bind c k s = k a s1.
Proof. by rewrite /bind => ->. Qed.

Lemma bind_raise (S A B : Type) (c : M S A) (k : A -> M S B) s e s1 :
  c s = (Raise e, s1) -> bind c k s = (Raise e, s1).
Proof. by rewrite /bind => ->. Qed.

Lemma foldM_iota_cond (A : Type) (body : nat -> A -> res A)
    (c : nat -> bool) (f : nat -> A) (e : exn) n :
  (forall i, (i < n)%N ->
     body i (f i) = if c i then Ok (f i.+1) else Raise e) ->
  foldM body (iota 0 n) (f 0%N)
  = if all c (iota 0 n) then Ok (f n) else Raise e.
Proof.
move=> step.
have: forall i, (0 <= i < 0 + n)%N ->
        body i (f i) = if c i then Ok (f i.+1) else Raise e.
  by move=> i /andP[_]; rewrite add0n; apply: step.
rewrite -[f n]/(f (0 + n)%N).
move: 0%N => m; elim: n m {step} => [|n IH] m step /=.
  by rewrite addn0.
have in_m : (m <= m < m + n.+1)%N by rewrite leqnn addnS ltnS leq_addr.
rewrite (step m in_m).
case: (c m) => //=; rewrite addnS -addSn; apply: IH => i /andP[lt_i le_i].
by apply: step; rewrite (ltnW lt_i) /= addnS -addSn.
Qed.

Lemma for_iota_cond (S : Type) (body : nat -> M S unit)
    (c : nat -> bool) (f : nat -> S) n :
  (forall i, (i < n)%N ->
     if c i then body i (f i) = (Ok tt, f i.+1)
     else exists e s', body i (f i) = (Raise e, s')) ->
  if all c (iota 0 n) then for_ (iota 0 n) body (f 0%N) = (Ok tt, f n)
  else exists e s', for_ (iota 0 n) body (f 0%N) = (Raise e, s').
Proof.
move=> step.
have: forall i, (0 <= i < 0 + n)%N ->
        if c i then body i (f i) = (Ok tt, f i.+1)
        else exists e s', body i (f i) = (Raise e, s').
  by move=> i /andP[_]; rewrite add0n; apply: step.
rewrite -[f n]/(f (0 + n)%N).
move: 0%N => m; elim: n m {step} => [|n IH] m step /=.
  by rewrite addn0.
have in_m : (m <= m < m + n.+1)%N by rewrite leqnn addnS ltnS leq_addr.
have := step m in_m.
case: (c m) => /= [eq_m|[e [s' eq_m]]]; last first.
  by exists e, s'; rewrite (bind_raise _ eq_m).
have {}IH := IH m.+1; rewrite addnS -addSn.
have step' : forall i, (m < i < m.+1 + n)%N ->
    if c i then body i (f i) = (Ok tt, f i.+1)
    else exists e s', body i (f i) = (Raise e, s').
  move=> i /andP[lt_i le_i].
  by apply: step; rewrite (ltnW lt_i) /= addnS -addSn.
have := IH step'; case: (all c _) => [eq_r|[e [s' eq_r]]].
  by rewrite (bind_eval _ eq_m).
by exists e, s'; rewrite (bind_eval _ eq_m).
Qed.

Lemma preserves_ret (S A : Type) (P : S -> Prop) (a : A) :
  preserves P (@ret S A a).
Proof. by []. Qed.

Lemma preserves_lift (S A : Type) (P : S -> Prop) (r : res A) :
  preserves P (@lift S A r).
Proof. by []. Qed.

Lemma preserves_gets (S A : Type) (P : S -> Prop) (f : S -> A) :
  preserves P (gets f).
Proof. by []. Qed.

Lemma preserves_modify (S : Type) (P : S -> Prop) (f : S -> S) :
  (forall s, P s -> P (f s)) -> preserves P (modify f).
Proof. by move=> Pf s; apply: Pf. Qed.

Lemma preserves_bind (S A B : Type) (P : S -> Prop) (c : M S A)
    (k : A -> M S B) :
  preserves P c -> (forall a, preserves P (k a)) -> preserves P (bind c k).
Proof.
move=> Pc Pk s Ps; rewrite /bind.
by case E: (c s) (Pc s Ps) => [[a|e] s1] //= Ps1; apply: Pk.
Qed.

Lemma preserves_for (S I : Type) (P : S -> Prop) (rng : seq I)
    (body : I -> M S unit) :
  (forall i, preserves P (body i)) -> preserves P (for_ rng body).
Proof.
move=> Pb; elim: rng => [|i rng IH]; first exact: preserves_ret.
by apply: preserves_bind => // _.
Qed.

Lemma preserves_if (S A : Type) (P : S -> Prop) (b : bool) (c1 c2 : M S A) :
  preserves P c1 -> preserves P c2 -> preserves P (if b then c1 else c2).
Proof. by case: b. Qed.

(** ** Operations on arrays whose shapes fit *)

Lemma bnth_nth (v : vec) i : (i < size v)%N -> bnth v i = nth 0 v i.
Proof. by rewrite /bnth; case: eqP => // ->; case: i. Qed.

Lemma brow_nth (a : mat) i : (i < size a)%N -> brow a i = nth [::] a i.
Proof. by rewrite /brow; case: eqP => // ->; case: i. Qed.

Lemma mkseq_bnth (v : vec) : mkseq (bnth v) (size v) = v.
Proof.
apply: (@eq_from_nth _ 0); rewrite size_mkseq // => i lt_i.
by rewrite nth_mkseq // bnth_nth.
Qed.

Lemma mkseq_brow m n (a : mat) :
  rect m n a -> mkseq (fun i => mkseq (bnth (brow a i)) n) m = a.
Proof.
move=> rect_a; apply: (@eq_from_nth _ [::]).
  by rewrite size_mkseq (rect_size rect_a).
move=> i; rewrite size_mkseq => lt_i.
have sz_r := rect_row rect_a lt_i.
by rewrite nth_mkseq // brow_nth ?(rect_size rect_a) // -sz_r mkseq_bnth.
Qed.

Lemma bcast1_same (op : R -> R -> R) (u v : vec) :
  size u = size v ->
  bcast1 op u v = Ok (mkseq (fun i => op (nth 0 u i) (nth 0 v i)) (size v)).
Proof.
move=> sz; rewrite /bcast1 /bdim sz eqxx; congr Ok.
by apply: mkseq_ext => i lt_i; rewrite !bnth_nth ?sz.
Qed.

Lemma vsub_cv n (u v : vec) :
  size u = n -> size v = n -> vsub u v = Ok (of_cv (cv_of n u - cv_of n v)).
Proof.
move=> sz_u sz_v; rewrite /vsub bcast1_same ?sz_u ?sz_v //; congr Ok.
apply: (@eq_from_nth _ 0); first by rewrite size_mkseq size_of_cv.
move=> i; rewrite size_mkseq => lt_i; rewrite nth_mkseq //.
by rewrite -[i in RHS]/(val (Ordinal lt_i)) nth_of_cv !mxE.
Qed.

Lemma vadd_cv n (u v : vec) :
  size u = n -> size v = n -> vadd u v = Ok (of_cv (cv_of n u + cv_of n v)).
Proof.
move=> sz_u sz_v; rewrite /vadd bcast1_same ?sz_u ?sz_v //; congr Ok.
apply: (@eq_from_nth _ 0); first by rewrite size_mkseq size_of_cv.
move=> i; rewrite size_mkseq => lt_i; rewrite nth_mkseq //.
by rewrite -[i in RHS]/(val (Ordinal lt_i)) nth_of_cv !mxE.
Qed.

Lemma bcast2_same (op : R -> R -> R) m n (a b : mat) :
  rect m n a -> rect m n b ->
  bcast2 op a b
  = Ok (mkseq (fun i => mkseq (fun j =>
          op (nth 0 (nth [::] a i) j) (nth 0 (nth [::] b i) j)) n) m).
Proof.
move=> rect_a rect_b; rewrite /bcast2 (rect_size rect_a) (rect_size rect_b).
rewrite /bdim eqxx (rect_ncols_eq rect_a rect_b) eqxx; congr Ok.
apply: mkseq_ext => i lt_i.
have m_gt0 : (0 < m)%N by exact: leq_ltn_trans lt_i.
rewrite (rect_ncols_pos rect_b m_gt0); apply: mkseq_ext => j lt_j.
rewrite !brow_nth ?(rect_size rect_a) ?(rect_size rect_b) //.
by rewrite !bnth_nth ?(rect_row rect_a) ?(rect_row rect_b).
Qed.

Lemma msub_mx m n (a b : mat) :
  rect m n a -> rect m n b ->
  msub a b = Ok (of_mx (mx_of m n a - mx_of m n b)).
Proof.
move=> rect_a rect_b; rewrite /msub (bcast2_same _ rect_a rect_b); congr Ok.
apply: (@eq_from_nth _ [::]); first by rewrite size_mkseq size_of_mx.
move=> i; rewrite size_mkseq => lt_i; rewrite nth_mkseq //.
apply: (@eq_from_nth _ 0).
  by rewrite size_mkseq (rect_row (rect_of_mx _)).
move=> j; rewrite size_mkseq => lt_j; rewrite nth_mkseq //.
rewrite -[i in RHS]/(val (Ordinal lt_i)) -[j in RHS]/(val (Ordinal lt_j)).
by rewrite nth2_of_mx !mxE.
Qed.

Lemma setrow_same (E : mat) m (v : vec) :
  (m < size E)%N -> size v = size (nth [::] E m) ->
  setrow E m v = Ok (set_nth [::] E m v).
Proof.
move=> lt_m sz_v; rewrite /setrow (getitem_nth [::] lt_m) /=.
by rewrite -sz_v eqxx /= mkseq_bnth.
Qed.

Lemma setslice_same (D_ : ten) m (d : mat) r c :
  (m < size D_)%N -> rect r c (nth [::] D_ m) -> rect r c d ->
  setslice D_ m d = Ok (set_nth [::] D_ m d).
Proof.
move=> lt_m rect_s rect_d; rewrite /setslice (getitem_nth [::] lt_m) /=.
rewrite (rect_size rect_d) (rect_size rect_s) eqxx /=.
rewrite (rect_ncols_eq rect_d rect_s) eqxx /=; congr Ok; congr set_nth.
case: r => [|r] in rect_s rect_d *; first by rewrite (rect_nil rect_d).
by rewrite (rect_ncols rect_s) (mkseq_brow rect_d).
Qed.

(** ** Linear systems *)

Lemma linalg_solve1_mx n (a : mat) (b : vec) :
  rect n n a -> size b = n ->
  linalg_solve1 a b
  = if mx_of n n a \in unitmx
    then Ok (of_cv (invmx (mx_of n n a) *m cv_of n b))
    else Raise LinAlgError.
Proof.
by move=> rect_a sz_b; rewrite /linalg_solve1 (rect_size rect_a) rect_a sz_b eqxx.
Qed.

Lemma linalg_solve2_mx n p (a b : mat) :
  rect n n a -> rect n p b -> (0 < n)%N ->
  linalg_solve2 a b
  = if mx_of n n a \in unitmx
    then Ok (of_mx (invmx (mx_of n n a) *m mx_of n p b))
    else Raise LinAlgError.
Proof.
move=> rect_a rect_b n_gt0; rewrite /linalg_solve2 (rect_size rect_a) rect_a.
by rewrite (rect_ncols_pos rect_b n_gt0) rect_b.
Qed.

Lemma linalg_inv_mx n (a : mat) :
  rect n n a ->
  linalg_inv a
  = if mx_of n n a \in unitmx then Ok (of_mx (invmx (mx_of n n a)))
    else Raise LinAlgError.
Proof. by move=> rect_a; rewrite /linalg_inv (rect_size rect_a) rect_a. Qed.

Lemma spsolve_mx (A : mat) (b : vec) :
  rect (size A) (size A) A -> size b = size A ->
  spsolve A b
  = if mx_of (size A) (size A) A \in unitmx then Ok (solution A b)
    else Raise MatrixRankWarning.
Proof. by move=> rect_A sz_b; rewrite /spsolve rect_A sz_b eqxx. Qed.

Lemma size_solution (A : mat) (b : vec) : size (solution A b) = size A.
Proof. by rewrite size_of_cv. Qed.


(** ** Reshaping *)

Lemma flatten_chunks (v : vec) n t :
  flatten (mkseq (fun i => take n (drop (i * n) v)) t) = take (t * n) v.
Proof.
elim: t => [|t IH]; first by rewrite mul0n take0.
rewrite /mkseq -addn1 iotaD add0n map_cat flatten_cat /= cats0.
by rewrite -/(mkseq _ t) IH addn1 mulSn addnC takeD.
Qed.

Lemma reshape_ok m n (v : vec) :
  size v = (m * n)%N ->
  reshape m n v = Ok (mkseq (fun i => take n (drop (i * n) v)) m).
Proof. by move=> sz_v; rewrite /reshape sz_v eqxx. Qed.

Lemma reshape_rect m n (v : vec) (y : mat) :
  reshape m n v = Ok y -> rect m n y /\ flatten y = v.
Proof.
rewrite /reshape; case: eqP => // sz_v [<-]; split; last first.
  by rewrite flatten_chunks -sz_v take_size.
apply: rect_mkseq => i lt_i; rewrite size_takel // size_drop sz_v.
by rewrite -mulnBl leq_pmull // subn_gt0.
Qed.

Lemma dot22_mxp m n p (a b : mat) :
  rect m n a -> rect n p b -> (0 < n)%N ->
  dot22 a b = Ok (of_mx (mx_of m n a *m mx_of n p b)).
Proof.
move=> rect_a rect_b n_gt0.
have eq_p := rect_ncols_pos rect_b n_gt0.
by rewrite (@dot22_mx m n) // eq_p.
Qed.

(** ** The split attributes *)

Lemma stack_size K n (c : ten) : stack K n c -> size c = K.
Proof. by case/andP=> /eqP. Qed.

Lemma stack_nth K n (c : ten) k :
  stack K n c -> (k < K)%N -> rect n n (nth [::] c k).
Proof.
by case/andP=> /eqP sz_c /all_nthP rect_c lt_k; apply: rect_c; rewrite sz_c.
Qed.

Lemma split_ofP K n (b : GMMMap) :
  split_of K n b ->
  [/\ num_mixtures b = K, size (weights b) = K,
      rect K n (src_means b) /\ rect K n (tgt_means b),
      [/\ stack K n (covarXX b), stack K n (covarXY b),
          stack K n (covarYX b) & stack K n (covarYY b)]
    & px b = mkGMM (src_means b) (covarXX b) (weights b)].
Proof.
case/and5P=> /eqP nm /eqP sz_w r_s r_t /and5P[s_xx s_xy s_yx s_yy].
case/andP=> /andP[/eqP e_m /eqP e_c] /eqP e_w; split=> //.
by case: (px b) e_m e_c e_w => m c w /= -> -> ->.
Qed.

Lemma residual_mx K n (XX XY YX YY : ten) k :
  stack K n XX -> stack K n XY -> stack K n YX -> stack K n YY ->
  (0 < n)%N -> (k < K)%N ->
  residual XX XY YX YY k
  = if blk n XX k \in unitmx
    then Ok (of_mx (blk n YY k - blk n YX k *m invmx (blk n XX k) *m blk n XY k))
    else Raise LinAlgError.
Proof.
move=> s_xx s_xy s_yx s_yy n_gt0 lt_k; rewrite /residual.
rewrite !(getitem_nth [::]) ?(stack_size s_xx) ?(stack_size s_xy)
  ?(stack_size s_yy) ?(stack_size s_yx) //=.
rewrite (linalg_solve2_mx (stack_nth s_xx lt_k) (stack_nth s_xy lt_k)) //.
rewrite -/(blk n XX k) -/(blk n XY k); case: ifP => //= _.
rewrite (dot22_mxp (stack_nth s_yx lt_k) (rect_of_mx _)) //= of_mxK.
rewrite (msub_mx (stack_nth s_yy lt_k) (rect_of_mx _)) of_mxK.
by rewrite -/(blk n YY k) -/(blk n YX k) mulmxA.
Qed.

Lemma residual_schur K n (b : GMMMap) k :
  split_of K n b -> (0 < n)%N -> (k < K)%N ->
  residual (covarXX b) (covarXY b) (covarYX b) (covarYY b) k
  = if Sxx n b k \in unitmx then Ok (of_mx (schur n b k))
    else Raise LinAlgError.
Proof.
case/split_ofP=> _ _ _ [s_xx s_xy s_yx s_yy] _ n_gt0 lt_k.
exact: (residual_mx s_xx s_xy s_yx s_yy).
Qed.

Lemma conditional_mean_mx K n (b : GMMMap) k (x : vec) :
  split_of K n b -> (k < K)%N -> size x = n ->
  conditional_mean b k x
  = if Sxx n b k \in unitmx then Ok (of_cv (regression n b k x))
    else Raise LinAlgError.
Proof.
case/split_ofP=> _ _ [r_s r_t] [s_xx _ s_yx _] _ lt_k sz_x.
rewrite /conditional_mean.
rewrite !(getitem_nth [::]) ?(stack_size s_xx) ?(rect_size r_s)
  ?(stack_size s_yx) ?(rect_size r_t) //=.
rewrite (@vsub_cv n) ?(rect_row r_s) //=.
rewrite (linalg_solve1_mx (stack_nth s_xx lt_k)) ?size_of_cv // of_cvK.
rewrite -/(blk n (covarXX b) k) -/(Sxx n b k); case: ifP => //= _.
rewrite (dot21_mx (stack_nth s_yx lt_k)) ?size_of_cv //= of_cvK.
rewrite (@vadd_cv n) ?(rect_row r_t) ?size_of_cv // of_cvK.
by rewrite /regression mulmxA.
Qed.

Lemma rect_map m p q (g : vec -> vec) (a : mat) :
  rect m p a -> (forall r, size r = p -> size (g r) = q) ->
  rect m q [seq g r | r <- a].
Proof.
case/andP=> /eqP sz_a /allP row_a sz_g.
rewrite /rect size_map sz_a eqxx /= all_map.
by apply/allP=> r /row_a /= /eqP /sz_g ->.
Qed.

Lemma rect_take m p m' (a : mat) :
  rect m p a -> (m' <= m)%N -> rect m' p (take m' a).
Proof.
case/andP=> /eqP sz_a /allP row_a le_m.
rewrite /rect size_takel ?sz_a // eqxx /=.
by apply/allP=> r /mem_take /row_a.
Qed.

Lemma rect_drop m p m' (a : mat) : rect m p a -> rect (m - m') p (drop m' a).
Proof.
case/andP=> /eqP sz_a /allP row_a.
rewrite /rect size_drop sz_a eqxx /=.
by apply/allP=> r /mem_drop /row_a.
Qed.

Lemma size_take_half n (r : vec) : size r = (n + n)%N -> size (take n r) = n.
Proof. by move=> sz_r; rewrite size_takel // sz_r leq_addr. Qed.

Lemma size_drop_half n (r : vec) : size r = (n + n)%N -> size (drop n r) = n.
Proof. by move=> sz_r; rewrite size_drop sz_r addnK. Qed.

Lemma fittedP K n (g : GMM) :
  fitted K n g ->
  [/\ rect K n (means_ g),
      size (covars_ g) = K /\ (forall c, c \in covars_ g -> rect n n c),
      size (weights_ g) = K,
      (forall w, w \in weights_ g -> 0 <= w)
    & \sum_(w <- weights_ g) w = 1].
Proof.
case/and5P=> r_m /eqP sz_c /allP r_c /eqP sz_w /andP[/allP w_ge0 /eqP w_1].
by split.
Qed.

Lemma split_of_split_at K n (gmm : GMM) (D_ : ndarray) :
  fitted K (n + n) gmm -> split_of K n (split_at n gmm D_).
Proof.
case/fittedP=> r_m [sz_c r_c] sz_w _ _.
have blocks (f : mat -> mat) :
    (forall c, rect (n + n) (n + n) c -> rect n n (f c)) ->
    stack K n [seq f c | c <- covars_ gmm].
  move=> rect_f; rewrite /stack size_map sz_c eqxx /= all_map.
  by apply/allP=> c /r_c /rect_f.
have le_n : (n <= n + n)%N by rewrite leq_addr.
have tk (c : mat) : rect (n + n) (n + n) c -> rect n (n + n) (take n c).
  by move=> rect_c; apply: rect_take rect_c le_n.
have dr (c : mat) : rect (n + n) (n + n) c -> rect n (n + n) (drop n c).
  by move=> rect_c; have := @rect_drop _ _ n _ rect_c; rewrite addnK.
have s_xx := blocks (fun c => [seq take n r | r <- take n c])
               (fun c rect_c => rect_map (tk c rect_c) (@size_take_half n)).
have s_xy := blocks (fun c => [seq drop n r | r <- take n c])
               (fun c rect_c => rect_map (tk c rect_c) (@size_drop_half n)).
have s_yx := blocks (fun c => [seq take n r | r <- drop n c])
               (fun c rect_c => rect_map (dr c rect_c) (@size_take_half n)).
have s_yy := blocks (fun c => [seq drop n r | r <- drop n c])
               (fun c rect_c => rect_map (dr c rect_c) (@size_drop_half n)).
rewrite /split_of /= (rect_size r_m) sz_w !eqxx /=.
rewrite (rect_map r_m (@size_take_half n)) (rect_map r_m (@size_drop_half n)).
by rewrite s_xx s_xy s_yx s_yy.
Qed.

Lemma half_joint n : ((n + n) %/ 2)%N = n.
Proof. by rewrite addnn -muln2 mulnK. Qed.

(** [GMMMap.__init__] without [swap]: it builds the split instance with
    the residual covariances, or raises at the first singular [Sxx]. *)
Lemma GMMMap_init_mx K n (gmm : GMM) :
  fitted K (n + n) gmm -> (0 < K)%N -> (0 < n)%N ->
  let b0 := split_at n gmm (Arr3 [::]) in
  GMMMap_init gmm false
  = if regular K n b0 then Ok (split_at n gmm (Arr3 (residuals K n b0)))
    else Raise LinAlgError.
Proof.
move=> fit K_gt0 n_gt0 b0.
have sp0 : split_of K n b0 := split_of_split_at _ fit.
case/fittedP: (fit) => r_m _ _ _ _.
rewrite /GMMMap_init (rect_size r_m) (rect_ncols_pos r_m K_gt0) half_joint /=.
pose f t :=
  mkseq (fun k => if (k < t)%N then of_mx (schur n b0 k) else zeros2 n n) K.
have sz_f t : size (f t) = K by rewrite size_mkseq.
have nth_f t j : (j < K)%N ->
    nth [::] (f t) j = if (j < t)%N then of_mx (schur n b0 j) else zeros2 n n.
  by move=> lt_j; rewrite nth_mkseq.
have -> : zeros3 K n n = f 0%N.
  apply: (@eq_from_nth _ [::]); rewrite size_nseq ?sz_f // => i lt_i.
  by rewrite nth_nseq lt_i nth_f.
set body := (X in foldM X).
have step i : (i < K)%N ->
    body i (f i) = if Sxx n b0 i \in unitmx then Ok (f i.+1)
                   else Raise LinAlgError.
  move=> lt_i.
  rewrite -[LHS]/(rbind (residual (covarXX b0) (covarXY b0) (covarYX b0)
                           (covarYY b0) i) (fun d => setslice (f i) i d)).
  rewrite (residual_schur sp0 n_gt0 lt_i); case: ifP => //= _.
  have rect_s : rect n n (nth [::] (f i) i).
    by rewrite nth_f // ltnn rect_zeros2.
  rewrite (setslice_same _ rect_s (rect_of_mx _)) ?sz_f //.
  congr Ok; apply: (@eq_from_nth _ [::]).
    by rewrite size_set_nth !sz_f; apply/maxn_idPr.
  move=> j; rewrite size_set_nth sz_f (maxn_idPr lt_i) => lt_j.
  rewrite nth_set_nth /= !nth_f // ltnS.
  case: eqP => [->|/eqP ne_j]; first by rewrite leqnn.
  by rewrite [(j <= i)%N]leq_eqVlt (negbTE ne_j).
rewrite (foldM_iota_cond step) -/(regular K n b0); case: ifP => //= _.
have -> : f K = residuals K n b0 by apply: mkseq_ext => k ->.
by rewrite /split_at (rect_size r_m).
Qed.

(** The residual of blocks that need not be square: [n] source columns
    and [p] target columns. *)
Lemma residual_blocks n p (XX XY YX YY : ten) k :
  [/\ (k < size XX)%N, (k < size XY)%N, (k < size YX)%N & (k < size YY)%N] ->
  rect n n (nth [::] XX k) -> rect n p (nth [::] XY k) ->
  rect p n (nth [::] YX k) -> rect p p (nth [::] YY k) -> (0 < n)%N ->
  residual XX XY YX YY k
  = if mx_of n n (nth [::] XX k) \in unitmx
    then Ok (of_mx (mx_of p p (nth [::] YY k)
                    - mx_of p n (nth [::] YX k)
                      *m (invmx (mx_of n n (nth [::] XX k))
                          *m mx_of n p (nth [::] XY k))))
    else Raise LinAlgError.
Proof.
move=> [lt_xx lt_xy lt_yx lt_yy] r_xx r_xy r_yx r_yy n_gt0; rewrite /residual.
rewrite !(getitem_nth [::]) //= (linalg_solve2_mx r_xx r_xy) //.
case: ifP => //= _.
rewrite (dot22_mxp r_yx (rect_of_mx _)) //= of_mxK.
by rewrite (msub_mx r_yy (rect_of_mx _)) of_mxK.
Qed.

Lemma setslice_misfit (D_ : ten) m (d : mat) :
  (m < size D_)%N -> size d != size (nth [::] D_ m) -> size d != 1%N ->
  setslice D_ m d = Raise ValueError.
Proof.
move=> lt_m /negbTE ne_s /negbTE ne_1.
by rewrite /setslice (getitem_nth [::] lt_m) /= ne_s ne_1.
Qed.

(** With an odd joint width the residual of the first component does not
    fit the slot of [D]. *)
Lemma GMMMap_init_odd K n (gmm : GMM) :
  fitted K (n + n).+1 gmm -> (0 < K)%N -> (0 < n)%N ->
  GMMMap_init gmm false
  = Raise (if Sxx n (split_at n gmm (Arr3 [::])) 0 \in unitmx then ValueError
           else LinAlgError).
Proof.
move=> fit K_gt0 n_gt0.
case/fittedP: (fit) => r_m [sz_c r_c] _ _ _.
have half : ((n + n).+1 %/ 2)%N = n.
  by rewrite -addn1 addnn -muln2 divnMDl // divn_small // addn0.
rewrite /GMMMap_init (rect_size r_m) (rect_ncols_pos r_m K_gt0) half /=.
case: K K_gt0 sz_c {fit r_m} => // K _ sz_c /=.
set c0 := nth [::] (covars_ gmm) 0.
have rect_c : rect (n + n).+1 (n + n).+1 c0.
  by apply/r_c/mem_nth; rewrite sz_c.
have le_n : (n <= (n + n).+1)%N by rewrite leqW // leq_addr.
have sz_tk (r : vec) : size r = (n + n).+1 -> size (take n r) = n.
  by move=> sz_r; rewrite size_takel // sz_r.
have sz_dr (r : vec) : size r = (n + n).+1 -> size (drop n r) = n.+1.
  by move=> sz_r; rewrite size_drop sz_r -addnS addKn.
have r_tk : rect n (n + n).+1 (take n c0) := rect_take rect_c le_n.
have r_dr : rect n.+1 (n + n).+1 (drop n c0).
  by have := @rect_drop _ _ n _ rect_c; rewrite -addnS addKn.
have nth_c (f : mat -> mat) :
    nth [::] [seq f c | c <- covars_ gmm] 0 = f c0.
  by rewrite (nth_map [::]) // sz_c.
rewrite (@residual_blocks n n.+1) ?size_map ?sz_c ?nth_c //;
  try by [apply: rect_map r_tk _ | apply: rect_map r_dr _].
rewrite /Sxx /blk /= nth_c; case: ifP => //= _.
rewrite setslice_misfit //= ?size_of_mx ?size_nseq.
  by rewrite neq_ltn ltnSn orbT.
by rewrite eqSS -lt0n.
Qed.

(** ** The blocks of the constructor *)

(** The four blocks of a component are the quadrants of its covariance. *)
Lemma quadrants n (c : mat) (i j : 'I_n) :
  rect (n + n) (n + n) c ->
  [/\ mx_of n n [seq take n r | r <- take n c] i j = nth 0 (nth [::] c i) j,
      mx_of n n [seq drop n r | r <- take n c] i j
      = nth 0 (nth [::] c i) (n + j),
      mx_of n n [seq take n r | r <- drop n c] i j
      = nth 0 (nth [::] c (n + i)) j
    & mx_of n n [seq drop n r | r <- drop n c] i j
      = nth 0 (nth [::] c (n + i)) (n + j)].
Proof.
move=> rect_c; have sz_c := rect_size rect_c.
have sz_tk : size (take n c) = n by rewrite size_takel // sz_c leq_addr.
have sz_dr : size (drop n c) = n by rewrite size_drop sz_c addnK.
by split; rewrite mxE (nth_map [::]) ?sz_tk ?sz_dr // ?nth_take ?nth_drop.
Qed.

Lemma nth_eye n i j :
  (i < n)%N -> (j < n)%N -> nth 0 (nth [::] (eye n) i) j = (i == j)%:R :> R.
Proof.
move=> lt_i lt_j; rewrite /eye nth_diags ?size_nseq // nth_nseq lt_i.
by case: eqP.
Qed.

Lemma rect_eye n : rect n n (eye n).
Proof. by have := rect_diags (nseq n 1); rewrite size_nseq. Qed.

Lemma mx_of_eye n : mx_of n n (eye n) = 1%:M.
Proof. by apply/matrixP=> i j; rewrite !mxE nth_eye. Qed.

Lemma lower_triangle_eye n : lower_triangle (eye n) = eye n.
Proof.
have sz_e : size (eye n) = n by rewrite /eye /diags size_mkseq size_nseq.
rewrite /lower_triangle sz_e; apply: (@eq_from_nth _ [::]).
  by rewrite size_mkseq sz_e.
move=> i; rewrite size_mkseq => lt_i; rewrite nth_mkseq //.
apply: (@eq_from_nth _ 0).
  by rewrite size_mkseq (rect_row (rect_eye n)).
move=> j; rewrite size_mkseq => lt_j; rewrite nth_mkseq //.
rewrite !nth_eye ?gtn_max ?gtn_min ?lt_i ?lt_j //.
have -> // : (maxn i j == minn i j) = (i == j).
by case: (ltngtP i j) => [lt_ij|gt_ij|->]; rewrite ?eqxx // ?gtn_eqF ?ltn_eqF.
Qed.

Lemma positive_definite_eye n : positive_definite (eye n).
Proof.
have sz_e : size (eye n) = n by rewrite /eye /diags size_mkseq size_nseq.
rewrite /positive_definite lower_triangle_eye sz_e.
apply/allP=> k; rewrite mem_iota add0n => /andP[_ lt_k].
have -> : mx_of k.+1 k.+1 (eye n) = 1%:M.
  apply/matrixP=> i j; rewrite !mxE nth_eye //.
    exact: leq_trans (ltn_ord i) lt_k.
  exact: leq_trans (ltn_ord j) lt_k.
by rewrite det1 ltr01.
Qed.

Lemma fitted_standard n : fitted 1 n (standard n).
Proof.
rewrite /fitted /= /rect /= size_nseq !eqxx /= andbT.
by rewrite -/(rect n n (eye n)) rect_eye ler01 big_seq1 eqxx.
Qed.

Section Standard.

Variables (n : nat) (D_ : ndarray).

Let b := split_at n (standard (n + n)) D_.

Lemma Sxx_standard : Sxx n b 0 = 1%:M.
Proof.
apply/matrixP=> i j; have [-> _ _ _] := quadrants i j (rect_eye (n + n)).
by rewrite nth_eye ?ltn_addr // !mxE.
Qed.

Lemma Sxy_standard : Sxy n b 0 = 0.
Proof.
apply/matrixP=> i j; have [_ -> _ _] := quadrants i j (rect_eye (n + n)).
rewrite nth_eye ?ltn_add2l ?ltn_addr // !mxE.
by rewrite eqn_leq [(n + j <= i)%N]leqNgt ltn_addr // andbF.
Qed.

Lemma Syx_standard : Syx n b 0 = 0.
Proof.
apply/matrixP=> i j; have [_ _ -> _] := quadrants i j (rect_eye (n + n)).
rewrite nth_eye ?ltn_add2l ?ltn_addr // !mxE.
by rewrite eqn_leq [(n + i <= j)%N]leqNgt ltn_addr.
Qed.

Lemma Syy_standard : Syy n b 0 = 1%:M.
Proof.
apply/matrixP=> i j; have [_ _ _ ->] := quadrants i j (rect_eye (n + n)).
by rewrite nth_eye ?ltn_add2l // !mxE eqn_add2l.
Qed.

Lemma mu_x_standard : mu_x n b 0 = 0.
Proof.
apply/colP=> i; rewrite !mxE /= nth_take // nth_nseq.
by case: ifP.
Qed.

Lemma mu_y_standard : mu_y n b 0 = 0.
Proof.
apply/colP=> i; rewrite !mxE /= nth_drop nth_nseq.
by case: ifP.
Qed.

Lemma covarXX_standard : covarXX b = [:: eye n].
Proof.
have sz_e m : size (eye m) = m by rewrite (rect_size (rect_eye m)).
rewrite /b /=; congr [:: _]; apply: (@eq_from_nth _ [::]).
  by rewrite size_map size_takel ?sz_e ?leq_addr.
move=> i; rewrite size_map size_takel ?sz_e ?leq_addr // => lt_i.
rewrite (nth_map [::]) ?size_takel ?sz_e ?leq_addr // nth_take //.
have lt_i2 : (i < n + n)%N by rewrite ltn_addr.
have sz_r2 : size (nth [::] (eye (n + n)) i) = (n + n)%N.
  exact: rect_row (rect_eye _) lt_i2.
have sz_r : size (nth [::] (eye n) i) = n by exact: rect_row (rect_eye _) lt_i.
apply: (@eq_from_nth _ 0); first by rewrite size_takel ?sz_r2 ?leq_addr ?sz_r.
move=> j; rewrite size_takel ?sz_r2 ?leq_addr // => lt_j.
by rewrite nth_take // !nth_eye // ltn_addr.
Qed.

Lemma positive_standard : all positive_definite (covarXX b).
Proof. by rewrite covarXX_standard /= positive_definite_eye. Qed.

Lemma regular_standard : regular 1 n b.
Proof. by rewrite /regular /= Sxx_standard unitmx1. Qed.

Lemma schur_standard : schur n b 0 = 1%:M.
Proof. by rewrite /schur Syy_standard Syx_standard !mul0mx subr0. Qed.

Lemma regression_standard (x : vec) : regression n b 0 x = 0.
Proof. by rewrite /regression mu_y_standard Syx_standard !mul0mx addr0. Qed.

End Standard.

Lemma of_cv0 n : of_cv (0 : 'cV[R]_n) = zeros1 n.
Proof.
apply: (@eq_from_nth _ 0); first by rewrite size_of_cv size_nseq.
move=> i; rewrite size_of_cv => lt_i.
rewrite -[i in LHS]/(val (Ordinal lt_i)) nth_of_cv mxE nth_nseq.
by case: ifP.
Qed.

Lemma of_mx1 n : of_mx (1%:M : 'M[R]_n) = eye n.
Proof. by rewrite -mx_of_eye mx_ofK // rect_eye. Qed.

(** ** The constructor of the trajectory class *)

Lemma TrajectoryGMMMap_init_ok (gmm : GMM) T (b : GMMMap) :
  GMMMap_init gmm false = Ok b -> (0 < T)%N ->
  TrajectoryGMMMap_init gmm T None false
  = Ok (mkTrajectoryGMMMap b T
          (Some (weight_matrix T (ncols (means_ gmm) %/ 4))) None None None
          None).
Proof.
move=> init_b T_gt0; rewrite /TrajectoryGMMMap_init init_b /=.
by rewrite (bind_eval _ (construct_weight_matrix_ok _ _ T_gt0)).
Qed.

(** ** The frame-wise conversion *)

Lemma set_nth_fill (A : Type) (x0 : A) (g z : nat -> A) K i :
  (i < K)%N ->
  set_nth x0 (mkseq (fun k => if (k < i)%N then g k else z k) K) i (g i)
  = mkseq (fun k => if (k < i.+1)%N then g k else z k) K.
Proof.
move=> lt_i; apply: (@eq_from_nth _ x0).
  by rewrite size_set_nth !size_mkseq; apply/maxn_idPr.
move=> j; rewrite size_set_nth size_mkseq (maxn_idPr lt_i) => lt_j.
rewrite nth_set_nth /= !nth_mkseq // ltnS.
case: eqP => [->|/eqP ne_j]; first by rewrite leqnn.
by rewrite [(j <= i)%N]leq_eqVlt (negbTE ne_j).
Qed.

Lemma mkseq_nseq (A : Type) (x : A) n : mkseq (fun _ => x) n = nseq n x.
Proof.
apply: (@eq_from_nth _ x); rewrite size_mkseq ?size_nseq // => i lt_i.
by rewrite nth_mkseq // nth_nseq lt_i.
Qed.

Lemma regularP K n (b : GMMMap) :
  reflect (forall k, (k < K)%N -> Sxx n b k \in unitmx) (regular K n b).
Proof.
apply: (iffP allP) => [reg k lt_k|reg k]; first by apply: reg; rewrite mem_iota.
by rewrite mem_iota add0n; apply: reg.
Qed.

Lemma conditional_means_mx K n (b : GMMMap) (x : vec) :
  split_of K n b -> size x = n ->
  conditional_means b x
  = if regular K n b then Ok (mkseq (fun k => of_cv (regression n b k x)) K)
    else Raise LinAlgError.
Proof.
move=> sp sz_x; case/split_ofP: (sp) => nm _ _ _ _.
rewrite /conditional_means nm sz_x.
pose g k := of_cv (regression n b k x).
pose f t := mkseq (fun k => if (k < t)%N then g k else zeros1 n) K.
have -> : zeros2 K n = f 0%N by rewrite /f /= mkseq_nseq.
set body := (X in foldM X).
have step i : (i < K)%N ->
    body i (f i) = if Sxx n b i \in unitmx then Ok (f i.+1)
                   else Raise LinAlgError.
  move=> lt_i; rewrite /body (conditional_mean_mx sp lt_i sz_x).
  case: ifP => //= _; rewrite setrow_same ?size_mkseq //.
    by rewrite nth_mkseq // ltnn size_nseq size_of_cv.
  have /= eq_f := @set_nth_fill _ [::] g (fun=> zeros1 n) K i lt_i.
  by rewrite -/(g i) /f eq_f.
rewrite (foldM_iota_cond step) -/(regular K n b); case: ifP => // _.
by congr Ok; apply: mkseq_ext => k ->.
Qed.

(** ** The posteriors of the source marginal *)

Lemma factored_exn n (cv : mat) e : factored n cv = Raise e -> e = ValueError.
Proof.
rewrite /factored /cholesky /madd /bcast2.
case: ifP => _ /=; first by case.
case: ifP => _ /=; first by case: ifP => // _ [].
case: bdim => [m|] /=; last by case.
case: bdim => [k|] /=; last by case.
case: ifP => _ /=; first by case.
case: ifP => _ /=; last by case.
by case: ifP => // _ [].
Qed.

Lemma factored_pd n (cv : mat) :
  rect n n cv -> positive_definite cv -> factored n cv = Ok cv.
Proof.
move=> rect_c pd_c.
by rewrite /factored /cholesky (rect_size rect_c) rect_c pd_c /= (rect_size rect_c) eqxx.
Qed.

Lemma foldM_factored n (ps : seq (vec * mat)) (acc : ten) :
  foldM (fun (p : vec * mat) (cs : ten) =>
           c <-- factored n p.2 ;; Ok (rcons cs c)) ps acc
  = if all (fun p : vec * mat =>
              if factored n p.2 is Ok _ then true else false) ps
    then Ok (acc ++ [seq if factored n p.2 is Ok c then c else p.2 | p <- ps])
    else Raise ValueError.
Proof.
elim: ps acc => [|p ps IH] acc /=; first by rewrite cats0.
case fac: (factored n p.2) => [c|e] /=; first by rewrite IH cat_rcons.
by rewrite (factored_exn fac).
Qed.

Lemma predict_proba_mx n (g : GMM) (X : mat) :
  size (covars_ g) = size (means_ g) -> ncols (means_ g) = n ->
  (0 < size X)%N -> (0 < n)%N -> rect (size X) n X ->
  predict_proba g X
  = if admissible g then Ok [seq responsibilities (density_model g) x | x <- X]
    else Raise ValueError.
Proof.
move=> sz_c nc_m T_gt0 n_gt0 rect_X; rewrite /predict_proba.
rewrite (rect_ncols_pos rect_X T_gt0) nc_m !eqn0Ngt T_gt0 n_gt0 /=.
case/andP: rect_X => _ -> /=; rewrite foldM_factored /admissible nc_m.
have eq_c : [seq p.2 | p <- zip (means_ g) (covars_ g)] = covars_ g.
  by rewrite -/(unzip2 _) unzip2_zip // sz_c.
have /= eq_all :=
  all_map (fun p : vec * mat => p.2)
    (fun cv => if factored n cv is Ok _ then true else false)
    (zip (means_ g) (covars_ g)).
have /= eq_map :=
  map_comp (fun cv => if factored n cv is Ok c then c else cv)
    (fun p : vec * mat => p.2) (zip (means_ g) (covars_ g)).
rewrite eq_c in eq_all eq_map.
rewrite -eq_all; case: ifP => //= _.
by rewrite /density_model nc_m -eq_map.
Qed.

Lemma size_responsibilities (g : GMM) (x : vec) :
  size (responsibilities g x) = size (means_ g).
Proof. by rewrite /responsibilities /weighted !size_map size_iota. Qed.

(** [GMMMap.convert]: the sum of the conditional means of the components
    weighted by their posterior probabilities, as an array of one row. *)
Lemma GMMMap_convert_mx K n (b : GMMMap) (x : vec) :
  split_of K n b -> (0 < K)%N -> (0 < n)%N -> size x = n ->
  GMMMap_convert x b
  = (if regular K n b
     then if admissible (px b)
          then Ok [:: of_cv (\sum_(k < K)
                      nth 0 (responsibilities (density_model (px b)) x) k
                      *: regression n b k x)]
          else Raise ValueError
     else Raise LinAlgError, b).
Proof.
move=> sp K_gt0 n_gt0 sz_x.
case/split_ofP: (sp) => _ _ [r_s _] [s_xx _ _ _] eq_px.
rewrite /GMMMap_convert /bind /gets /lift /= (conditional_means_mx sp sz_x).
case: ifP => // _.
set p := responsibilities (density_model (px b)) x.
have eq_m : means_ (px b) = src_means b by rewrite eq_px.
have eq_c : covars_ (px b) = covarXX b by rewrite eq_px.
have sz_p : size p = K by rewrite size_responsibilities /= eq_m (rect_size r_s).
have rect_x : rect (size [:: x]) n [:: x] by rewrite /rect /= sz_x !eqxx.
have nc_m : ncols (means_ (px b)) = n by rewrite eq_m (rect_ncols_pos r_s K_gt0).
have sz_c : size (covars_ (px b)) = size (means_ (px b)).
  by rewrite eq_m eq_c (stack_size s_xx) (rect_size r_s).
rewrite (predict_proba_mx sz_c nc_m _ n_gt0 rect_x) //.
case: ifP => //= _; rewrite -/p.
congr (_, _); set E := mkseq _ K.
have rect_p : rect 1 K [:: p] by rewrite /rect /= sz_p eqxx.
have rect_E : rect K n E by apply: rect_mkseq => k _; rewrite size_of_cv.
rewrite (dot22_mxp rect_p rect_E K_gt0); congr Ok.
apply: (@eq_from_nth _ [::]); first by rewrite size_of_mx.
move=> i; rewrite size_of_mx ltnS leqn0 => /eqP ->.
apply: (@eq_from_nth _ 0).
  by rewrite (rect_row (rect_of_mx _)) // size_of_cv.
move=> j; rewrite (rect_row (rect_of_mx _)) // => lt_j.
have /= -> := nth2_of_mx (mx_of 1 K [:: p] *m mx_of K n E) ord0 (Ordinal lt_j).
rewrite -[j in RHS]/(val (Ordinal lt_j)) nth_of_cv mxE summxE.
apply: eq_bigr => k _; rewrite [RHS]mxE; congr (_ * _); first by rewrite mxE.
by rewrite mxE /E nth_mkseq // nth_of_cv.
Qed.

(** With source blocks that are positive definite, the density is that of
    the source marginal itself. *)
Lemma density_model_pd K n (b : GMMMap) :
  split_of K n b -> (0 < K)%N -> all positive_definite (covarXX b) ->
  admissible (px b) /\ density_model (px b) = px b.
Proof.
move=> sp K_gt0 /allP pd_b.
case/split_ofP: (sp) => _ _ [r_s _] [/andP[_ /allP rect_xx] _ _ _] eq_px.
have fac cv : cv \in covarXX b -> factored n cv = Ok cv.
  by move=> in_cv; rewrite factored_pd ?rect_xx ?pd_b.
rewrite /admissible /density_model eq_px /= (rect_ncols_pos r_s K_gt0); split.
  by apply/allP=> cv /fac ->.
congr mkGMM; rewrite -[RHS]map_id; apply/eq_in_map => cv /fac.
by move=> ->.
Qed.

Lemma GMMMap_init_inv K n (gmm : GMM) (self : GMMMap) :
  fitted K (n + n) gmm -> (0 < K)%N -> (0 < n)%N ->
  GMMMap_init gmm false = Ok self ->
  [/\ self = split_at n gmm (Arr3 (residuals K n self)),
      split_of K n self & regular K n self].
Proof.
move=> fit K_gt0 n_gt0; rewrite (GMMMap_init_mx fit K_gt0 n_gt0) /=.
case: ifP => // reg [<-]; split=> //.
exact: split_of_split_at.
Qed.

Lemma nth_responsibilities (g : GMM) (x : vec) k :
  (k < size (means_ g))%N ->
  nth 0 (responsibilities g x) k
  = nth 0 (weights_ g) k * pdf (nth [::] (means_ g) k) (nth [::] (covars_ g) k) x
    / \sum_(j < size (means_ g))
        nth 0 (weights_ g) j
        * pdf (nth [::] (means_ g) j) (nth [::] (covars_ g) j) x.
Proof.
move=> lt_k; rewrite /responsibilities /weighted.
rewrite (nth_map 0) ?size_map ?size_iota // (nth_map 0%N) ?size_iota //.
rewrite nth_iota // add0n big_map.
have -> : iota 0 (size (means_ g)) = index_iota 0 (size (means_ g)).
  by rewrite /index_iota subn0.
by rewrite big_mkord.
Qed.

Lemma responsibilities_one (g : GMM) (x : vec) :
  size (means_ g) = 1%N -> \sum_(w <- weights_ g) w = 1 ->
  size (weights_ g) = 1%N ->
  pdf (nth [::] (means_ g) 0) (nth [::] (covars_ g) 0) x != 0 ->
  responsibilities g x = [:: 1].
Proof.
move=> sz_m sum_w sz_w pdf_neq0.
apply: (@eq_from_nth _ 0); first by rewrite size_responsibilities sz_m.
move=> [|i]; rewrite size_responsibilities sz_m // => _.
rewrite nth_responsibilities ?sz_m // big_ord1.
have -> : nth 0 (weights_ g) 0 = 1.
  by case: (weights_ g) sum_w sz_w => [|w [|? ?]] //; rewrite big_seq1.
by rewrite mul1r divff.
Qed.

(** C2.  For a mixture of [K] components of joint width [n + n] whose
    construction succeeds, with source blocks [Sxx] that are positive
    definite, and an input [x] of width [n]: every block [Sxx] is
    regular; [p_k] is the posterior probability of component [k] given
    [x] under the source marginal; [GMMMap.convert] returns, as an array
    of one row, the sum over [k] of [p_k] times the conditional mean
    [mu_y + Syx Sxx^-1 (x - mu_x)] of component [k]; with [K = 1] and a
    density that is not zero at [x], the row is the linear regression
    itself, whatever [x]. *)
Theorem frame_conversion K n (gmm : GMM) (self : GMMMap) (x : vec) :
  fitted K (n + n) gmm -> (0 < K)%N -> (0 < n)%N ->
  GMMMap_init gmm false = Ok self -> size x = n ->
  all positive_definite (covarXX self) ->
  let p := responsibilities (px self) x in
  let N k := pdf (nth [::] (src_means self) k) (nth [::] (covarXX self) k) x in
  [/\ forall k, (k < K)%N -> Sxx n self k \in unitmx,
      forall k, (k < K)%N ->
        nth 0 p k = nth 0 (weights self) k * N k
                    / \sum_(j < K) nth 0 (weights self) j * N j,
      GMMMap_convert x self
      = (Ok [:: of_cv (\sum_(k < K) nth 0 p k *: regression n self k x)], self)
    & K = 1%N -> N 0%N != 0 ->
      GMMMap_convert x self = (Ok [:: of_cv (regression n self 0 x)], self)].
Proof.
move=> fit K_gt0 n_gt0 init_b sz_x pd_b p N.
have [eq_b sp reg] := GMMMap_init_inv fit K_gt0 n_gt0 init_b.
have [adm eq_dm] := density_model_pd sp K_gt0 pd_b.
have conv := GMMMap_convert_mx sp K_gt0 n_gt0 sz_x.
rewrite reg adm eq_dm in conv.
case/split_ofP: (sp) => _ sz_w [r_s _] _ eq_px.
have sz_m : size (means_ (px self)) = K by rewrite eq_px /= (rect_size r_s).
split=> //; first exact/regularP.
  move=> k lt_k; rewrite /p nth_responsibilities ?sz_m //.
  by rewrite /N eq_px.
move=> K1 N_neq0; rewrite conv; congr (Ok [:: of_cv _], _).
case/fittedP: fit => _ _ _ _ sum_w.
have eq_w : weights self = weights_ gmm by rewrite eq_b.
have -> : responsibilities (px self) x = [:: 1].
  apply: responsibilities_one; rewrite ?sz_m ?eq_px //=.
    by rewrite eq_w.
  by rewrite sz_w.
by move: (K) K1 => _ ->; rewrite big_ord1 /= scale1r.
Qed.

(** C10, as the code has it.  For a mixture of joint width [n + n] whose
    construction succeeds and an input of width [n]: with source blocks
    [Sxx] that are positive definite, [GMMMap.convert] returns an array
    of two axes, of shape [(1, n)]: its only row has width [n]; and
    whenever it returns, it returns an array of that shape.  The instance
    is left as it was. *)
Theorem frame_conversion_shape K n (gmm : GMM) (self : GMMMap) (x : vec) :
  fitted K (n + n) gmm -> (0 < K)%N -> (0 < n)%N ->
  GMMMap_init gmm false = Ok self -> size x = n ->
  (all positive_definite (covarXX self) ->
   exists v : vec,
     [/\ GMMMap_convert x self = (Ok [:: v], self), size v = n
       & ndshape (Arr2 [:: v]) = [:: 1%N; n]])
  /\ (forall (y : mat) (s' : GMMMap),
        GMMMap_convert x self = (Ok y, s') ->
        ndshape (Arr2 y) = [:: 1%N; n] /\ s' = self).
Proof.
move=> fit K_gt0 n_gt0 init_b sz_x.
have [_ sp reg] := GMMMap_init_inv fit K_gt0 n_gt0 init_b.
have conv := GMMMap_convert_mx sp K_gt0 n_gt0 sz_x; rewrite reg in conv.
split=> [pd_b|y s'].
  have [adm _] := density_model_pd sp K_gt0 pd_b; rewrite adm in conv.
  eexists; split; first exact: conv.
    by rewrite size_of_cv.
  by rewrite /= /ncols /= size_of_cv.
rewrite conv; case: ifP => // _ [<- <-].
by rewrite /= /ncols /= size_of_cv.
Qed.

(** C4.  With [swap] the constructors of both classes raise
    [AttributeError]: the third assignment of the swap reads the
    attribute [XY], which does not exist.  No instance is built, so no
    parameter is exchanged. *)
Theorem swap_raises_AttributeError (gmm : GMM) T (gv : option GMM) :
  GMMMap_init gmm true = Raise AttributeError
  /\ TrajectoryGMMMap_init gmm T gv true = Raise AttributeError.
Proof. by []. Qed.

(** C7, as the code has it.  For a mixture of [K >= 1] components of joint
    width [w >= 2], split at [n = w / 2]:
    - when [w] is odd, [GMMMap.__init__] raises at the first component,
      [LinAlgError] if its block [Sxx] is singular and [ValueError]
      otherwise, because the residual does not fit the slot of [D];
    - when [w] is even, it raises [LinAlgError] if some block [Sxx] is
      singular and builds the instance otherwise;
    - when [w] is even, [TrajectoryGMMMap.__init__] for [T >= 1] frames
      and no model of the global variance does the same, with the
      consistency operator of width [w / 4]: it does not look at whether
      4 divides [w]. *)
Theorem construction_outcomes K w (gmm : GMM) :
  fitted K w gmm -> (0 < K)%N -> (1 < w)%N ->
  let n := (w %/ 2)%N in
  let b0 := split_at n gmm (Arr3 [::]) in
  let b := split_at n gmm (Arr3 (residuals K n b0)) in
  [/\ odd w ->
      GMMMap_init gmm false
      = Raise (if Sxx n b0 0 \in unitmx then ValueError else LinAlgError),
      ~~ odd w ->
      GMMMap_init gmm false
      = if regular K n b0 then Ok b else Raise LinAlgError
    & ~~ odd w -> forall T, (0 < T)%N ->
      TrajectoryGMMMap_init gmm T None false
      = if regular K n b0
        then Ok (mkTrajectoryGMMMap b T (Some (weight_matrix T (w %/ 4)))
                   None None None None)
        else Raise LinAlgError].
Proof.
move=> fit K_gt0 w_gt1 n b0 b.
have n_gt0 : (0 < n)%N by rewrite /n divn2 half_gt0.
have eq_w := odd_double_half w; rewrite -divn2 -/n -addnn in eq_w.
have even_init : ~~ odd w ->
    GMMMap_init gmm false = if regular K n b0 then Ok b else Raise LinAlgError.
  move=> even_w; rewrite (negbTE even_w) add0n in eq_w.
  by rewrite -eq_w in fit; rewrite (GMMMap_init_mx fit K_gt0 n_gt0).
split=> // [odd_w|even_w T T_gt0].
  rewrite odd_w add1n in eq_w; rewrite -eq_w in fit.
  exact: (GMMMap_init_odd fit K_gt0 n_gt0).
have := even_init even_w; case: ifP => _ init_b.
  rewrite (TrajectoryGMMMap_init_ok init_b T_gt0).
  case/fittedP: fit => r_m _ _ _ _.
  by rewrite (rect_ncols_pos r_m K_gt0).
by rewrite /TrajectoryGMMMap_init init_b.
Qed.

(** ** The selection of the components *)

Lemma argmax_fromP (s pre : vec) best ib :
  (ib < size pre)%N -> nth 0 pre ib = best ->
  (forall j, (j < size pre)%N -> nth 0 pre j <= best) ->
  (forall j, (j < ib)%N -> nth 0 pre j < best) ->
  let r := argmax_from best ib (size pre) s in
  [/\ (r < size (pre ++ s))%N,
      forall j, (j < size (pre ++ s))%N -> nth 0 (pre ++ s) j <= nth 0 (pre ++ s) r
    & forall j, (j < r)%N -> nth 0 (pre ++ s) j < nth 0 (pre ++ s) r].
Proof.
elim: s pre best ib => [|x s IH] pre best ib lt_ib eq_b le_b lt_b /=.
  by rewrite cats0 eq_b.
have sz_rc : size (rcons pre x) = (size pre).+1 by rewrite size_rcons.
have nth_rc j : (j < size pre)%N -> nth 0 (rcons pre x) j = nth 0 pre j.
  by move=> lt_j; rewrite nth_rcons lt_j.
have nth_x : nth 0 (rcons pre x) (size pre) = x.
  by rewrite nth_rcons ltnn eqxx.
rewrite -cat_rcons -sz_rc; case: ifP => [lt_x|/negbT].
  apply: IH; rewrite ?sz_rc ?nth_x // => j.
    rewrite ltnS leq_eqVlt => /orP[/eqP ->|lt_j]; first by rewrite nth_x.
    by rewrite nth_rc // (le_trans (le_b j lt_j)) // ltW.
  by move=> lt_j; rewrite nth_rc // (le_lt_trans (le_b j lt_j)).
rewrite -leNgt => le_x; apply: IH; rewrite ?sz_rc ?nth_rc // 1?ltnW //.
  move=> j; rewrite ltnS leq_eqVlt => /orP[/eqP ->|lt_j]; first by rewrite nth_x.
  by rewrite nth_rc // le_b.
by move=> j lt_j; rewrite nth_rc ?lt_b // (ltn_trans lt_j).
Qed.

(** [argmax] of a row that is not empty: the first index of a greatest
    entry. *)
Lemma argmax_rowP (r : vec) :
  (0 < size r)%N ->
  [/\ argmax r = Ok (argmax_row r), (argmax_row r < size r)%N,
      forall j, (j < size r)%N -> nth 0 r j <= nth 0 r (argmax_row r)
    & forall j, (j < argmax_row r)%N -> nth 0 r j < nth 0 r (argmax_row r)].
Proof.
case: r => [|x s] //= _.
by have [] := @argmax_fromP s [:: x] x 0%N isT (erefl _); first by case.
Qed.

Lemma foldM_argmax (post : mat) (acc : seq nat) :
  all (fun r : vec => 0 < size r)%N post ->
  foldM (fun r ks => k <-- argmax r ;; Ok (rcons ks k)) post acc
  = Ok (acc ++ [seq argmax_row r | r <- post]).
Proof.
elim: post acc => [|r post IH] acc /=; first by rewrite cats0.
case/andP=> /argmax_rowP[-> _ _ _] /IH /= ->.
by rewrite cat_rcons.
Qed.

Lemma predict_mx K n (b : GMMMap) (src : mat) :
  split_of K n b -> (0 < K)%N -> (0 < size src)%N -> (0 < n)%N ->
  rect (size src) n src ->
  predict (px b) src
  = if admissible (px b) then Ok (mix b src) else Raise ValueError.
Proof.
move=> sp K_gt0 T_gt0 n_gt0 rect_s.
case/split_ofP: (sp) => _ _ [r_s _] [s_xx _ _ _] eq_px.
have eq_m : means_ (px b) = src_means b by rewrite eq_px.
have eq_c : covars_ (px b) = covarXX b by rewrite eq_px.
have nc_m : ncols (means_ (px b)) = n by rewrite eq_m (rect_ncols_pos r_s K_gt0).
have sz_c : size (covars_ (px b)) = size (means_ (px b)).
  by rewrite eq_m eq_c (stack_size s_xx) (rect_size r_s).
rewrite /predict (predict_proba_mx sz_c nc_m T_gt0 n_gt0 rect_s).
case: ifP => //= _; rewrite foldM_argmax /= -?map_comp //.
apply/allP=> r /mapP[x _ ->].
by rewrite size_responsibilities /= eq_m (rect_size r_s).
Qed.

Lemma size_mix (b : GMMMap) (src : mat) : size (mix b src) = size src.
Proof. by rewrite size_map. Qed.

(** The selected component of a frame is one of the [K] components and
    its posterior probability is the greatest. *)
Lemma mixP K n (b : GMMMap) (src : mat) t :
  split_of K n b -> (0 < K)%N -> (t < size src)%N ->
  let p := responsibilities (density_model (px b)) (nth [::] src t) in
  let k := nth 0%N (mix b src) t in
  [/\ (k < K)%N, forall j, (j < K)%N -> nth 0 p j <= nth 0 p k
    & forall j, (j < k)%N -> nth 0 p j < nth 0 p k].
Proof.
move=> sp K_gt0 lt_t p k; case/split_ofP: (sp) => _ _ [r_s _] _ eq_px.
have sz_p : size p = K.
  by rewrite size_responsibilities /= eq_px /= (rect_size r_s).
have eq_k : k = argmax_row p by rewrite /k (nth_map [::]).
have p_gt0 : (0 < size p)%N by rewrite sz_p.
by have [_] := argmax_rowP p_gt0; rewrite -eq_k sz_p.
Qed.

(** ** The trajectory-wise conversion *)

Lemma rect_ncols_sq k (a : mat) : rect k k a -> ncols a = k.
Proof.
case: k => [|k] rect_a; first by rewrite (rect_nil rect_a).
exact: rect_ncols rect_a.
Qed.

Lemma rect_block_diag n (bs : seq mat) :
  all (rect n n) bs -> rect (size bs * n) (size bs * n) (block_diag bs).
Proof.
elim: bs => [|b bs IH] //= /andP[rect_b /IH rect_r].
rewrite (rect_ncols_sq rect_b) (rect_ncols_sq rect_r) mulSn.
apply: rect_cat.
  by apply: rect_map rect_b _ => r sz_r; rewrite size_cat sz_r size_nseq.
by apply: rect_map rect_r _ => r sz_r; rewrite size_cat sz_r size_nseq.
Qed.

Lemma size_flatten_rect m n (a : mat) : rect m n a -> size (flatten a) = (m * n)%N.
Proof.
case/andP=> /eqP <- /allP row_a; rewrite size_flatten /shape.
elim: a row_a => [|r a IH] row_a //=.
rewrite (eqP (row_a r _)) ?mem_head // mulSn IH // => r' in_a.
by apply: row_a; rewrite inE in_a orbT.
Qed.

Lemma bind_gets (S A B : Type) (f : S -> A) (k : A -> M S B) s :
  bind (gets f) k s = k (f s) s.
Proof. by []. Qed.

Lemma bind_modify (S B : Type) (f : S -> S) (k : unit -> M S B) s :
  bind (modify f) k s = k tt (f s).
Proof. by []. Qed.

Lemma bind_ret (S A B : Type) (a : A) (k : A -> M S B) s :
  bind (ret a) k s = k a s.
Proof. by []. Qed.

Lemma stage_rebuild T D (self : TrajectoryGMMMap) :
  (0 < T)%N ->
  (if T != self_T self then construct_weight_matrix T D else ret tt) self
  = (Ok tt, rebuilt T D self).
Proof.
move=> T_gt0; rewrite /rebuilt; case: ifP => // _.
exact: construct_weight_matrix_ok.
Qed.

Lemma base_rebuilt T D (self : TrajectoryGMMMap) :
  base (rebuilt T D self) = base self.
Proof. by rewrite /rebuilt; case: ifP. Qed.

Lemma self_T_rebuilt T D (self : TrajectoryGMMMap) :
  self_T (rebuilt T D self) = self_T self.
Proof. by rewrite /rebuilt; case: ifP. Qed.

Lemma self_W_rebuilt T D (self : TrajectoryGMMMap) W0 :
  self_W self = Some W0 ->
  self_W (rebuilt T D self) = Some (operator_of T D self).
Proof. by rewrite /operator_of /rebuilt; case: ifP => //= _ ->. Qed.

Lemma bind_set_E (B : Type) E (k : unit -> M TrajectoryGMMMap B) s :
  bind (set_E E) k s = k tt (set_E E s).2.
Proof. by []. Qed.

Lemma bind_set_D (B : Type) D_ (k : unit -> M TrajectoryGMMMap B) s :
  bind (set_D D_) k s = k tt (set_D D_ s).2.
Proof. by []. Qed.

Lemma convert_cases K D (self : TrajectoryGMMMap) (src : mat) :
  ready K D self -> (0 < K)%N -> (0 < D)%N -> (0 < size src)%N ->
  frames (size src) (2 * D) src ->
  if solvable D self src
  then convert src self = (Ok (trajectory D self src), converted D self src)
  else exists e s', convert src self = (Raise e, s').
Proof.
move=> [sp [T1 eq_W]] K_gt0 D_gt0 T_gt0 fr.
have n_gt0 : (0 < 2 * D)%N by rewrite muln_gt0.
have eq_D : (ncols src %/ 2)%N = D by rewrite (rect_ncols_pos fr T_gt0) mulKn.
rewrite /convert eq_D bind_gets (bind_eval _ (stage_rebuild D self T_gt0)).
have W1 := self_W_rebuilt (size src) D eq_W.
rewrite bind_gets base_rebuilt bind_lift (predict_mx sp K_gt0 T_gt0 n_gt0 fr).
rewrite /solvable; case adm: (admissible _); last by eexists; eexists.
rewrite andTb bind_set_E.
rewrite /trajectory /converted /system_of /rhs_of /means_of
  /precisions_of /sources_regular /residuals_regular.
move: W1; set W := operator_of _ _ _.
set s1 := rebuilt _ D self; set b := base self in sp *.
set ks := mix b src; set T := size src in T_gt0 fr *.
move=> W1.
have sz_ks : size ks = T by rewrite size_mix.
have lt_ks t : (t < T)%N -> (nth 0%N ks t < K)%N.
  by move=> lt_t; have [] := mixP sp K_gt0 lt_t.
pose e := conditional (2 * D) b ks src.
pose fE t :=
  (set_E (Arr2 (mkseq (fun i => if (i < t)%N then e i else zeros1 (2 * D)) T))
     s1).2.
have -> : (set_E (Arr2 (zeros2 T (2 * D))) s1).2 = fE 0%N.
  by rewrite /fE /= mkseq_nseq.
have getE t : get_E2 (fE t)
    = (Ok (mkseq (fun i => if (i < t)%N then e i else zeros1 (2 * D)) T), fE t).
  by [].
set bodyE := (X in for_ _ X).
have stepE i : (i < T)%N ->
    if Sxx (2 * D) b (nth 0%N ks i) \in unitmx
    then bodyE i (fE i) = (Ok tt, fE i.+1)
    else exists e s', bodyE i (fE i) = (Raise e, s').
  move=> lt_i; rewrite /bodyE bind_lift (getitem_nth 0%N) ?sz_ks //.
  rewrite bind_lift (getitem_nth [::]) // bind_lift.
  rewrite (conditional_mean_mx sp (lt_ks i lt_i) (rect_row fr lt_i)).
  case: (Sxx _ _ _ \in unitmx) => /=; last by exists LinAlgError, (fE i).
  rewrite (bind_eval _ (getE i)) bind_lift -/(conditional _ b ks src i) -/(e i).
  rewrite setrow_same ?size_mkseq //.
    by rewrite nth_mkseq // ltnn size_nseq size_of_cv.
  have /= -> := @set_nth_fill _ [::] e (fun=> zeros1 (2 * D)) T i lt_i.
  by [].
have loopE := for_iota_cond stepE.
case cE: (all _ _) in loopE *; hnf in loopE; last first.
  case: loopE => e0 [s' loopE].
  by rewrite andFb; hnf; exists e0, s'; rewrite (bind_raise _ loopE).
rewrite andTb (bind_eval _ loopE) (bind_eval _ (getE T)) bind_set_E bind_set_D.
have -> : mkseq (fun i => if (i < T)%N then e i else zeros1 (2 * D)) T
          = mkseq e T.
  by apply: mkseq_ext => i ->.
rewrite -/(stacked_means (2 * D) b ks src T).
set E := stacked_means _ _ _ _ _.
pose q := precision (2 * D) b ks.
pose Dpre t :=
  mkseq (fun i => if (i < t)%N then q i else zeros2 (2 * D) (2 * D)) T.
pose s2 := (set_E (Arr1 E) s1).2.
pose fD t := (set_D (Arr3 (Dpre t)) s2).2.
have -> : zeros3 T (2 * D) (2 * D) = Dpre 0%N by rewrite /Dpre /= mkseq_nseq.
rewrite -[(set_D (Arr3 _) _).2]/(fD 0%N).
have unit_xx t : (t < T)%N -> Sxx (2 * D) b (nth 0%N ks t) \in unitmx.
  by move=> lt_t; apply: (allP cE); rewrite mem_iota.
set bodyD := (X in for_ _ X).
have stepD i : (i < T)%N ->
    if schur (2 * D) b (nth 0%N ks i) \in unitmx
    then bodyD i (fD i) = (Ok tt, fD i.+1)
    else exists e s', bodyD i (fD i) = (Raise e, s').
  move=> lt_i; rewrite /bodyD bind_lift (getitem_nth 0%N) ?sz_ks //.
  rewrite bind_lift (residual_schur sp n_gt0 (lt_ks i lt_i)) unit_xx //.
  have getD : get_D3 (fD i) = (Ok (Dpre i), fD i) by [].
  rewrite (bind_eval _ getD) bind_lift.
  have rect_z : rect (2 * D) (2 * D) (nth [::] (Dpre i) i).
    by rewrite nth_mkseq // ltnn rect_zeros2.
  rewrite (setslice_same _ rect_z (rect_of_mx _)) ?size_mkseq // bind_set_D.
  set D1 := set_nth _ _ _ _.
  have getD1 s : get_D3 (set_D (Arr3 D1) s).2 = (Ok D1, (set_D (Arr3 D1) s).2).
    by [].
  have lt_D1 : (i < size D1)%N.
    by rewrite size_set_nth size_mkseq (maxn_idPr lt_i).
  rewrite (bind_eval _ (getD1 _)) bind_lift (getitem_nth [::]) //.
  have nth_D1 : nth [::] D1 i = of_mx (schur (2 * D) b (nth 0%N ks i)).
    by rewrite nth_set_nth /= eqxx.
  rewrite nth_D1 bind_lift (linalg_inv_mx (rect_of_mx _)) of_mxK.
  case: (schur _ _ _ \in unitmx) => /=; last first.
    by eexists; eexists.
  have rect_1 : rect (2 * D) (2 * D) (nth [::] D1 i).
    by rewrite nth_D1 rect_of_mx.
  rewrite bind_lift (setslice_same lt_D1 rect_1 (rect_of_mx _)).
  rewrite -/(precision (2 * D) b ks i) -/(q i) /D1 set_set_nth eqxx /=.
  have /= -> := @set_nth_fill _ [::] q (fun=> zeros2 (2 * D) (2 * D)) T i lt_i.
  by [].
have loopD := for_iota_cond stepD.
case cD: (all _ _) in loopD *; hnf in loopD; last first.
  case: loopD => e0 [s' loopD].
  by rewrite andFb; hnf; exists e0, s'; rewrite (bind_raise _ loopD).
have getDT : get_D3 (fD T) = (Ok (Dpre T), fD T) by [].
rewrite andTb (bind_eval _ loopD) (bind_eval _ getDT) bind_set_D.
have -> : Dpre T = mkseq q T by apply: mkseq_ext => i ->.
rewrite -/(stacked_precisions (2 * D) b ks T).
set P := stacked_precisions _ _ _ _.
rewrite -[(set_D (Arr2 P) (fD T)).2]/((set_D (Arr2 P) s2).2).
set s3 := (set_D (Arr2 P) s2).2.
have getW : get_W s3 = (Ok W, s3) by rewrite /get_W /= W1.
have getP : get_D2 s3 = (Ok P, s3) by [].
have getE1 : get_E1 s3 = (Ok E, s3) by [].
rewrite (bind_eval _ getW) (bind_eval _ getP) bind_lift.
have rect_P : rect (T * (2 * D)) (T * (2 * D)) P.
  have sz_q : size (mkseq q T) = T by rewrite size_mkseq.
  rewrite -{1 2}sz_q; apply: rect_block_diag.
  by apply/allP=> m /mapP[t _ ->]; rewrite rect_of_mx.
have sz_E : size E = (T * (2 * D))%N.
  have rect_e : rect T (2 * D) (mkseq e T).
    by apply: rect_mkseq => t _; rewrite size_of_cv.
  exact: size_flatten_rect rect_e.
have [T' eqW] : exists T', W = weight_matrix T' D.
  rewrite /W /operator_of /rebuilt; case: ifP => _ /=; first by exists T.
  by rewrite eq_W; exists T1.
have P_gt0 : (0 < T * (2 * D))%N by rewrite muln_gt0 T_gt0.
have sz_P := rect_size rect_P.
case/andP: (rect_P) => _ row_P.
case cW: (size W == _); last first.
  rewrite andFb; hnf; exists ValueError, s3.
  rewrite /dot22; case: ifP => // /allP/(_ (nth [::] P 0)).
  rewrite mem_nth ?sz_P // (rect_row rect_P) // => /(_ isT).
  by rewrite eq_sym [(T * _)%N]mulnC cW.
rewrite andTb.
have eqT : T' = T.
  move: cW; rewrite eqW size_weight_matrix eqn_pmul2l // => /eqP.
  by [].
have rect_W : rect (2 * D * T) (D * T) W by rewrite eqW eqT rect_weight_matrix.
have sz_W : size W = (T * (2 * D))%N by rewrite (rect_size rect_W) mulnC.
have nc_W : ncols W = (D * T)%N by rewrite eqW eqT ncols_weight_matrix.
have dotPW : dot22 P W = Ok (mdot P W) by rewrite /dot22 sz_W row_P.
have [_ rect_PW] := dot22_ok dotPW.
have rect_Wt := rect_transpose W.
have dotA : dot22 (transpose W) (mdot P W) = Ok (system_matrix W P).
  rewrite /dot22 size_map sz_P -sz_W.
  by case/andP: rect_Wt => _ ->.
have [_ rect_A] := dot22_ok dotA.
have dotPE : dot21 P E = Ok (vdot P E) by rewrite /dot21 sz_E row_P.
have dotR : dot21 (transpose W) (vdot P E) = Ok (system_rhs W P E).
  rewrite /dot21 size_map sz_P -sz_W.
  by case/andP: rect_Wt => _ ->.
rewrite dotPW bind_lift dotA (bind_eval _ getE1) bind_lift dotPE.
rewrite bind_lift dotR bind_lift.
set A := system_matrix W P in rect_A *.
have sz_A : size A = (D * T)%N.
  by rewrite /A /system_matrix /mdot size_map size_transpose nc_W.
have nc_PW : ncols (mdot P W) = (D * T)%N.
  by rewrite (rect_ncols_pos rect_PW) // sz_P.
rewrite size_transpose nc_PW nc_W -sz_A in rect_A.
have sz_R : size (system_rhs W P E) = size A.
  by rewrite /system_rhs /vdot size_map size_transpose nc_W sz_A.
rewrite (spsolve_mx rect_A sz_R).
case: (_ \in unitmx) => /=; last by eexists; eexists.
by rewrite /lift reshape_ok // size_solution sz_A mulnC.
Qed.

(** ** What the conversions keep *)

Section Frames.

Variable P : TrajectoryGMMMap -> Prop.
Hypothesis P_W : forall W s, P s -> P (set_W W s).2.
Hypothesis P_E : forall E s, P s -> P (set_E E s).2.
Hypothesis P_D : forall D_ s, P s -> P (set_D D_ s).2.

Ltac frame :=
  repeat first
    [ apply: preserves_ret | apply: preserves_lift | apply: preserves_gets
    | apply: preserves_for => ?
    | apply: preserves_if
    | apply: preserves_bind => [|?]
    | exact: P_W | exact: P_E | exact: P_D
    | by move=> ? ].

Lemma preserves_construct T D : preserves P (construct_weight_matrix T D).
Proof. by rewrite /construct_weight_matrix; frame. Qed.

Lemma preserves_convert src : preserves P (convert src).
Proof.
rewrite /convert; cbv zeta; frame; exact: preserves_construct.
Qed.

Lemma preserves_gv_step T D omega lr y : preserves P (gv_step T D omega lr y).
Proof. by rewrite /gv_step; frame. Qed.

Lemma preserves_iterate n (step : mat -> M TrajectoryGMMMap mat) y :
  (forall y, preserves P (step y)) -> preserves P (iterate n step y).
Proof.
move=> P_step; elim: n y => [|n IH] y /=; first exact: preserves_ret.
exact: preserves_bind.
Qed.

Lemma preserves_convert_with_gv src n lr :
  preserves P (convert_with_gv src n lr).
Proof.
rewrite /convert_with_gv; apply: preserves_bind => [|y].
  exact: preserves_convert.
by apply: preserves_iterate => y'; apply: preserves_gv_step.
Qed.

End Frames.

Lemma convert_cached_length src self :
  self_T (convert src self).2 = self_T self.
Proof. exact: (@preserves_convert (fun s => self_T s = self_T self)). Qed.

Lemma convert_split_params src self :
  split_params (base (convert src self).2) = split_params (base self).
Proof.
exact: (@preserves_convert
          (fun s => split_params (base s) = split_params (base self))).
Qed.

Lemma convert_with_gv_split_params src n lr self :
  split_params (base (convert_with_gv src n lr self).2)
  = split_params (base self).
Proof.
exact: (@preserves_convert_with_gv
          (fun s => split_params (base s) = split_params (base self))).
Qed.

Lemma convert_gv_model src self :
  let s' := (convert src self).2 in
  [/\ gv_mean s' = gv_mean self, gv_covar s' = gv_covar self
    & Pv s' = Pv self].
Proof.
exact: (@preserves_convert
          (fun s => [/\ gv_mean s = gv_mean self, gv_covar s = gv_covar self
                      & Pv s = Pv self])).
Qed.

(** ** The linear system of the trajectory *)

Lemma rect_precisions D (b : GMMMap) (src : mat) :
  let m := (size src * (2 * D))%N in rect m m (precisions_of D b src).
Proof.
rewrite /precisions_of /stacked_precisions.
set q := mkseq _ _; have sz_q : size q = size src by rewrite size_mkseq.
rewrite /= -{1 2}sz_q; apply: rect_block_diag.
by apply/allP=> m /mapP[t _ ->]; rewrite rect_of_mx.
Qed.

Lemma size_means_of D (b : GMMMap) (src : mat) :
  size (means_of D b src) = (size src * (2 * D))%N.
Proof.
apply: size_flatten_rect; apply: rect_mkseq => t _.
by rewrite size_of_cv.
Qed.

Lemma operator_of_fit K D (self : TrajectoryGMMMap) T :
  ready K D self -> (0 < D)%N ->
  size (operator_of T D self) == (2 * D * T)%N ->
  operator_of T D self = weight_matrix T D.
Proof.
move=> [_ [T1 eq_W]] D_gt0.
rewrite /operator_of /rebuilt; case: ifP => //= _.
rewrite eq_W /= size_weight_matrix eqn_pmul2l ?muln_gt0 //.
by move/eqP->.
Qed.

Lemma system_rect T D (P : mat) (E : vec) :
  (0 < T)%N -> (0 < D)%N -> rect (T * (2 * D)) (T * (2 * D)) P ->
  let A := system_matrix (weight_matrix T D) P in
  rect (size A) (size A) A
  /\ size (system_rhs (weight_matrix T D) P E) = size A.
Proof.
move=> T_gt0 D_gt0 rect_P; set W := weight_matrix T D => A.
have nc_W : ncols W = (D * T)%N by rewrite ncols_weight_matrix.
have sz_W : size W = (T * (2 * D))%N by rewrite size_weight_matrix mulnC.
have P_gt0 : (0 < T * (2 * D))%N by rewrite !muln_gt0 T_gt0.
case/andP: (rect_P) => /eqP sz_P row_P.
have dotPW : dot22 P W = Ok (mdot P W) by rewrite /dot22 sz_W row_P.
have [_ rect_PW] := dot22_ok dotPW.
have dotA : dot22 (transpose W) (mdot P W) = Ok A.
  rewrite /dot22 size_map sz_P -sz_W.
  by case/andP: (rect_transpose W) => _ ->.
have [_] := dot22_ok dotA.
have sz_A : size A = (D * T)%N.
  by rewrite /A /system_matrix /mdot size_map size_transpose nc_W.
rewrite size_transpose (rect_ncols_pos rect_PW) ?sz_P // nc_W -sz_A => rect_A.
by split=> //; rewrite /system_rhs /vdot size_map size_transpose nc_W sz_A.
Qed.

(** The outcome of [TrajectoryGMMMap.convert], both ways. *)
Lemma convert_ok K D (self : TrajectoryGMMMap) (src : mat) :
  ready K D self -> (0 < K)%N -> (0 < D)%N -> (0 < size src)%N ->
  frames (size src) (2 * D) src -> solvable D self src ->
  convert src self = (Ok (trajectory D self src), converted D self src).
Proof.
move=> rdy K_gt0 D_gt0 T_gt0 fr ok.
by have := convert_cases rdy K_gt0 D_gt0 T_gt0 fr; rewrite ok.
Qed.

Lemma convert_inv K D (self : TrajectoryGMMMap) (src : mat) y s' :
  ready K D self -> (0 < K)%N -> (0 < D)%N -> (0 < size src)%N ->
  frames (size src) (2 * D) src -> convert src self = (Ok y, s') ->
  [/\ solvable D self src, y = trajectory D self src
    & s' = converted D self src].
Proof.
move=> rdy K_gt0 D_gt0 T_gt0 fr.
have := convert_cases rdy K_gt0 D_gt0 T_gt0 fr.
by case: ifP => [_ -> [<- <-]|_ [e [s2 ->]]].
Qed.

Lemma flatten_trajectory K D (self : TrajectoryGMMMap) (src : mat) :
  ready K D self -> (0 < D)%N -> (0 < size src)%N -> solvable D self src ->
  let A := system_of D self src in
  [/\ operator_of (size src) D self = weight_matrix (size src) D,
      rect (size A) (size A) A, size (rhs_of D self src) = size A,
      size A = (size src * D)%N
    & flatten (trajectory D self src) = solution A (rhs_of D self src)].
Proof.
move=> rdy D_gt0 T_gt0 /and5P[_ _ _ fit_W _] A.
have eq_W := operator_of_fit rdy D_gt0 fit_W.
have [rect_A sz_r] :=
  system_rect (means_of D (base self) src) T_gt0 D_gt0
    (rect_precisions D (base self) src).
have sz_A : size A = (size src * D)%N.
  rewrite /A /system_of /system_matrix /mdot size_map size_transpose eq_W.
  by rewrite ncols_weight_matrix // mulnC.
split=> //.
- by rewrite /A /system_of eq_W.
- by rewrite /A /system_of /rhs_of eq_W.
rewrite /trajectory flatten_chunks -/A -sz_A.
by rewrite -(size_solution A (rhs_of D self src)) take_size.
Qed.


(** ** The cached length and the split attributes *)

(** C5, as the code has it.  [TrajectoryGMMMap.convert] never assigns the
    attribute [T]: whatever the frames and the outcome, the cached length
    stays the one given to the constructor, also when the operator has
    been rebuilt for another length.  A later call with frames of that
    other length finds the two lengths different again. *)
Theorem cached_length_is_never_updated (src : mat) (self : TrajectoryGMMMap) :
  self_T (convert src self).2 = self_T self
  /\ (size src != self_T self ->
      forall src' : mat, size src' = size src ->
        size src' != self_T (convert src self).2).
Proof.
split; first exact: convert_cached_length.
by move=> ne_T src' ->; rewrite convert_cached_length.
Qed.

Lemma GMMMap_convert_state (x : vec) (b : GMMMap) : (GMMMap_convert x b).2 = b.
Proof.
rewrite /GMMMap_convert /bind /gets /lift /=.
by case: conditional_means => //= E; case: predict_proba.
Qed.

Lemma self_D_converted D (self : TrajectoryGMMMap) (src : mat) :
  self_D (base (converted D self src)) = Arr2 (precisions_of D (base self) src).
Proof. by []. Qed.

Lemma self_E_converted D (self : TrajectoryGMMMap) (src : mat) :
  self_E (converted D self src) = Some (Arr1 (means_of D (base self) src)).
Proof. by []. Qed.

(** C6, as the code has it.  [GMMMap.convert] leaves the instance as it
    is.  [TrajectoryGMMMap.convert] and [convert_with_gv] leave the number
    of components, the weights, the means, the four covariance blocks and
    the source marginal as they are, whatever the outcome; but a call of
    [TrajectoryGMMMap.convert] that returns has replaced the attribute
    [D], the residual covariances of the constructor, by the
    block-diagonal matrix of the inverses of the residual covariances of
    the selected components, and has stored the stacked conditional means
    in the attribute [E]. *)
Theorem conversions_keep_split_parameters :
  [/\ forall (x : vec) (b : GMMMap), (GMMMap_convert x b).2 = b,
      forall src self,
        split_params (base (convert src self).2) = split_params (base self),
      forall src n lr self,
        split_params (base (convert_with_gv src n lr self).2)
        = split_params (base self)
    & forall K D self src y s',
        ready K D self -> (0 < K)%N -> (0 < D)%N -> (0 < size src)%N ->
        frames (size src) (2 * D) src -> convert src self = (Ok y, s') ->
        let ks := mix (base self) src in
        self_D (base s')
        = Arr2 (stacked_precisions (2 * D) (base self) ks (size src))
        /\ self_E s'
           = Some (Arr1 (stacked_means (2 * D) (base self) ks src (size src)))].
Proof.
split.
- exact: GMMMap_convert_state.
- exact: convert_split_params.
- exact: convert_with_gv_split_params.
move=> K D self src y s' rdy K_gt0 D_gt0 T_gt0 fr conv ks.
by have [_ _ ->] := convert_inv rdy K_gt0 D_gt0 T_gt0 fr conv.
Qed.

Lemma dot21_vdot m n (a : mat) (v : vec) :
  rect m n a -> size v = n -> dot21 a v = Ok (vdot a v).
Proof. by case/andP=> _ row_a sz_v; rewrite /dot21 sz_v row_a. Qed.

Lemma size_vdot (a : mat) (v : vec) : size (vdot a v) = size a.
Proof. by rewrite size_map. Qed.

(** ** The gradient steps with a learning rate of zero *)

Lemma rect_self m n (a : mat) : rect m n a -> rect (size a) (ncols a) a.
Proof.
case: m => [|m] rect_a; first by rewrite (rect_nil rect_a).
by rewrite (rect_size rect_a) (rect_ncols rect_a).
Qed.

Lemma madd_zero m n (y g : mat) :
  rect m n y -> rect m n g -> madd y (mscale 0 g) = Ok y.
Proof.
move=> rect_y rect_g.
have rect_s : rect m n (mscale 0 g).
  by apply: rect_map rect_g _ => r sz_r; rewrite size_map.
rewrite /madd (bcast2_same _ rect_y rect_s); congr Ok.
apply: (@eq_from_nth _ [::]); first by rewrite size_mkseq (rect_size rect_y).
move=> i; rewrite size_mkseq => lt_i; rewrite nth_mkseq //.
apply: (@eq_from_nth _ 0); first by rewrite size_mkseq (rect_row rect_y).
move=> j; rewrite size_mkseq => lt_j; rewrite nth_mkseq //.
rewrite (nth_map [::]) ?(rect_size rect_g) //.
by rewrite (nth_map 0) ?(rect_row rect_g) // mul0r addr0.
Qed.

Ltac bind_inv :=
  let H := fresh "H" in move=> H; case: (bind_ok H) => {H} ? [? [_]].

Lemma convert_rect (src : mat) (self : TrajectoryGMMMap) y s' :
  convert src self = (Ok y, s') -> rect (size y) (ncols y) y.
Proof.
rewrite /convert; cbv zeta.
do 20!bind_inv.
by rewrite /lift => -[/reshape_rect[/rect_self]].
Qed.

Lemma gv_step_zero T D omega (y y' : mat) s s' :
  rect T D y -> gv_step T D omega 0 y s = (Ok y', s') -> y' = y.
Proof.
move=> rect_y; rewrite /gv_step.
do 11!bind_inv.
move=> H; case: (bind_ok H) => {H} g [? []].
rewrite /lift => -[/reshape_rect[rect_g _] _].
by rewrite (madd_zero rect_y rect_g) => -[].
Qed.

Lemma iterate_zero n T D omega (y y' : mat) s s' :
  rect T D y ->
  iterate n (gv_step T D omega 0) y s = (Ok y', s') -> y' = y.
Proof.
move=> rect_y; elim: n s => [|n IH] s /=; first by case.
move=> H; case: (bind_ok H) => {H} y1 [s1 [/(gv_step_zero rect_y) -> run]].
exact: IH run.
Qed.

(** ** The gradient steps without a model of the global variance *)


Lemma Pv_converted D (self : TrajectoryGMMMap) (src : mat) :
  Pv (converted D self src) = Pv self.
Proof. by rewrite /converted /= /rebuilt; case: ifP. Qed.


(** ** The gradient steps with a model of the global variance *)

Lemma gv_grad_ok T D (y : mat) (s : TrajectoryGMMMap) (P : mat) (m : vec) :
  (0 < T)%N -> rect T D y -> Pv s = Some P -> gv_mean s = Some m ->
  rect D D P -> size m = D ->
  exists g, gv_grad y s = (Ok g, s) /\ rect T D g.
Proof.
move=> T_gt0 rect_y eq_P eq_m rect_P sz_m.
have sz_y := rect_size rect_y; have nc_y := rect_ncols_pos rect_y T_gt0.
rewrite /gv_grad eq_P eq_m sz_y nc_y.
set body := (X in foldM X).
have sz_v : size (var0 y) = D by rewrite size_mkseq nc_y.
have sz_mu : size (mean0 y) = D by rewrite size_mkseq nc_y.
have rect_Pt : rect D D (transpose P).
  by have := rect_transpose P; rewrite (rect_ncols_sq rect_P) (rect_size rect_P).
pose d := mkseq (fun i => nth 0 (var0 y) i - nth 0 m i) D.
pose sc := vscale (- 2 / T%:R) (vdot (transpose P) d).
pose dy t := mkseq (fun i => nth 0 (nth [::] y t) i - nth 0 (mean0 y) i) D.
pose row t := mkseq (fun i => nth 0 sc i * nth 0 (dy t) i) D.
pose f i := mkseq (fun t => if (t < i)%N then row t else zeros1 D) T.
have step i : (i < T)%N ->
    body i (f i) = if xpredT i then Ok (f i.+1) else Raise ValueError.
  move=> lt_i; rewrite /body /=.
  rewrite /vsub bcast1_same ?sz_v ?sz_m //= -/d.
  rewrite (dot21_vdot rect_Pt) ?size_mkseq //=.
  rewrite (getitem_nth [::]) ?sz_y //=.
  rewrite bcast1_same ?sz_mu ?(rect_row rect_y) //= -/(dy i).
  have sz_sc : size sc = size (dy i).
    by rewrite size_map size_vdot (rect_size rect_Pt) size_mkseq.
  rewrite /vmul (bcast1_same _ sz_sc) /= size_mkseq -/(row i).
  have sz_row : size (row i) = size (nth [::] (f i) i).
    by rewrite nth_mkseq // ltnn size_nseq size_mkseq.
  have lt_f : (i < size (f i))%N by rewrite size_mkseq.
  rewrite (setrow_same lt_f sz_row); congr Ok.
  exact: (set_nth_fill [::] row (fun=> zeros1 D) lt_i).
have f0 : f 0%N = zeros2 T D by rewrite /f /zeros2 -mkseq_nseq.
exists (f T); split; last first.
  by apply: rect_mkseq => t lt_t; rewrite lt_t size_mkseq.
by rewrite -f0 (@foldM_iota_cond _ body xpredT f ValueError T step) all_predT.
Qed.

Lemma gv_step_ok K D (self : TrajectoryGMMMap) (src : mat) omega lr (y : mat)
    (P : mat) (m : vec) :
  ready K D self -> (0 < D)%N -> (0 < size src)%N -> solvable D self src ->
  Pv self = Some P -> rect D D P -> gv_mean self = Some m -> size m = D ->
  rect (size src) D y ->
  let s' := converted D self src in
  exists y', gv_step (size src) D omega lr y s' = (Ok y', s')
             /\ rect (size src) D y'.
Proof.
move=> rdy D_gt0 T_gt0 ok eq_Pv rect_Pv eq_m sz_m rect_y s'.
have [eq_W rect_A sz_r sz_A fl] := flatten_trajectory rdy D_gt0 T_gt0 ok.
case: (rdy) => _ [T1 eq_W0].
set T := size src in T_gt0 eq_W sz_A rect_y *.
set W := weight_matrix T D in eq_W.
set P0 := precisions_of D (base self) src.
set E := means_of D (base self) src.
have rect_W : rect (2 * D * T) (D * T) W by exact: rect_weight_matrix.
have rect_P : rect (T * (2 * D)) (T * (2 * D)) P0 by exact: rect_precisions.
have rect_Wt := rect_transpose W.
have sz_W : size W = (T * (2 * D))%N by rewrite (rect_size rect_W) mulnC.
have sz_E : size E = (T * (2 * D))%N by exact: size_means_of.
have getW : get_W s' = (Ok W, s').
  by rewrite /get_W /= (self_W_rebuilt _ _ eq_W0) eq_W.
have getP : get_D2 s' = (Ok P0, s') by [].
have getE : get_E1 s' = (Ok E, s') by [].
have sz_y : size (flatten y) = (D * T)%N.
  by rewrite (size_flatten_rect rect_y) mulnC.
have nc_W : ncols W = (D * T)%N.
  by apply: rect_ncols_pos rect_W _; rewrite !muln_gt0 D_gt0 T_gt0.
rewrite /gv_step (bind_eval _ getW) (bind_eval _ getP).
rewrite bind_lift (dot21_vdot rect_W sz_y).
rewrite bind_lift (dot21_vdot rect_P) ?size_vdot //.
rewrite bind_lift (dot21_vdot rect_Wt) ?size_vdot ?(rect_size rect_P) //.
rewrite (bind_eval _ getE) bind_lift (dot21_vdot rect_P sz_E).
rewrite bind_lift (dot21_vdot rect_Wt) ?size_vdot ?(rect_size rect_P) //.
rewrite bind_lift /vadd bcast1_same ?size_map //.
have Pv' : Pv s' = Some P by rewrite Pv_converted.
have gm' : gv_mean s' = Some m by rewrite /s' /converted /= /rebuilt; case: ifP.
have [g [grad rect_g]] := gv_grad_ok T_gt0 rect_y Pv' gm' rect_Pv sz_m.
rewrite (bind_eval _ grad) bind_lift.
set grad_y := mkseq _ _.
have sz_gy : size (vscale omega grad_y) = size (flatten g).
  rewrite size_map size_mkseq size_iota nc_W.
  by rewrite (size_flatten_rect rect_g) mulnC.
rewrite (bcast1_same _ sz_gy).
set grad1 := mkseq _ _.
have sz_g1 : size grad1 = (T * D)%N.
  by rewrite size_mkseq (size_flatten_rect rect_g).
rewrite bind_lift (reshape_ok sz_g1) /lift.
have /reshape_rect[rect_g2 _] := reshape_ok sz_g1.
set grad2 := mkseq _ T in rect_g2 *.
have rect_s : rect T D (mscale lr grad2).
  by apply: rect_map rect_g2 _ => r sz_row; rewrite size_map.
rewrite /madd (bcast2_same _ rect_y rect_s).
eexists; split; first by [].
by apply: rect_mkseq => i _; rewrite size_mkseq.
Qed.

Lemma iterate_ok K D (self : TrajectoryGMMMap) (src : mat) omega lr
    (P : mat) (m : vec) n (y : mat) :
  ready K D self -> (0 < D)%N -> (0 < size src)%N -> solvable D self src ->
  Pv self = Some P -> rect D D P -> gv_mean self = Some m -> size m = D ->
  rect (size src) D y ->
  let s' := converted D self src in
  exists y', iterate n (gv_step (size src) D omega lr) y s' = (Ok y', s')
             /\ rect (size src) D y'.
Proof.
move=> rdy D_gt0 T_gt0 ok eq_Pv rect_Pv eq_m sz_m rect_y s'.
elim: n y rect_y => [|n IH] y rect_y /=; first by exists y.
have [y1 [run rect_y1]] :=
  gv_step_ok omega lr rdy D_gt0 T_gt0 ok eq_Pv rect_Pv eq_m sz_m rect_y.
by rewrite (bind_eval _ run); apply: IH.
Qed.

Lemma shape_trajectory K D (self : TrajectoryGMMMap) (src : mat) :
  ready K D self -> (0 < D)%N -> (0 < size src)%N -> solvable D self src ->
  let y := trajectory D self src in
  [/\ rect (size src) D y, size y = size src & ncols y = D].
Proof.
move=> rdy D_gt0 T_gt0 ok y.
have [_ _ _ sz_A _] := flatten_trajectory rdy D_gt0 T_gt0 ok.
have sz_v : size (solution (system_of D self src) (rhs_of D self src))
            = (size src * D)%N by rewrite size_solution.
have /reshape_rect[rect_y _] := reshape_ok sz_v.
by split=> //; [exact: rect_size rect_y | exact: rect_ncols_pos rect_y T_gt0].
Qed.

(** C9.  With a learning rate of zero the passes of [convert_with_gv] add
    zero to the trajectory.
    - Whenever [convert_with_gv] returns a trajectory with a learning
      rate of zero, whatever the number of passes, [convert] returns on
      the same frames and on the same instance, and returns that
      trajectory.
    - On an instance for static width [D] with a model of the global
      variance of width [D], when [convert] returns [y] on the frames,
      every pass runs and [convert_with_gv] returns [y], whatever the
      number of passes, and leaves the instance as [convert] leaves
      it. *)
Theorem zero_learning_rate :
  (forall (src : mat) (n : nat) (self : TrajectoryGMMMap) (y' : mat)
          (s' : TrajectoryGMMMap),
     convert_with_gv src n 0 self = (Ok y', s') ->
     exists s1, convert src self = (Ok y', s1))
  /\ (forall K D (self : TrajectoryGMMMap) (src : mat) (n : nat)
             (P : mat) (m : vec) (y : mat) (s' : TrajectoryGMMMap),
        ready K D self -> (0 < K)%N -> (0 < D)%N -> (0 < size src)%N ->
        frames (size src) (2 * D) src ->
        Pv self = Some P -> rect D D P -> gv_mean self = Some m ->
        size m = D ->
        convert src self = (Ok y, s') ->
        convert_with_gv src n 0 self = (Ok y, s')).
Proof.
split=> [src n self y' s'|K D self src n P m y s'].
  rewrite /convert_with_gv => H; case: (bind_ok H) => {H} y [s1 [conv]].
  by move/(iterate_zero (convert_rect conv)) => ->; exists s1.
move=> rdy K_gt0 D_gt0 T_gt0 fr eq_P rect_P eq_m sz_m conv.
have [ok eq_y eq_s] := convert_inv rdy K_gt0 D_gt0 T_gt0 fr conv.
have [rect_y sz_y nc_y] := shape_trajectory rdy D_gt0 T_gt0 ok.
rewrite /convert_with_gv (bind_eval _ conv) eq_y sz_y nc_y eq_s.
have [y1 [run _]] :=
  iterate_ok (1 / (2 * (size src)%:R)) 0 n rdy D_gt0 T_gt0 ok eq_P rect_P
    eq_m sz_m rect_y.
by rewrite run (iterate_zero rect_y run).
Qed.

(** ** No [AttributeError] with a model of the global variance *)

Lemma noattr_rbind (A B : Type) (c : res A) (k : A -> res B) :
  noattr c -> (forall a, noattr (k a)) -> noattr (rbind c k).
Proof. by case: c => [a _ ok_k|e ok_e _] //=. Qed.

Lemma noattr_foldM (A I : Type) (body : I -> A -> res A) rng acc :
  (forall i a, noattr (body i a)) -> noattr (foldM body rng acc).
Proof.
move=> ok_b; elim: rng acc => [|i rng IH] acc //=.
exact: noattr_rbind.
Qed.

Lemma noattr_getitem (A : Type) (s : seq A) i : noattr (getitem s i).
Proof. by rewrite /getitem; case: drop. Qed.

Lemma noattr_bcast1 op (u v : vec) : noattr (bcast1 op u v).
Proof. by rewrite /bcast1; case: bdim. Qed.

Lemma noattr_bcast2 op (a b : mat) : noattr (bcast2 op a b).
Proof. by rewrite /bcast2; case: bdim => [m|] //; case: bdim. Qed.

Lemma noattr_setrow (E : mat) m (v : vec) : noattr (setrow E m v).
Proof.
by apply: noattr_rbind => [|row]; [exact: noattr_getitem | case: ifP].
Qed.

Lemma noattr_setslice (D_ : ten) m (a : mat) : noattr (setslice D_ m a).
Proof.
by apply: noattr_rbind => [|row]; [exact: noattr_getitem | case: ifP].
Qed.

Lemma noattr_dot21 (a : mat) (v : vec) : noattr (dot21 a v).
Proof. by rewrite /dot21; case: ifP. Qed.

Lemma noattr_dot22 (a b : mat) : noattr (dot22 a b).
Proof. by rewrite /dot22; case: ifP. Qed.

Lemma noattr_solve1 (a : mat) (b : vec) : noattr (linalg_solve1 a b).
Proof. by rewrite /linalg_solve1; do ![case: ifP => // _]. Qed.

Lemma noattr_solve2 (a b : mat) : noattr (linalg_solve2 a b).
Proof. by rewrite /linalg_solve2; do ![case: ifP => // _]. Qed.

Lemma noattr_inv (a : mat) : noattr (linalg_inv a).
Proof. by rewrite /linalg_inv; do ![case: ifP => // _]. Qed.

Lemma noattr_spsolve (a : mat) (b : vec) : noattr (spsolve a b).
Proof. by rewrite /spsolve; do ![case: ifP => // _]. Qed.

Lemma noattr_reshape m n (v : vec) : noattr (reshape m n v).
Proof. by rewrite /reshape; case: ifP. Qed.

Lemma noattr_setcols (w : mat) c0 c1 (b : mat) : noattr (setcols w c0 c1 b).
Proof. by rewrite /setcols; case: ifP. Qed.

Lemma noattr_vstack (a b : mat) : noattr (vstack a b).
Proof. by rewrite /vstack; case: ifP. Qed.

Lemma noattr_factored n (cv : mat) : noattr (factored n cv).
Proof. by case fac: (factored n cv) => [c|e] //; rewrite (factored_exn fac). Qed.

Lemma noattr_predict_proba (g : GMM) (X : mat) : noattr (predict_proba g X).
Proof.
rewrite /predict_proba; do 2![case: ifP => // _].
apply: noattr_rbind => // ; apply: noattr_foldM => p cs.
by apply: noattr_rbind => //; apply: noattr_factored.
Qed.

Lemma noattr_predict (g : GMM) (X : mat) : noattr (predict g X).
Proof.
apply: noattr_rbind => [|post]; first exact: noattr_predict_proba.
by apply: noattr_foldM => r ks; apply: noattr_rbind => //; case: r.
Qed.

Ltac noattr :=
  repeat first
    [ apply: noattr_rbind => [|?] | exact: noattr_getitem
    | exact: noattr_bcast1 | exact: noattr_bcast2 | exact: noattr_setrow
    | exact: noattr_setslice | exact: noattr_dot21 | exact: noattr_dot22
    | exact: noattr_solve1 | exact: noattr_solve2 | exact: noattr_inv
    | exact: noattr_spsolve | exact: noattr_reshape | exact: noattr_setcols
    | exact: noattr_vstack | exact: noattr_predict | by []
    | case: ifP => _ ].











Lemma safe_post (S A : Type) (I J J' : S -> Prop) (c : M S A) :
  safe I c J -> (forall s, J s -> J' s) -> safe I c J'.
Proof.
by move=> safe_c JJ s /safe_c[ok_c post]; split=> // a /post/JJ.
Qed.


Section Safe.

Variable I : TrajectoryGMMMap -> bool.
Hypothesis I_gv : forall s, I s -> with_gv s.
Hypothesis I_W : forall W s, I s -> I (set_W W s).2.
Hypothesis I_E : forall E s, I s -> I (set_E E s).2.
Hypothesis I_D : forall D_ s, I s -> I (set_D D_ s).2.










End Safe.



Lemma with_gv_E E s : with_gv s -> with_gv (set_E E s).2.
Proof. by []. Qed.

Lemma with_gv_D D_ s : with_gv s -> with_gv (set_D D_ s).2.
Proof. by []. Qed.

Lemma with_E_W W s : with_E s -> with_E (set_W W s).2.
Proof. by rewrite /with_E /with_gv /= => /andP[/and3P[_ -> ->] ->]. Qed.











Lemma construct_W T D s u s' :
  construct_weight_matrix T D s = (Ok u, s') -> self_W s'.
Proof.
rewrite /construct_weight_matrix => H.
case: (bind_ok H) => {H} ? [s1 [_ H]].
case: (bind_ok H) => {H} W [s2 []]; rewrite /get_W => -[_ <-] H.
case: (bind_ok H) => {H} ? [s3 []]; rewrite /set_W /modify => -[_ <-].
by case: ifP => _; rewrite /ret /lift => // -[_ <-].
Qed.

(** The attributes that the constructor of the trajectory class assigns. *)
Lemma TrajectoryGMMMap_init_inv gmm T gv self :
  TrajectoryGMMMap_init gmm T gv false = Ok self ->
  [/\ GMMMap_init gmm false = Ok (base self), self_T self = T,
      self_W self : bool, self_E self = None
    & if gv is Some _ then with_gv self
      else [/\ gv_mean self = None, gv_covar self = None & Pv self = None]].
Proof.
rewrite /TrajectoryGMMMap_init; case: GMMMap_init => //= b.
set s0 := mkTrajectoryGMMMap _ _ _ _ _ _ _; set body := bind _ _.
case run: (body s0) => [[u|e] s1] // [<-]; move: run; rewrite /body => {body} H.
case: (bind_ok H) => {H} ? [s2 [cons H]].
have W2 := construct_W cons.
have fr2 : [/\ base s2 = b, self_T s2 = T, self_E s2 = None
              & [/\ gv_mean s2 = None, gv_covar s2 = None & Pv s2 = None]].
  pose P s := [/\ base s = b, self_T s = T, self_E s = None
                & [/\ gv_mean s = None, gv_covar s = None & Pv s = None]].
  have P_W : forall W s, P s -> P (set_W W s).2 by [].
  have := @preserves_construct P P_W T (ncols (means_ gmm) %/ 4) s0.
  by rewrite cons; apply.
case: fr2 => eq_b eq_T eq_E eq_gv.
case: gv H => [gv|] H; last by case: H => _ <-; split=> //; rewrite eq_b.
case: (bind_ok H) => {H} m [s3 []]; rewrite /lift => -[_ <-] H.
case: (bind_ok H) => {H} c [s4 []]; rewrite /lift => -[_ <-] H.
case: (bind_ok H) => {H} p [s5 []]; rewrite /lift => -[_ <-] [_ <-] /=.
by rewrite /with_gv /= W2 eq_b eq_T eq_E.
Qed.




(** ** Two instances *)

Lemma unit_map_init : GMMMap_init (standard 2) false = Ok unit_map.
Proof.
rewrite (@GMMMap_init_mx 1 1) ?fitted_standard //=.
by rewrite (regular_standard 1).
Qed.

Lemma unit_model_init :
  TrajectoryGMMMap_init (standard 4) 1 None false = Ok unit_model.
Proof.
have init_b : GMMMap_init (standard 4) false = Ok (base unit_model).
  rewrite (@GMMMap_init_mx 1 2) ?fitted_standard //=.
  by rewrite (regular_standard 2).
by rewrite (TrajectoryGMMMap_init_ok init_b).
Qed.

Lemma unit_model_ready : ready 1 1 unit_model.
Proof.
split; last by exists 1%N.
exact: (@split_of_split_at 1 2 (standard 4) _ (fitted_standard 4)).
Qed.

Lemma mix_one n (b : GMMMap) (src : mat) t :
  split_of 1 n b -> (t < size src)%N -> nth 0%N (mix b src) t = 0%N.
Proof.
move=> sp lt_t; have [] := mixP sp (ltn0Sn 0) lt_t.
by case: (nth _ _ _).
Qed.

Lemma unit_model_solvable : solvable 1 unit_model unit_frames.
Proof.
have [sp _] := unit_model_ready.
set b := base unit_model in sp.
have k0 : nth 0%N (mix b unit_frames) 0 = 0%N by exact: mix_one sp _.
have lt1 t : t \in iota 0 (size unit_frames) -> t = 0%N.
  by rewrite mem_iota add0n /= ltnS leqn0 => /eqP.
have eq_W : operator_of (size unit_frames) 1 unit_model = weight_matrix 1 1.
  by [].
have eq_P : precisions_of 1 b unit_frames = eye 2.
  rewrite /precisions_of /stacked_precisions /mkseq /= /precision k0.
  by rewrite (schur_standard 2) invmx1 of_mx1.
rewrite /solvable; apply/and5P; split.
- by have [] := density_model_pd sp (ltn0Sn 0) (positive_standard 2 _).
- by apply/allP=> t /lt1 ->; rewrite k0 (Sxx_standard 2) unitmx1.
- by apply/allP=> t /lt1 ->; rewrite k0 (schur_standard 2) unitmx1.
- by rewrite eq_W size_weight_matrix.
rewrite /system_of eq_W -/b eq_P.
have eq_A : system_matrix (weight_matrix 1 1) (eye 2) = [:: [:: 1]].
  rewrite /system_matrix /mdot /= /dot_vv /= !big_cons !big_nil /=.
  by rewrite !(mul0r, mulr0, mul1r, addr0).
rewrite eq_A /=.
have -> : mx_of 1 1 [:: [:: 1]] = 1%:M.
  by apply/matrixP=> i j; rewrite !ord1 !mxE.
exact: unitmx1.
Qed.

Lemma unit_model_convert :
  convert unit_frames unit_model
  = (Ok (trajectory 1 unit_model unit_frames),
     converted 1 unit_model unit_frames).
Proof.
exact: (convert_ok unit_model_ready _ _ _ _ unit_model_solvable).
Qed.

(** * Further properties of the program *)

Lemma iterate_gv_step_state n T D omega lr (y : mat) (s : TrajectoryGMMMap) :
  (iterate n (gv_step T D omega lr) y s).2 = s.
Proof.
apply: (@preserves_iterate (fun s' => s' = s)) => // y'.
exact: preserves_gv_step.
Qed.

(** X1.  The passes of the gradient ascent of [convert_with_gv] read the
    instance and never assign it: whatever the frames, the number of
    passes, the learning rate and the outcome, [convert_with_gv] leaves
    the instance exactly as [convert] leaves it on the same frames. *)
Theorem convert_with_gv_state (src : mat) n lr (self : TrajectoryGMMMap) :
  (convert_with_gv src n lr self).2 = (convert src self).2.
Proof.
rewrite /convert_with_gv /bind; case: (convert src self) => [[y|e] s1] //=.
exact: iterate_gv_step_state.
Qed.

(** X2.  [TrajectoryGMMMap.__init__] builds no instance for [T = 0]
    frames: the loop of the builder of the operator does not run, and the
    builder then reads the attribute [W], which nothing has assigned.
    When the constructor of the base class returns, the exception is
    [AttributeError]; otherwise it is the exception of the base class. *)
Theorem no_instance_for_zero_frames (gmm : GMM) (gv : option GMM) swap :
  TrajectoryGMMMap_init gmm 0 gv swap
  = if GMMMap_init gmm swap is Raise e then Raise e
    else Raise AttributeError.
Proof. by rewrite /TrajectoryGMMMap_init; case: GMMMap_init. Qed.

Lemma linalg_inv_ok (a p : mat) :
  linalg_inv a = Ok p ->
  [/\ rect (size a) (size a) a, mx_of (size a) (size a) a \in unitmx
    & p = of_mx (invmx (mx_of (size a) (size a) a))].
Proof.
rewrite /linalg_inv; case: ifP => // /negbFE rect_a.
by case: ifP => // unit_a [<-].
Qed.

Lemma dot22_inverse (a p : mat) :
  linalg_inv a = Ok p -> dot22 a p = Ok (eye (size a)).
Proof.
case/linalg_inv_ok=> rect_a unit_a ->.
case: (posnP (size a)) => [sz0|n_gt0].
  by move: rect_a unit_a; rewrite sz0 => /rect_nil ->.
rewrite (dot22_mxp rect_a (rect_of_mx _) n_gt0) of_mxK mulmxV //.
by rewrite of_mx1.
Qed.

(** X3.  When [TrajectoryGMMMap.__init__] returns for a model [gv] of the
    global variance, the instance holds the mean and the covariance of
    the first component of [gv], that covariance is square and regular,
    and the attribute [Pv] is its inverse: their product is the
    identity. *)
Theorem gv_model_stored (gmm : GMM) T (gv : GMM) (self : TrajectoryGMMMap) :
  TrajectoryGMMMap_init gmm T (Some gv) false = Ok self ->
  exists m c P,
    [/\ getitem (means_ gv) 0 = Ok m /\ gv_mean self = Some m,
        getitem (covars_ gv) 0 = Ok c /\ gv_covar self = Some c,
        Pv self = Some P, linalg_inv c = Ok P
      & dot22 c P = Ok (eye (size c))].
Proof.
rewrite /TrajectoryGMMMap_init; case: GMMMap_init => //= b.
set s0 := mkTrajectoryGMMMap _ _ _ _ _ _ _; set body := bind _ _.
case run: (body s0) => [[u|e] s1] // [<-]; move: run; rewrite /body => H.
case: (bind_ok H) => {H} ? [s2 [_ H]].
case: (bind_ok H) => {H} m [s3 []]; rewrite /lift => -[get_m <-] H.
case: (bind_ok H) => {H} c [s4 []]; rewrite /lift => -[get_c <-] H.
case: (bind_ok H) => {H} p [s5 []]; rewrite /lift => -[inv_c <-] [_ <-] /=.
by exists m, c, p; split=> //; apply: dot22_inverse.
Qed.

(** X4.  The component that [TrajectoryGMMMap.convert] selects for a
    frame is the first one of greatest posterior probability, among the
    posteriors that [predict_proba] computes: every component of lower
    index has a posterior probability that is strictly less. *)
Theorem selection_prefers_lowest_index K n (gmm : GMM) (b : GMMMap)
    (src : mat) (ks : seq nat) :
  fitted K (n + n) gmm -> (0 < K)%N -> (0 < n)%N ->
  GMMMap_init gmm false = Ok b -> frames (size src) n src ->
  predict (px b) src = Ok ks ->
  forall t j, (t < size src)%N -> (j < nth 0%N ks t)%N ->
    let p := responsibilities (density_model (px b)) (nth [::] src t) in
    nth 0 p j < nth 0 p (nth 0%N ks t).
Proof.
move=> fit K_gt0 n_gt0 init_b fr pred t j lt_t; cbv zeta.
have [_ sp _] := GMMMap_init_inv fit K_gt0 n_gt0 init_b.
have T_gt0 : (0 < size src)%N by exact: leq_ltn_trans lt_t.
move: pred; rewrite (predict_mx sp K_gt0 T_gt0 n_gt0 fr).
case: ifP => // _ [<-] lt_j.
have [_ _ first_k] := mixP sp K_gt0 lt_t.
exact: first_k.
Qed.

(** X5.  What [GMMMap.__init__] stores for a mixture of [K] components
    of joint width [n + n] when it returns: the weights of the mixture;
    the first and the second half of each mean; the four quadrants of
    each covariance as the blocks [Sxx], [Sxy], [Syx] and [Syy]; in the
    attribute [D], for each component, the residual covariance
    [Syy - Syx Sxx^-1 Sxy], every block [Sxx] being regular; and the
    source marginal made of the source means, the blocks [Sxx] and the
    weights. *)
Theorem constructor_splits_quadrants K n (gmm : GMM) (self : GMMMap) :
  fitted K (n + n) gmm -> (0 < K)%N -> (0 < n)%N ->
  GMMMap_init gmm false = Ok self ->
  [/\ num_mixtures self = K /\ weights self = weights_ gmm,
      forall k i, (k < K)%N -> (i < n)%N ->
        nth 0 (nth [::] (src_means self) k) i
        = nth 0 (nth [::] (means_ gmm) k) i
        /\ nth 0 (nth [::] (tgt_means self) k) i
           = nth 0 (nth [::] (means_ gmm) k) (n + i),
      forall k (i j : 'I_n), (k < K)%N ->
        let c := nth [::] (covars_ gmm) k in
        [/\ Sxx n self k i j = nth 0 (nth [::] c i) j,
            Sxy n self k i j = nth 0 (nth [::] c i) (n + j),
            Syx n self k i j = nth 0 (nth [::] c (n + i)) j
          & Syy n self k i j = nth 0 (nth [::] c (n + i)) (n + j)],
      exists D_, [/\ self_D self = Arr3 D_, size D_ = K
        & forall k, (k < K)%N ->
            Sxx n self k \in unitmx
            /\ nth [::] D_ k = of_mx (schur n self k)]
    & px self = mkGMM (src_means self) (covarXX self) (weights self)].
Proof.
move=> fit K_gt0 n_gt0 init_b.
have [eq_b sp reg] := GMMMap_init_inv fit K_gt0 n_gt0 init_b.
case/fittedP: (fit) => r_m [sz_c r_c] _ _ _.
case/split_ofP: (sp) => nm _ _ _ eq_px; split=> //.
- by split=> //; rewrite eq_b.
- move=> k i lt_k lt_i; rewrite eq_b /=.
  rewrite !(nth_map [::]) ?(rect_size r_m) //.
  by rewrite nth_take // nth_drop.
- move=> k i j lt_k c.
  have rect_c : rect (n + n) (n + n) c by apply/r_c/mem_nth; rewrite sz_c.
  have [xx xy yx yy] := quadrants i j rect_c.
  rewrite /Sxx /Sxy /Syx /Syy /blk eq_b /=.
  by rewrite !(nth_map [::]) ?sz_c.
exists (residuals K n self); split; first by rewrite {1}eq_b.
  by rewrite size_mkseq.
move=> k lt_k; split; first exact: (regularP _ _ _ reg).
by rewrite nth_mkseq.
Qed.

Lemma conditional_mean_width K n (b : GMMMap) k (x : vec) :
  split_of K n b -> (k < K)%N -> Sxx n b k \in unitmx -> size x != n ->
  conditional_mean b k x = Raise ValueError
  \/ size x = 1%N /\ exists2 e, conditional_mean b k x = Ok e & size e = n.
Proof.
case/split_ofP=> _ _ [r_s r_t] [s_xx _ s_yx _] _ lt_k unit_k ne_x.
rewrite /conditional_mean.
rewrite !(getitem_nth [::]) ?(stack_size s_xx) ?(rect_size r_s)
  ?(stack_size s_yx) ?(rect_size r_t) //=.
have sz_mu := rect_row r_s lt_k.
rewrite /vsub /bcast1 /bdim sz_mu (negbTE ne_x).
case: (eqVneq (size x) 1%N) => [sz_x|ne_1] /=; last first.
  left; case: ifP => //= /eqP n1.
  rewrite /linalg_solve1 (rect_size (stack_nth s_xx lt_k)).
  by rewrite (stack_nth s_xx lt_k) /= size_mkseq ne_x.
right; split=> //.
set d := mkseq _ n; have sz_d : size d = n by rewrite size_mkseq.
rewrite (linalg_solve1_mx (stack_nth s_xx lt_k) sz_d) -/(blk n _ k) -/(Sxx n b k).
rewrite unit_k /= (dot21_mx (stack_nth s_yx lt_k)) ?size_of_cv //=.
rewrite (@vadd_cv n) ?(rect_row r_t) ?size_of_cv //.
by eexists; first by []; rewrite size_of_cv.
Qed.

(** X6.  On an instance built for a mixture of joint width [n + n],
    [GMMMap.convert] raises [ValueError] for every input whose width is
    not [n], and leaves the instance as it is. *)
Theorem frame_conversion_rejects_other_widths K n (gmm : GMM) (self : GMMMap)
    (x : vec) :
  fitted K (n + n) gmm -> (0 < K)%N -> (0 < n)%N ->
  GMMMap_init gmm false = Ok self -> size x != n ->
  GMMMap_convert x self = (Raise ValueError, self).
Proof.
move=> fit K_gt0 n_gt0 init_b ne_x.
have [_ sp reg] := GMMMap_init_inv fit K_gt0 n_gt0 init_b.
case/split_ofP: (sp) => nm _ _ _ _.
rewrite /GMMMap_convert bind_gets bind_lift /conditional_means nm.
case: K K_gt0 sp reg nm {fit} => // K _ sp reg nm /=.
have unit_0 := regularP _ _ _ reg 0%N (ltn0Sn K).
case: (conditional_mean_width sp (ltn0Sn K) unit_0 ne_x) => [->|] //.
case=> sz_x [e -> sz_e] /=.
rewrite /setrow /= size_nseq sz_x sz_e.
by rewrite -sz_x eq_sym (negbTE ne_x).
Qed.

(** X7.  The conversions never assign the attributes of the model of the
    global variance: whatever the frames and the outcome, the mean, the
    covariance and the attribute [Pv] are after [convert] and after
    [convert_with_gv] what they were before. *)
Theorem conversions_keep_gv_model (src : mat) n lr (self : TrajectoryGMMMap) :
  let s1 := (convert src self).2 in
  let s2 := (convert_with_gv src n lr self).2 in
  [/\ gv_mean s1 = gv_mean self, gv_covar s1 = gv_covar self,
      Pv s1 = Pv self
    & [/\ gv_mean s2 = gv_mean self, gv_covar s2 = gv_covar self
        & Pv s2 = Pv self]].
Proof.
move=> s1 s2; have [eq_m eq_c eq_P] := convert_gv_model src self.
have eq_s : s2 = s1.
  rewrite /s2 /s1 /convert_with_gv /bind.
  case: (convert src self) => [[y|e] s0] //=.
  exact: iterate_gv_step_state.
by split=> //; rewrite eq_s.
Qed.

(** X8.  On an instance whose operator is that of [T1 >= 1] frames of
    static width [D >= 1] and whose cached length is not zero, as the
    constructor builds it, [convert] on an empty sequence of frames
    raises [AssertionError], from the builder of the operator, and
    leaves the instance as it is. *)
Theorem convert_rejects_no_frames T1 D (self : TrajectoryGMMMap) :
  self_W self = Some (weight_matrix T1 D) -> (0 < T1)%N -> (0 < D)%N ->
  self_T self != 0%N ->
  convert [::] self = (Raise AssertionError, self).
Proof.
move=> eq_W T1_gt0 D_gt0 ne_T.
rewrite /convert /= bind_gets eq_sym ne_T.
have pos : (0 < 2 * D * T1)%N by rewrite !muln_gt0 D_gt0.
rewrite /construct_weight_matrix /= /bind /get_W /= eq_W /=.
rewrite /shape !muln0 xpair_eqE size_weight_matrix (gtn_eqF pos) /=.
by case: self eq_W {ne_T} => b T0 W E m c P /= ->.
Qed.

Lemma base_converted D (self : TrajectoryGMMMap) (src : mat) :
  let b := base self in
  base (converted D self src)
  = mkGMMMap (num_mixtures b) (weights b) (src_means b) (tgt_means b)
      (covarXX b) (covarXY b) (covarYX b) (covarYY b)
      (Arr2 (precisions_of D b src)) (px b).
Proof. by rewrite /converted /= base_rebuilt. Qed.

Lemma self_W_converted D (self : TrajectoryGMMMap) (src : mat) :
  self_W (converted D self src) = self_W (rebuilt (size src) D self).
Proof. by []. Qed.

Lemma self_T_converted D (self : TrajectoryGMMMap) (src : mat) :
  self_T (converted D self src) = self_T self.
Proof. by rewrite /converted /= self_T_rebuilt. Qed.

Lemma ready_converted K D (self : TrajectoryGMMMap) (src : mat) :
  ready K D self -> (0 < D)%N -> solvable D self src ->
  ready K D (converted D self src)
  /\ self_W (converted D self src) = Some (weight_matrix (size src) D).
Proof.
move=> rdy D_gt0 /and5P[_ _ _ fit_W _]; case: (rdy) => sp [T1 eq_W].
have eq_W' : self_W (converted D self src) = Some (weight_matrix (size src) D).
  rewrite self_W_converted (self_W_rebuilt _ _ eq_W).
  by rewrite (operator_of_fit rdy D_gt0 fit_W).
split=> //; split; last by exists (size src).
by rewrite base_converted.
Qed.

Lemma gv_converted D (self : TrajectoryGMMMap) (src : mat) :
  let s' := converted D self src in
  [/\ gv_mean s' = gv_mean self, gv_covar s' = gv_covar self
    & Pv s' = Pv self].
Proof. by rewrite /converted /= /rebuilt; case: ifP. Qed.

Lemma instance_eq (s t : TrajectoryGMMMap) :
  base s = base t -> self_T s = self_T t -> self_W s = self_W t ->
  self_E s = self_E t -> gv_mean s = gv_mean t ->
  gv_covar s = gv_covar t -> Pv s = Pv t -> s = t.
Proof.
by case: s t => [? ? ? ? ? ? ?] [? ? ? ? ? ? ?] /= -> -> -> -> -> -> ->.
Qed.

(** X9.  The operator that a call of [convert] has rebuilt for another
    length stays in the instance, and the cached length stays the old
    one.  So after [convert] has returned on frames whose number differs
    from the cached length, [convert] on frames whose number is the
    cached length does not rebuild the operator and does not return: it
    raises an exception. *)
Theorem stale_operator K D (self : TrajectoryGMMMap) (src src0 : mat) y s' :
  ready K D self -> (0 < K)%N -> (0 < D)%N -> (0 < size src)%N ->
  frames (size src) (2 * D) src -> convert src self = (Ok y, s') ->
  size src != self_T self -> size src0 = self_T self ->
  (0 < size src0)%N -> frames (size src0) (2 * D) src0 ->
  exists e s'', convert src0 s' = (Raise e, s'').
Proof.
move=> rdy K_gt0 D_gt0 T_gt0 fr conv ne_T eq_T0 T0_gt0 fr0.
have [ok _ ->] := convert_inv rdy K_gt0 D_gt0 T_gt0 fr conv.
have [rdy' eq_W'] := ready_converted rdy D_gt0 ok.
have := convert_cases rdy' K_gt0 D_gt0 T0_gt0 fr0.
have -> // : solvable D (converted D self src) src0 = false.
apply/negbTE/negP=> /and5P[_ _ _ + _].
rewrite /operator_of /rebuilt self_T_converted eq_T0 eqxx /= eq_W' /=.
rewrite size_weight_matrix eqn_pmul2l ?muln_gt0 //.
by rewrite (negbTE ne_T).
Qed.

(** X10.  The attributes that [convert] overwrites do not enter a later
    call: when [convert] returns a trajectory on some frames and is
    called again on the same frames, on the instance that the first call
    has left, it returns the same trajectory and leaves the same
    instance. *)
Theorem convert_twice K D (self : TrajectoryGMMMap) (src : mat) y s' :
  ready K D self -> (0 < K)%N -> (0 < D)%N -> (0 < size src)%N ->
  frames (size src) (2 * D) src -> convert src self = (Ok y, s') ->
  convert src s' = (Ok y, s').
Proof.
move=> rdy K_gt0 D_gt0 T_gt0 fr conv.
have [ok -> ->] := convert_inv rdy K_gt0 D_gt0 T_gt0 fr conv.
have [rdy' eq_W'] := ready_converted rdy D_gt0 ok.
set s1 := converted D self src in rdy' eq_W' *.
have eq_b := base_converted D self src.
have [eq_W _ _ _ _] := flatten_trajectory rdy D_gt0 T_gt0 ok.
have eq_op : operator_of (size src) D s1 = operator_of (size src) D self.
  by rewrite eq_W /operator_of /rebuilt; case: ifP => _ //=; rewrite eq_W'.
have eq_sys : system_of D s1 src = system_of D self src.
  by rewrite /system_of eq_op -/s1 eq_b.
have eq_rhs : rhs_of D s1 src = rhs_of D self src.
  by rewrite /rhs_of eq_op -/s1 eq_b.
have ok' : solvable D s1 src.
  by move: ok; rewrite /solvable eq_sys eq_op -/s1 eq_b.
have eq_y : trajectory D s1 src = trajectory D self src.
  by rewrite /trajectory eq_sys eq_rhs.
have eq_s : converted D s1 src = s1.
  apply: instance_eq.
  - by rewrite base_converted -/s1 eq_b.
  - by rewrite self_T_converted.
  - rewrite self_W_converted (self_W_rebuilt _ _ eq_W') eq_op eq_W.
    by rewrite eq_W'.
  - by rewrite !self_E_converted -/s1 eq_b.
  - by have [-> _ _] := gv_converted D s1 src.
  - by have [_ -> _] := gv_converted D s1 src.
  - by have [_ _ ->] := gv_converted D s1 src.
by rewrite (convert_ok rdy' K_gt0 D_gt0 T_gt0 fr ok') eq_y eq_s.
Qed.

Lemma sum_nseq (A : Type) n (a : A) (F : A -> R) :
  \sum_(r <- nseq n a) F r = F a *+ n.
Proof.
elim: n => [|n IH] /=; first by rewrite big_nil mulr0n.
by rewrite big_cons IH mulrS.
Qed.

Lemma mean0_nseq T (row : vec) : (0 < T)%N -> mean0 (nseq T row) = row.
Proof.
case: T => // T _; rewrite /mean0 size_nseq /ncols /=.
apply: (@eq_from_nth _ 0); first by rewrite size_mkseq.
move=> j; rewrite size_mkseq => lt_j; rewrite nth_mkseq //.
rewrite -[row :: _]/(nseq T.+1 row) sum_nseq -mulr_natr mulfK //.
by rewrite pnatr_eq0.
Qed.

(** X11.  With a model of the global variance whose inverse covariance
    [Pv] is square of the width of the frames and whose mean has that
    width, the gradient [__gv_grad] of a trajectory of [T >= 1] equal
    frames is zero at every frame: each frame equals the mean frame. *)
Theorem gv_grad_of_equal_frames T (row : vec) (self : TrajectoryGMMMap)
    (P : mat) (m : vec) :
  (0 < T)%N -> Pv self = Some P -> gv_mean self = Some m ->
  rect (size row) (size row) P -> size m = size row ->
  gv_grad (nseq T row) self = (Ok (zeros2 T (size row)), self).
Proof.
move=> T_gt0 eq_P eq_m rect_P sz_m; set D := size row in rect_P sz_m *.
rewrite /gv_grad eq_P eq_m size_nseq (mean0_nseq row T_gt0).
have nc_y : ncols (nseq T row) = D by case: (T) T_gt0.
rewrite nc_y; congr (_, _).
set body := (X in foldM X).
have step i : (i < T)%N ->
    body i (zeros2 T D) = if xpredT i then Ok (zeros2 T D) else Raise ValueError.
  move=> lt_i; rewrite /body /=.
  have sz_v : size (var0 (nseq T row)) = D by rewrite size_mkseq nc_y.
  rewrite /vsub bcast1_same ?sz_v ?sz_m //=.
  have rect_Pt : rect D D (transpose P).
    by have := rect_transpose P; rewrite (rect_ncols_sq rect_P) (rect_size rect_P).
  rewrite (dot21_vdot rect_Pt) ?size_mkseq //=.
  rewrite (getitem_nth [::]) ?size_nseq //= nth_nseq lt_i.
  rewrite bcast1_same //= /vmul bcast1_same.
    by rewrite size_map size_vdot (rect_size rect_Pt) size_mkseq.
  rewrite /= size_mkseq setrow_same ?size_nseq //.
    by rewrite size_mkseq nth_nseq lt_i size_nseq.
  congr Ok; apply: (@eq_from_nth _ [::]).
    by rewrite size_set_nth size_nseq; apply/maxn_idPr.
  move=> j; rewrite size_set_nth size_nseq (maxn_idPr lt_i) => lt_j.
  rewrite nth_set_nth /= nth_nseq lt_j; case: eqP => // _.
  apply: (@eq_from_nth _ 0); first by rewrite size_mkseq size_nseq.
  move=> k; rewrite size_mkseq => lt_k.
  by rewrite nth_mkseq // nth_mkseq // subrr mulr0 nth_nseq lt_k.
by rewrite (@foldM_iota_cond _ body xpredT (fun=> zeros2 T D) ValueError T step)
      all_predT.
Qed.

Lemma pick_sum n (F : nat -> R) i (c : bool) :
  (c -> (i < n)%N) ->
  \sum_(j < n) (if c && (j == i :> nat) then F j else 0) = if c then F i else 0.
Proof.
case: c => /= [/(_ isT) lt_i|_]; last by rewrite big1.
by rewrite -big_mkcond /= (big_pred1 (Ordinal lt_i)).
Qed.

(** X12.  What the consistency operator does to a trajectory [y] of [T]
    frames of width [D], as [convert_with_gv] applies it: in row-block
    [t] the static part of [W y] is frame [t], and the delta part is half
    the difference of frame [t + 1] and frame [t - 1], where a frame
    before the first or after the last counts as zero. *)
Theorem operator_computes_deltas T D (y : mat) :
  rect T D y ->
  exists z,
    [/\ dot21 (weight_matrix T D) (flatten y) = Ok z, size z = (2 * D * T)%N
      & forall t r, (t < T)%N -> (r < D)%N ->
          nth 0 z (2 * D * t + r) = nth 0 (nth [::] y t) r
          /\ nth 0 z (2 * D * t + D + r)
             = (if (t + 1 < T)%N then nth 0 (nth [::] y t.+1) r else 0) / 2
               - (if (1 <= t)%N then nth 0 (nth [::] y t.-1) r else 0) / 2].
Proof.
move=> rect_y; set W := weight_matrix T D; set v := flatten y.
have sz_v : size v = (D * T)%N by rewrite (size_flatten_rect rect_y) mulnC.
have rect_W : rect (2 * D * T) (D * T) W := rect_weight_matrix T D.
exists (vdot W v); split; first exact: dot21_vdot rect_W sz_v.
  by rewrite size_vdot (rect_size rect_W).
have nth_v t r : (r < D)%N -> nth 0 v (t * D + r) = nth 0 (nth [::] y t) r.
  by case/andP: rect_y => _ all_y; apply: nth_flatten_blocks.
have lt_W t i : (t < T)%N -> (i < D + D)%N -> (2 * D * t + i < size W)%N.
  move=> lt_t lt_i; rewrite (rect_size rect_W).
  apply: (@leq_trans (2 * D * t.+1)); last by rewrite leq_mul2l lt_t orbT.
  by rewrite mulnS [(2 * D * t + i)%N]addnC ltn_add2r mul2n -addnn.
have row_W t i : (t < T)%N -> (i < D + D)%N ->
    nth 0 (vdot W v) (2 * D * t + i)
    = \sum_(j < D * T) nth 0 (nth [::] (weight_block T D t) i) j * nth 0 v j.
  move=> lt_t lt_i; rewrite (nth_map [::]) ?lt_W //.
  rewrite (@dot_vvE (D * T)) ?(rect_row rect_W) ?nth_weight_matrix //.
  by rewrite -(rect_size rect_W) lt_W.
move=> t r lt_t lt_r.
have lt_ix u : (u < T)%N -> (u * D + r < D * T)%N.
  move=> lt_u; apply: (@leq_trans (u.+1 * D)).
    by rewrite mulSn addnC ltn_add2r.
  by rewrite mulnC leq_mul2l lt_u orbT.
split.
  rewrite row_W ?ltn_addr // /weight_block nth_cat size_mkseq lt_r nth_mkseq //.
  have lt_i := lt_ix t lt_t.
  rewrite -nth_v // -[RHS](@pick_sum (D * T) (nth 0 v) _ true) //.
  apply: eq_bigr => j _; rewrite /static_row nth_mkseq //=.
  by case: eqP => _; rewrite ?mul1r ?mul0r.
rewrite -addnA row_W ?ltn_add2l // /weight_block nth_cat size_mkseq.
rewrite ltnNge leq_addr /= addKn nth_mkseq //.
have lt_a : (1 <= t)%N -> ((t - 1) * D + r < D * T)%N.
  by move=> _; apply: lt_ix; apply: leq_ltn_trans lt_t; apply: leq_subr.
have lt_b : (t + 1 < T)%N -> ((t + 1) * D + r < D * T)%N by exact: lt_ix.
have -> : t.+1 = (t + 1)%N by rewrite addn1.
have -> : t.-1 = (t - 1)%N by rewrite subn1.
rewrite -!nth_v //.
rewrite -[X in X / 2](pick_sum (nth 0 v) lt_b).
rewrite -[X in _ - X / 2](pick_sum (nth 0 v) lt_a).
rewrite !mulr_suml -sumrB; apply: eq_bigr => j _.
rewrite /delta_row nth_mkseq //.
case: (1 <= t)%N; case: (t + 1 < T)%N => /=;
  do ?[case: eqP => [eq_a|_]]; rewrite ?mul0r ?subr0 ?sub0r ?mulNr 1?mulrC //.
case: eqP => [eq_b|_]; last by rewrite mul0r sub0r.
move: eq_b; rewrite eq_a => /eqP.
rewrite eqn_add2r eqn_pmul2r ?(leq_ltn_trans _ lt_r) // => /eqP eq_t.
by nat_lia.
Qed.

(** ** Further instances *)

Lemma gv_model_init :
  TrajectoryGMMMap_init (standard 4) 1 (Some (standard 1)) false = Ok gv_model.
Proof.
have init_b : GMMMap_init (standard 4) false = Ok (base unit_model).
  rewrite (@GMMMap_init_mx 1 2) ?fitted_standard //=.
  by rewrite (regular_standard 2).
rewrite /TrajectoryGMMMap_init init_b /=.
rewrite (bind_eval _ (construct_weight_matrix_ok _ _ (ltn0Sn 0))) /=.
rewrite bind_lift /= bind_lift /= bind_lift (linalg_inv_mx (rect_eye 1)).
rewrite mx_of_eye.
by rewrite unitmx1 invmx1 of_mx1.
Qed.

Lemma gv_model_ready : ready 1 1 gv_model.
Proof. by have [sp _] := unit_model_ready; split=> //; exists 1%N. Qed.

Lemma gv_model_solvable : solvable 1 gv_model unit_frames.
Proof. exact: unit_model_solvable. Qed.

Lemma gv_model_convert :
  convert unit_frames gv_model
  = (Ok (trajectory 1 gv_model unit_frames),
     converted 1 gv_model unit_frames).
Proof.
exact: (convert_ok gv_model_ready _ _ _ _ gv_model_solvable).
Qed.

Lemma pair_model_init :
  TrajectoryGMMMap_init (standard 4) 2 None false = Ok pair_model.
Proof.
have init_b : GMMMap_init (standard 4) false = Ok (base unit_model).
  rewrite (@GMMMap_init_mx 1 2) ?fitted_standard //=.
  by rewrite (regular_standard 2).
by rewrite (TrajectoryGMMMap_init_ok init_b).
Qed.

Lemma pair_model_ready : ready 1 1 pair_model.
Proof. by have [sp _] := unit_model_ready; split=> //; exists 2%N. Qed.

Lemma pair_model_solvable : solvable 1 pair_model unit_frames.
Proof. exact: unit_model_solvable. Qed.

Lemma pair_model_convert :
  convert unit_frames pair_model
  = (Ok (trajectory 1 pair_model unit_frames),
     converted 1 pair_model unit_frames).
Proof.
exact: (convert_ok pair_model_ready _ _ _ _ pair_model_solvable).
Qed.

(** ** The factorisation of the covariances *)

Lemma madd_jitter n (cv : mat) :
  rect n n cv -> madd cv (mscale min_covar (eye n)) = Ok (jitter n cv).
Proof.
move=> rect_c.
have rect_e : rect n n (mscale min_covar (eye n)).
  by apply: rect_map (rect_eye n) _ => r sz_r; rewrite size_map.
rewrite /madd (bcast2_same _ rect_c rect_e); congr Ok.
apply: mkseq_ext => i lt_i; apply: mkseq_ext => j lt_j.
rewrite (nth_map [::]) ?(rect_size (rect_eye n)) //.
rewrite (nth_map 0) ?(rect_row (rect_eye n)) // nth_eye //.
by case: eqP => _; rewrite ?mulr1 ?mulr0.
Qed.

Lemma rect_jitter n (cv : mat) : rect n n (jitter n cv).
Proof. by apply: rect_mkseq => i _; rewrite size_mkseq. Qed.

Lemma factored_rect n (cv : mat) :
  rect n n cv ->
  factored n cv
  = if positive_definite cv then Ok cv
    else if positive_definite (jitter n cv) then Ok (jitter n cv)
    else Raise ValueError.
Proof.
move=> rect_c; have sz_c := rect_size rect_c.
rewrite /factored /cholesky sz_c rect_c /=.
case: ifP => _ /=; first by rewrite sz_c eqxx.
rewrite (madd_jitter rect_c) /= (rect_size (rect_jitter n cv)) rect_jitter /=.
by case: ifP => _ //=; rewrite (rect_size (rect_jitter n cv)) eqxx.
Qed.

Lemma admissibleP K n (b : GMMMap) :
  split_of K n b -> (0 < K)%N ->
  admissible (px b)
  = all (fun cv => positive_definite cv || positive_definite (jitter n cv))
        (covarXX b).
Proof.
move=> sp K_gt0.
case/split_ofP: (sp) => _ _ [r_s _] [/andP[_ /allP rect_xx] _ _ _] eq_px.
rewrite /admissible eq_px /= (rect_ncols_pos r_s K_gt0).
apply: eq_in_all => cv /rect_xx rect_c; rewrite (factored_rect rect_c).
by do 2![case: ifP => _ //].
Qed.

(** X13.  On an instance built for a mixture of joint width [n + n],
    when some source block [Sxx] is not positive definite, also with
    [min_covar] added to its diagonal, [GMMMap.convert] raises
    [ValueError] for every input of width [n]: scikit-learn does not
    compute the posteriors.  The instance is left as it is. *)
Theorem frame_conversion_rejects_indefinite K n (gmm : GMM) (self : GMMMap)
    (x : vec) k :
  fitted K (n + n) gmm -> (0 < K)%N -> (0 < n)%N ->
  GMMMap_init gmm false = Ok self -> size x = n -> (k < K)%N ->
  let cv := nth [::] (covarXX self) k in
  ~~ positive_definite cv -> ~~ positive_definite (jitter n cv) ->
  GMMMap_convert x self = (Raise ValueError, self).
Proof.
move=> fit K_gt0 n_gt0 init_b sz_x lt_k cv not_pd not_pdj.
have [_ sp reg] := GMMMap_init_inv fit K_gt0 n_gt0 init_b.
rewrite (GMMMap_convert_mx sp K_gt0 n_gt0 sz_x) reg (admissibleP sp K_gt0).
case/split_ofP: (sp) => _ _ _ [s_xx _ _ _] _.
case: allP => // /(_ cv); rewrite (negbTE not_pd) (negbTE not_pdj) /=.
by move=> H; have := H (mem_nth _ _); rewrite (stack_size s_xx) => /(_ lt_k).
Qed.

(** X14.  On an instance for [K] components and static width [D], when
    some source block [Sxx] is not positive definite, also with
    [min_covar] added to its diagonal, [TrajectoryGMMMap.convert] on
    [T >= 1] frames of width [2 D] raises an exception, and so does
    [convert_with_gv], whatever the number of passes and the learning
    rate. *)
Theorem convert_rejects_indefinite K D (self : TrajectoryGMMMap) (src : mat)
    k :
  ready K D self -> (0 < K)%N -> (0 < D)%N -> (0 < size src)%N ->
  frames (size src) (2 * D) src -> (k < K)%N ->
  let cv := nth [::] (covarXX (base self)) k in
  ~~ positive_definite cv -> ~~ positive_definite (jitter (2 * D) cv) ->
  (exists e s', convert src self = (Raise e, s'))
  /\ forall n lr, exists e s', convert_with_gv src n lr self = (Raise e, s').
Proof.
move=> rdy K_gt0 D_gt0 T_gt0 fr lt_k cv not_pd not_pdj.
case: (rdy) => sp _.
have not_adm : admissible (px (base self)) = false.
  rewrite (admissibleP sp K_gt0).
  case/split_ofP: (sp) => _ _ _ [s_xx _ _ _] _.
  apply/negbTE/negP=> /allP/(_ cv).
  rewrite (negbTE not_pd) (negbTE not_pdj) /= => H.
  by have := H (mem_nth _ _); rewrite (stack_size s_xx) => /(_ lt_k).
have := convert_cases rdy K_gt0 D_gt0 T_gt0 fr.
rewrite /solvable not_adm /= => -[e [s' conv]].
split=> [|n lr]; first by exists e, s'.
by exists e, s'; rewrite /convert_with_gv (bind_raise _ conv).
Qed.

(** X15.  On an instance for static width [D] with a model of the global
    variance of width [D], whenever [convert] returns on the frames,
    [convert_with_gv] returns a trajectory of the same shape [(T, D)],
    whatever the number of passes and the learning rate, and leaves the
    instance as [convert] leaves it. *)
Theorem convert_with_gv_returns K D (self : TrajectoryGMMMap) (src : mat)
    (n : nat) (lr : R) (P : mat) (m : vec) (y : mat) s' :
  ready K D self -> (0 < K)%N -> (0 < D)%N -> (0 < size src)%N ->
  frames (size src) (2 * D) src ->
  Pv self = Some P -> rect D D P -> gv_mean self = Some m -> size m = D ->
  convert src self = (Ok y, s') ->
  exists y', convert_with_gv src n lr self = (Ok y', s')
             /\ rect (size src) D y'.
Proof.
move=> rdy K_gt0 D_gt0 T_gt0 fr eq_P rect_P eq_m sz_m conv.
have [ok eq_y eq_s] := convert_inv rdy K_gt0 D_gt0 T_gt0 fr conv.
have [rect_y sz_y nc_y] := shape_trajectory rdy D_gt0 T_gt0 ok.
rewrite /convert_with_gv (bind_eval _ conv) eq_y sz_y nc_y eq_s.
exact: (iterate_ok (1 / (2 * (size src)%:R)) lr n rdy D_gt0 T_gt0 ok eq_P
          rect_P eq_m sz_m rect_y).
Qed.

(** X16.  The instance that [TrajectoryGMMMap.__init__] builds for a
    mixture of [K >= 1] components of joint width [4 D], [D >= 1], is one
    that [convert] works on: the number of frames is at least 1 and is
    the cached length, the attributes are split at width [2 D], the
    operator is the consistency operator for that number of frames and
    static width [D], and the attribute [E] is not assigned. *)
Theorem constructor_builds_ready_instance K D (gmm : GMM) T (gv : option GMM)
    (self : TrajectoryGMMMap) :
  fitted K (2 * D + 2 * D) gmm -> (0 < K)%N -> (0 < D)%N ->
  TrajectoryGMMMap_init gmm T gv false = Ok self ->
  [/\ (0 < T)%N, self_T self = T, ready K D self,
      self_W self = Some (weight_matrix T D) & self_E self = None].
Proof.
move=> fit K_gt0 D_gt0 init.
have n_gt0 : (0 < 2 * D)%N by rewrite muln_gt0.
have T_gt0 : (0 < T)%N.
  case: T init => // init.
  by move: init; rewrite /TrajectoryGMMMap_init; case: GMMMap_init.
have [init_b eq_T _ eq_E _] := TrajectoryGMMMap_init_inv init.
have [_ sp _] := GMMMap_init_inv fit K_gt0 n_gt0 init_b.
have eq_W : self_W self = Some (weight_matrix T D).
  move: init; rewrite /TrajectoryGMMMap_init init_b /=.
  case/fittedP: fit => r_m _ _ _ _.
  rewrite (rect_ncols_pos r_m K_gt0).
  have -> : ((2 * D + 2 * D) %/ 4 = D)%N.
    by rewrite addnn -mul2n mulnA (mulKn D (isT : 0 < 2 * 2)%N).
  rewrite (bind_eval _ (construct_weight_matrix_ok _ _ T_gt0)).
  case: gv => [gv|] /=; last by case=> <-.
  rewrite /bind /lift; case: getitem => // m0; case: getitem => // c.
  by case: linalg_inv => // p [<-].
by split=> //; split=> //; exists T.
Qed.

(** ** Instances with a covariance that is not positive definite, and
    with two components *)

Lemma fitted_indefinite : fitted 1 (2 + 2) indefinite.
Proof.
by rewrite /fitted /= ler01 big_seq1 eqxx.
Qed.

Lemma regular_indefinite : regular 1 2 (split_at 2 indefinite (Arr3 [::])).
Proof.
rewrite /regular /= andbT.
have -> : Sxx 2 (split_at 2 indefinite (Arr3 [::])) 0
          = diag_mx (\row_i nth 0 [:: -1; 1] i).
  apply/matrixP=> i j; rewrite !mxE /=.
  by case: i => [[|[|i]] lt_i] //; case: j => [[|[|j]] lt_j].
rewrite unitmxE det_diag !big_ord_recl big_ord0 !mxE /= !mulr1.
exact: unitrN1.
Qed.

Lemma indefinite_init :
  GMMMap_init indefinite false = Ok (base indefinite_model).
Proof.
by rewrite (GMMMap_init_mx fitted_indefinite) //= regular_indefinite.
Qed.

Lemma indefinite_model_init :
  TrajectoryGMMMap_init indefinite 1 None false = Ok indefinite_model.
Proof. by rewrite (TrajectoryGMMMap_init_ok indefinite_init). Qed.

Lemma indefinite_model_ready : ready 1 1 indefinite_model.
Proof.
split; last by exists 1%N.
exact: (@split_of_split_at 1 2 indefinite _ fitted_indefinite).
Qed.

Lemma min_covar_lt1 : min_covar < 1.
Proof.
rewrite /min_covar invf_lt1 ?exprn_gt0 ?ltr0n //.
by rewrite exprn_egt1 // ltr1n.
Qed.

Lemma indefinite_rejected :
  let cv := nth [::] (covarXX (base indefinite_model)) 0 in
  ~~ positive_definite cv /\ ~~ positive_definite (jitter 2 cv).
Proof.
split; rewrite /positive_definite /= det_mx11 mxE /=.
  by rewrite ltr0N1.
by rewrite addrC subr_gt0 ltNge (ltW min_covar_lt1).
Qed.

Lemma fitted_pair_mixture : fitted 2 (1 + 1) pair_mixture.
Proof.
rewrite /fitted /= invr_ge0 divr_ge0 ?ler0n //=.
rewrite !big_cons big_nil addr0 -[X in X + _]mul1r -mulrDl.
by rewrite -(natrD _ 1 2) divff // pnatr_eq0.
Qed.

Lemma regular_pair_mixture : regular 2 1 (split_at 1 pair_mixture (Arr3 [::])).
Proof.
apply/regularP=> k lt_k.
have -> : Sxx 1 (split_at 1 pair_mixture (Arr3 [::])) k = 1%:M.
  apply/matrixP=> i j; rewrite !ord1 !mxE /=.
  by case: k lt_k => [|[|k]].
exact: unitmx1.
Qed.

Lemma pair_map_init : GMMMap_init pair_mixture false = Ok pair_map.
Proof.
by rewrite (GMMMap_init_mx fitted_pair_mixture) //= regular_pair_mixture.
Qed.

Lemma pair_map_positive : all positive_definite (covarXX pair_map).
Proof. by rewrite /= !(positive_definite_eye 1). Qed.

End Model.

(** * Instances over the rationals

    The theorems with hypotheses at the standard mixture, with the
    constant density, and the inputs on which the specification and the
    program differ. *)

Lemma unit_frames_rect : frames (size (unit_frames rat)) (2 * 1) (unit_frames rat).
Proof. by []. Qed.

Lemma unit_map_positive : all (@positive_definite rat) (covarXX (unit_map rat)).
Proof. exact: (@positive_standard rat 1 _). Qed.

Lemma consistency_operator_structure_witness :
  [/\ (1 <= 3)%N, (1 <= 2)%N
    & exists W : mat rat,
        construct_weight_matrix 3 2 (unit_model rat)
        = (Ok tt, (set_W W (unit_model rat)).2)
        /\ shape W = (12%N, 6%N)].
Proof.
split=> //.
have [W [cons shp _ _]] :=
  @consistency_operator_structure rat 3 2 (unit_model rat) isT isT.
by exists W.
Defined.


Lemma frame_conversion_witness :
  [/\ fitted 1 (1 + 1) (standard rat 2),
      GMMMap_init (standard rat 2) false = Ok (unit_map rat),
      size [:: 0 : rat] = 1%N,
      all (@positive_definite rat) (covarXX (unit_map rat))
    & GMMMap_convert (@flat rat) [:: 0] (unit_map rat)
      = (Ok [:: of_cv (regression 1 (unit_map rat) 0 [:: 0])], unit_map rat)].
Proof.
have fit : fitted 1 (1 + 1) (standard rat 2) := fitted_standard rat 2.
have [_ _ _ one] :=
  frame_conversion (@flat rat) (x := [:: 0]) fit isT isT (unit_map_init rat)
    (erefl _) unit_map_positive.
split; [exact: fit | exact: unit_map_init | by [] | exact: unit_map_positive
       | exact: one].
Defined.

Lemma cached_length_is_never_updated_witness :
  let self := unit_model rat in
  let src := two_frames rat in
  [/\ size src != self_T self,
      self_T (convert (@flat rat) src self).2 = self_T self
    & size src != self_T (convert (@flat rat) src self).2].
Proof.
move=> self src.
have [keep again] := cached_length_is_never_updated (@flat rat) src self.
by split=> //; apply: again.
Defined.

Lemma conversions_keep_split_parameters_witness :
  let self := unit_model rat in
  let src := unit_frames rat in
  let ks := mix (@flat rat) (base self) src in
  [/\ ready 1 1 self, frames (size src) (2 * 1) src,
      self_D (base (convert (@flat rat) src self).2)
      = Arr2 (stacked_precisions 2 (base self) ks 1)
    & self_E (convert (@flat rat) src self).2
      = Some (Arr1 (stacked_means 2 (base self) ks src 1))].
Proof.
move=> self src ks.
have conv := unit_model_convert (@flat rat).
have rdy := unit_model_ready rat.
have [_ _ _ over] := conversions_keep_split_parameters (@flat rat).
have [eq_D eq_E] :=
  over 1%N 1%N self src _ _ rdy isT isT isT unit_frames_rect conv.
by split=> //; rewrite conv.
Defined.

Lemma construction_outcomes_witness :
  [/\ fitted 1 2 (standard rat 2), (0 < 1)%N, (1 < 2)%N
    & exists b, GMMMap_init (standard rat 2) false = Ok b].
Proof.
have fit := fitted_standard rat 2.
have [_ even _] := construction_outcomes fit isT isT.
have reg : regular 1 (2 %/ 2) (split_at (2 %/ 2) (standard rat 2) (Arr3 [::])).
  exact: (@regular_standard rat 1 (Arr3 [::])).
by split=> //; rewrite (even isT) reg; eexists.
Defined.


Lemma zero_learning_rate_witness :
  let self := gv_model rat in
  let src := unit_frames rat in
  exists y s',
    [/\ TrajectoryGMMMap_init (standard rat 4) 1 (Some (standard rat 1)) false
        = Ok self,
        ready 1 1 self /\ frames (size src) (2 * 1) src,
        Pv self = Some (eye rat 1) /\ gv_mean self = Some [:: 0],
        convert (@flat rat) src self = (Ok y, s')
      & convert_with_gv (@flat rat) src 2 0 self = (Ok y, s')
        /\ exists s1, convert (@flat rat) src self = (Ok y, s1)].
Proof.
move=> self src.
have conv := gv_model_convert (@flat rat).
have rdy := gv_model_ready rat.
have [back run] := zero_learning_rate (@flat rat).
have two :=
  run 1%N 1%N self src 2%N (eye rat 1) [:: 0] _ _ rdy isT isT isT
    unit_frames_rect (erefl _) (rect_eye rat 1) (erefl _) (erefl _) conv.
have same := back src 2%N self _ _ two.
by eexists; eexists; split;
   [exact: gv_model_init | split; [exact: rdy | exact: unit_frames_rect]
   | split; exact: erefl | exact: conv | split; [exact: two | exact: same]].
Defined.

Lemma frame_conversion_shape_witness :
  [/\ fitted 1 (1 + 1) (standard rat 2),
      GMMMap_init (standard rat 2) false = Ok (unit_map rat),
      all (@positive_definite rat) (covarXX (unit_map rat))
    & exists v : vec rat,
        GMMMap_convert (@flat rat) [:: 0] (unit_map rat)
        = (Ok [:: v], unit_map rat)
        /\ ndshape (Arr2 [:: v]) = [:: 1%N; 1%N]].
Proof.
have fit : fitted 1 (1 + 1) (standard rat 2) := fitted_standard rat 2.
have [ret shp] :=
  frame_conversion_shape (@flat rat) (x := [:: 0]) fit isT isT
    (unit_map_init rat) (erefl _).
have [v [conv sz_v _]] := ret unit_map_positive.
have [shp_v _] := shp _ _ conv.
by split; [exact: fit | exact: unit_map_init | exact: unit_map_positive
          | exists v; split; [exact: conv | exact: shp_v]].
Defined.

(** C6.  The instance that the constructor builds for the standard
    mixture holds three-axis residual covariances in the attribute [D];
    after [convert] on one frame the attribute holds a two-axis array. *)
Lemma convert_overwrites_D :
  let self := unit_model rat in
  [/\ TrajectoryGMMMap_init (standard rat 4) 1 None false = Ok self,
      self_D (base self)
      = Arr3 (residuals 1 2 (split_at 2 (standard rat 4) (Arr3 [::])))
    & self_D (base (convert (@flat rat) (unit_frames rat) self).2)
      <> self_D (base self)].
Proof.
move=> self; split=> //; first exact: unit_model_init.
by rewrite (unit_model_convert (@flat rat)).
Qed.

(** C7.  The joint width 6 is not a multiple of 4, and the constructor of
    the trajectory class builds an instance for it. *)
Lemma construction_ignores_divisibility_by_4 :
  [/\ ~~ (4 %| 6)%N, fitted 1 6 (standard rat 6)
    & exists self, TrajectoryGMMMap_init (standard rat 6) 1 None false = Ok self].
Proof.
have fit : fitted 1 (3 + 3) (standard rat 6) := fitted_standard rat 6.
split=> //.
have init_b := GMMMap_init_mx fit isT isT.
rewrite /= (@regular_standard rat 3 (Arr3 [::])) in init_b.
by rewrite (TrajectoryGMMMap_init_ok init_b) //; eexists.
Qed.

(** C10.  On the instance built for the standard mixture of joint width 2
    and the input [[0]], of width 1, [GMMMap.convert] returns an array of
    shape [(1, 1)], not an array of one axis of length 1. *)
Lemma frame_conversion_is_two_dimensional :
  GMMMap_init (standard rat 2) false = Ok (unit_map rat)
  /\ exists y : mat rat,
       [/\ GMMMap_convert (@flat rat) [:: 0] (unit_map rat)
           = (Ok y, unit_map rat),
           ndshape (Arr2 y) = [:: 1%N; 1%N]
         & ndshape (Arr2 y) <> [:: 1%N]].
Proof.
split; first exact: unit_map_init.
have sp : split_of 1 1 (unit_map rat).
  exact: (@split_of_split_at rat 1 1 (standard rat 2) _ (fitted_standard rat 2)).
have conv :=
  GMMMap_convert_mx (@flat rat) sp isT isT (erefl (size [:: 0 : rat])).
have [adm _] := density_model_pd sp isT unit_map_positive.
rewrite (@regular_standard rat 1 _) adm in conv.
by eexists; split; first exact: conv; rewrite /= /ncols /= size_of_cv.
Qed.

(** * Instances of the further properties *)

Lemma gv_model_stored_witness :
  let gv := standard rat 1 in
  let self := gv_model rat in
  TrajectoryGMMMap_init (standard rat 4) 1 (Some gv) false = Ok self
  /\ exists m c P,
       [/\ getitem (means_ gv) 0 = Ok m /\ gv_mean self = Some m,
           getitem (covars_ gv) 0 = Ok c /\ gv_covar self = Some c,
           Pv self = Some P, linalg_inv c = Ok P
         & dot22 c P = Ok (eye rat (size c))].
Proof.
move=> gv self; have init := gv_model_init rat.
by split; [exact: init | exact: gv_model_stored init].
Defined.

Lemma constructor_splits_quadrants_witness :
  let gmm := standard rat 2 in
  let self := unit_map rat in
  [/\ fitted 1 (1 + 1) gmm, GMMMap_init gmm false = Ok self,
      num_mixtures self = 1%N /\ weights self = weights_ gmm,
      exists D_, [/\ self_D self = Arr3 D_, size D_ = 1%N
        & forall k, (k < 1)%N ->
            Sxx 1 self k \in unitmx
            /\ nth [::] D_ k = of_mx (schur 1 self k)]
    & px self = mkGMM (src_means self) (covarXX self) (weights self)].
Proof.
move=> gmm self.
have fit : fitted 1 (1 + 1) gmm := fitted_standard rat 2.
have [cnt _ _ res mar] :=
  constructor_splits_quadrants fit isT isT (unit_map_init rat).
by split; [exact: fit | exact: unit_map_init | exact: cnt | exact: res
          | exact: mar].
Defined.

Lemma frame_conversion_rejects_other_widths_witness :
  let x : vec rat := [:: 0; 0] in
  [/\ fitted 1 (1 + 1) (standard rat 2),
      GMMMap_init (standard rat 2) false = Ok (unit_map rat),
      size x != 1%N
    & GMMMap_convert (@flat rat) x (unit_map rat)
      = (Raise ValueError, unit_map rat)].
Proof.
move=> x.
have fit : fitted 1 (1 + 1) (standard rat 2) := fitted_standard rat 2.
have rej :=
  frame_conversion_rejects_other_widths (@flat rat) (x := x) fit isT isT
    (unit_map_init rat) isT.
by split; [exact: fit | exact: unit_map_init | | exact: rej].
Defined.

Lemma convert_rejects_no_frames_witness :
  let self := unit_model rat in
  [/\ self_W self = Some (weight_matrix rat 1 1), self_T self != 0%N
    & convert (@flat rat) [::] self = (Raise AssertionError, self)].
Proof.
move=> self.
have rej :=
  @convert_rejects_no_frames rat (@flat rat) 1 1 self (erefl _) isT isT isT.
by split; [ | | exact: rej].
Defined.

Lemma stale_operator_witness :
  let self := pair_model rat in
  let src := unit_frames rat in
  let src0 := two_frames rat in
  exists y s',
    [/\ TrajectoryGMMMap_init (standard rat 4) 2 None false = Ok self,
        convert (@flat rat) src self = (Ok y, s'),
        size src != self_T self, size src0 = self_T self
      & exists e s'', convert (@flat rat) src0 s' = (Raise e, s'')].
Proof.
move=> self src src0.
have conv := pair_model_convert (@flat rat).
have rdy := pair_model_ready rat.
have stale :=
  stale_operator (src := unit_frames rat) (src0 := two_frames rat) rdy isT
    isT isT unit_frames_rect conv isT (erefl _) isT isT.
by eexists; eexists; split; [exact: pair_model_init | exact: conv | | |
                             exact: stale].
Defined.

Lemma convert_twice_witness :
  let self := unit_model rat in
  let src := unit_frames rat in
  exists y s',
    [/\ ready 1 1 self, frames (size src) (2 * 1) src,
        convert (@flat rat) src self = (Ok y, s')
      & convert (@flat rat) src s' = (Ok y, s')].
Proof.
move=> self src.
have conv := unit_model_convert (@flat rat).
have rdy := unit_model_ready rat.
have again :=
  convert_twice (src := unit_frames rat) rdy isT isT isT unit_frames_rect conv.
by eexists; eexists; split; [exact: rdy | exact: unit_frames_rect
                            | exact: conv | exact: again].
Defined.

Lemma gv_grad_of_equal_frames_witness :
  let self := gv_model rat in
  let row : vec rat := [:: 0] in
  [/\ TrajectoryGMMMap_init (standard rat 4) 1 (Some (standard rat 1)) false
      = Ok self,
      Pv self = Some (eye rat 1), gv_mean self = Some [:: 0],
      rect (size row) (size row) (eye rat 1)
    & gv_grad (nseq 1 row) self = (Ok (zeros2 rat 1 (size row)), self)].
Proof.
move=> self row.
have zero :=
  @gv_grad_of_equal_frames rat 1 row self (eye rat 1) [:: 0] isT (erefl _)
    (erefl _) isT (erefl _).
by split; [exact: gv_model_init | | | | exact: zero].
Defined.

Lemma operator_computes_deltas_witness :
  let y : mat rat := [:: [:: 1]; [:: 3%:R]] in
  rect 2 1 y
  /\ exists z,
       [/\ dot21 (weight_matrix rat 2 1) (flatten y) = Ok z, size z = 4%N,
           nth 0 z 0 = 1 & nth 0 z 1 = 3%:R / 2 - 0 / 2].
Proof.
move=> y; split; first by [].
have [z [run sz_z ev]] := @operator_computes_deltas rat 2 1 y isT.
have [st dl] := ev 0%N 0%N isT isT.
by exists z; split; [exact: run | exact: sz_z | exact: st | exact: dl].
Defined.

Lemma pair_selection : mix (@flat rat) (pair_map rat) [:: [:: 0]] = [:: 1%N].
Proof.
have sp : split_of 2 1 (pair_map rat).
  exact: (@split_of_split_at rat 2 1 (pair_mixture rat) _
            (fitted_pair_mixture rat)).
have [_ eq_dm] := density_model_pd sp isT (pair_map_positive rat).
rewrite /mix /= eq_dm /responsibilities /weighted /= /flat !mulr1.
rewrite !big_cons big_nil addr0.
have -> : (3%:R^-1 + 2%:R / 3%:R = 1 :> rat).
  by rewrite -[X in X + _]mul1r -mulrDl -(natrD _ 1 2) divff // pnatr_eq0.
by rewrite !divr1 -[X in X < _]mul1r ltr_pM2r ?invr_gt0 ?ltr0n // ltr1n.
Qed.

Lemma selection_prefers_lowest_index_witness :
  let gmm := pair_mixture rat in
  let b := pair_map rat in
  let src : mat rat := [:: [:: 0]] in
  let ks := [:: 1%N] in
  [/\ fitted 2 (1 + 1) gmm, GMMMap_init gmm false = Ok b,
      frames (size src) 1 src, predict (@flat rat) (px b) src = Ok ks
    & (0 < nth 0%N ks 0)%N
      /\ let p := responsibilities (@flat rat) (density_model (px b))
                    (nth [::] src 0) in
         nth 0 p 0 < nth 0 p (nth 0%N ks 0)].
Proof.
move=> gmm b src ks.
have fit : fitted 2 (1 + 1) gmm := fitted_pair_mixture rat.
have init : GMMMap_init gmm false = Ok b := pair_map_init rat.
have sp : split_of 2 1 b.
  exact: (@split_of_split_at rat 2 1 (pair_mixture rat) _ fit).
have [adm _] := density_model_pd sp isT (pair_map_positive rat).
have pred : predict (@flat rat) (px b) src = Ok ks.
  have fr : rect (size src) 1 src by [].
  by rewrite (predict_mx (@flat rat) (src := src) sp isT isT isT fr) adm pair_selection.
have first_k :=
  selection_prefers_lowest_index (src := src) fit isT isT init isT pred
    (t := 0%N) (j := 0%N) isT isT.
by split; [exact: fit | exact: init | | exact: pred | split; [|exact: first_k]].
Defined.

Lemma frame_conversion_rejects_indefinite_witness :
  let gmm := indefinite rat in
  let self := base (indefinite_model rat) in
  let x : vec rat := [:: 0; 0] in
  let cv := nth [::] (covarXX self) 0 in
  [/\ fitted 1 (2 + 2) gmm, GMMMap_init gmm false = Ok self,
      ~~ positive_definite cv, ~~ positive_definite (jitter 2 cv)
    & GMMMap_convert (@flat rat) x self = (Raise ValueError, self)].
Proof.
move=> gmm self x cv.
have fit : fitted 1 (2 + 2) gmm := fitted_indefinite rat.
have [not_pd not_pdj] := indefinite_rejected rat.
have rej :=
  frame_conversion_rejects_indefinite (@flat rat) (x := x) (k := 0%N) fit isT
    isT (indefinite_init rat) (erefl _) isT not_pd not_pdj.
by split; [exact: fit | exact: indefinite_init | exact: not_pd
          | exact: not_pdj | exact: rej].
Defined.

Lemma convert_rejects_indefinite_witness :
  let self := indefinite_model rat in
  let src := unit_frames rat in
  let cv := nth [::] (covarXX (base self)) 0 in
  [/\ TrajectoryGMMMap_init (indefinite rat) 1 None false = Ok self,
      ready 1 1 self /\ frames (size src) (2 * 1) src,
      ~~ positive_definite cv /\ ~~ positive_definite (jitter (2 * 1) cv),
      exists e s', convert (@flat rat) src self = (Raise e, s')
    & exists e s', convert_with_gv (@flat rat) src 1 1 self = (Raise e, s')].
Proof.
move=> self src cv.
have rdy := indefinite_model_ready rat.
have [not_pd not_pdj] := indefinite_rejected rat.
have [rej rej_gv] :=
  convert_rejects_indefinite (@flat rat) (src := src) (k := 0%N) rdy isT isT
    isT unit_frames_rect isT not_pd not_pdj.
by split; [exact: indefinite_model_init
          | split; [exact: rdy | exact: unit_frames_rect]
          | split; [exact: not_pd | exact: not_pdj] | exact: rej
          | exact: rej_gv 1%N 1].
Defined.

Lemma convert_with_gv_returns_witness :
  let self := gv_model rat in
  let src := unit_frames rat in
  exists y s',
    [/\ TrajectoryGMMMap_init (standard rat 4) 1 (Some (standard rat 1)) false
        = Ok self,
        ready 1 1 self /\ frames (size src) (2 * 1) src,
        Pv self = Some (eye rat 1) /\ gv_mean self = Some [:: 0],
        convert (@flat rat) src self = (Ok y, s')
      & exists y', convert_with_gv (@flat rat) src 3 1 self = (Ok y', s')
                   /\ rect (size src) 1 y'].
Proof.
move=> self src.
have conv := gv_model_convert (@flat rat).
have rdy := gv_model_ready rat.
have run :=
  convert_with_gv_returns (src := src) 3 1 rdy isT isT isT unit_frames_rect
    (erefl _) (rect_eye rat 1) (erefl _) (erefl _) conv.
by eexists; eexists; split;
   [exact: gv_model_init | split; [exact: rdy | exact: unit_frames_rect]
   | split; exact: erefl | exact: conv | exact: run].
Defined.

Lemma constructor_builds_ready_instance_witness :
  let self := unit_model rat in
  [/\ fitted 1 (2 * 1 + 2 * 1) (standard rat 4),
      TrajectoryGMMMap_init (standard rat 4) 1 None false = Ok self,
      self_T self = 1%N, ready 1 1 self
    & self_W self = Some (weight_matrix rat 1 1)].
Proof.
move=> self.
have fit : fitted 1 (2 * 1 + 2 * 1) (standard rat 4) := fitted_standard rat 4.
have [_ eq_T rdy eq_W _] :=
  constructor_builds_ready_instance fit isT isT (unit_model_init rat).
by split; [exact: fit | exact: unit_model_init | exact: eq_T | exact: rdy
          | exact: eq_W].
Defined.
